(** * Croquette: a string-keyed dictionary with separate chaining

    A shallow embedding of [src/croquette.c] and a verification of the
    properties that its specification states about it.

    Data model of the embedding (LP64, two's complement):
    - [int] is a 32-bit and [long] a 64-bit signed integer; both are values
      of [Z] and every arithmetic result that the C code stores in one of
      them is wrapped ([to_int], [to_long]);
    - [char] is a signed byte ([char_value]);
    - a C string is the sequence of its characters before the terminator,
      together with the information whether the buffer that holds it
      contains a terminator at all ([cstring]); reading behind a buffer
      without terminator is a memory fault;
    - [void *] values are addresses in [Z], [0] is [NULL];
    - the two process-wide globals [croquette] and [croquette_error], and
      the calls made to the caller's [free_value] routine, form the
      [world]; every C function is a computation in the state-and-fault
      monad [M] over it;
    - a bucket's doubly-linked chain is the list of its carriers in chain
      order, the bucket array is the list of the chains, and a carrier
      pointer is the pair (bucket, position in the chain);
    - [calloc] always succeeds. *)

From Stdlib Require Import ZArith Lia Bool Ascii String.
From Stdlib Require DecimalString.
From stdpp Require Import base numbers list.

Local Open Scope Z_scope.

(** ** Machine integers *)

Definition wrap (bits : Z) (x : Z) : Z :=
  (x + 2 ^ (bits - 1)) mod 2 ^ bits - 2 ^ (bits - 1).

Definition to_int (x : Z) : Z := wrap 32 x.
Definition to_long (x : Z) : Z := wrap 64 x.

Definition INT_MAX : Z := 2147483647.

(** The value of a [char] when it is promoted to [long]. *)
Definition char_value (c : ascii) : Z :=
  let n := Z.of_N (N_of_ascii c) in
  if n <? 128 then n else n - 256.

(** ** Constants of [croquette.h] *)

Definition CROQUETTE_DEFAULT_INITIAL_SIZE : Z := 11.
Definition MAX_KEY_SIZE : Z := 255.

(** Modelled from the spec: the enumerations with the prefix [D_] that
    [croquette.c] refers to are not declared in the sources.  The header
    [inc/croquette.h] declares the same enumerators with the prefix [C_];
    their values are taken from there. *)
Inductive Croquette_Action_e : Set := D_Insert | D_Remove.

Definition D_Error : Z := -1.
Definition D_Success : Z := 0.
Definition D_No_Free : Z := 0.
Definition D_Do_Free : Z := 1.
Definition Croquette_Free_Value : Z := 1.

Definition D_No_Error : Z := 0.
Definition D_General_Error : Z := 1.
Definition D_Uninitialized : Z := 2.
Definition D_Unknown_Error : Z := 3.
Definition D_Invalid_Key : Z := 4.
Definition D_Invalid_Value : Z := 5.
Definition D_Entry_NULL : Z := 6.
Definition D_Invalid_Capacity : Z := 7.
Definition D_Invalid_Index : Z := 8.
Definition D_No_Value : Z := 9.
Definition D_Insufficient_Memory : Z := 10.
Definition D_FreeValue_Missing : Z := 11.
Definition D_ValueCompare_Missing : Z := 12.
Definition D_Exists : Z := 13.
Definition D_No_Such_Error : Z := 14.
Definition D_Num_Errors : Z := 15.

Definition NULL : Z := 0.

(** ** C strings *)

Record cstring : Set := Cstr { chars : string; terminated : bool }.

(** A string literal or any other well-formed string of the caller. *)
Definition str (s : string) : cstring := Cstr s true.

(** [strlen]: [None] when the scan runs off the end of the buffer. *)
Definition strlen (s : cstring) : option Z :=
  if terminated s then Some (Z.of_nat (String.length (chars s))) else None.

Fixpoint prefix (n : nat) (s : string) : string :=
  match n, s with
  | S n', String c s' => String c (prefix n' s')
  | _, _ => EmptyString
  end.

(** [calloc(1, n)] followed by [strncpy(dst, src, n)]: the first [n]
    characters of [src]; a terminator is there when [src] is shorter. *)
Definition strncpy (src : string) (n : Z) : cstring :=
  Cstr (prefix (Z.to_nat n) src) (Z.of_nat (String.length src) <? n).

Definition uchar (c : ascii) : Z := Z.of_N (N_of_ascii c).

(** [strncmp] on two buffers; the byte that follows the characters of a
    buffer is the terminator when there is one and unmapped otherwise. *)
Fixpoint strncmp_chars (n : nat) (a : string) (ta : bool) (b : string) (tb : bool)
  : option Z :=
  match n with
  | O => Some 0
  | S n' =>
      match a, b with
      | String x a', String y b' =>
          if Ascii.eqb x y then strncmp_chars n' a' ta b' tb
          else Some (uchar x - uchar y)
      | EmptyString, String y _ => if ta then Some (0 - uchar y) else None
      | String x _, EmptyString => if tb then Some (uchar x) else None
      | EmptyString, EmptyString => if ta && tb then Some 0 else None
      end
  end.

Definition strncmp (a b : cstring) (n : Z) : option Z :=
  strncmp_chars (Z.to_nat n) (chars a) (terminated a) (chars b) (terminated b).

(** ** The table and the globals *)

Record Carrier_s : Set := mkCarrier { key : cstring; value : Z }.

Record Croquette_s : Type := mkCroquette {
  do_free : Z;
  size : Z;
  capacity : Z;
  base_capacity : Z;
  table : list (list Carrier_s);
  free_value : bool;                       (* is the routine given (not NULL)? *)
  value_compare : option (Z -> Z -> Z)     (* None is NULL *)
}.

Record world : Type := mkWorld {
  croquette : option Croquette_s;
  croquette_error : Z;
  released : list Z          (* arguments of the calls to free_value, in order *)
}.

Definition no_croquette : world :=
  {| croquette := None; croquette_error := 0; released := [] |}.

Definition with_error (e : Z) (w : world) : world :=
  {| croquette := croquette w; croquette_error := e; released := released w |}.

Definition with_croquette (c : option Croquette_s) (w : world) : world :=
  {| croquette := c; croquette_error := croquette_error w; released := released w |}.

Definition with_released (l : list Z) (w : world) : world :=
  {| croquette := croquette w; croquette_error := croquette_error w; released := l |}.

Definition with_table (tb : list (list Carrier_s)) (t : Croquette_s) : Croquette_s :=
  {| do_free := do_free t; size := size t; capacity := capacity t;
     base_capacity := base_capacity t; table := tb;
     free_value := free_value t; value_compare := value_compare t |}.

Definition with_size (n : Z) (t : Croquette_s) : Croquette_s :=
  {| do_free := do_free t; size := n; capacity := capacity t;
     base_capacity := base_capacity t; table := table t;
     free_value := free_value t; value_compare := value_compare t |}.

Definition with_capacity (n : Z) (t : Croquette_s) : Croquette_s :=
  {| do_free := do_free t; size := size t; capacity := n;
     base_capacity := base_capacity t; table := table t;
     free_value := free_value t; value_compare := value_compare t |}.

(** ** The monad of C computations *)

Inductive outcome (A : Type) : Type :=
| Ret (a : A) (w : world)     (* normal return *)
| Fault                       (* access outside an object, call through NULL *)
| OutOfFuel.                  (* the recursion bound of the model was hit *)
Arguments Ret {A} a w.
Arguments Fault {A}.
Arguments OutOfFuel {A}.

Definition M (A : Type) : Type := world -> outcome A.

Definition ret {A : Type} (a : A) : M A := fun w => Ret a w.

Definition bind {A B : Type} (m : M A) (f : A -> M B) : M B := fun w =>
  match m w with
  | Ret a w' => f a w'
  | Fault => Fault
  | OutOfFuel => OutOfFuel
  end.

Declare Scope c_scope.
Delimit Scope c_scope with C.
Notation "'let*' x ':=' m 'in' k" := (bind m (fun x => k))
  (at level 10, x name, m at level 100, k at level 200) : c_scope.
Notation "m ;; k" := (bind m (fun _ => k))
  (at level 100, k at level 200, right associativity) : c_scope.
Local Open Scope c_scope.

Definition fault {A : Type} : M A := fun _ => Fault.
Definition get_world : M world := fun w => Ret w w.
Definition put_world (w : world) : M unit := fun _ => Ret tt w.

(** Reading through a pointer that may be invalid. *)
Definition valid {A : Type} (o : option A) : M A :=
  match o with Some a => ret a | None => fault end.

(** The global [croquette], and [croquette->...] which faults on NULL. *)
Definition get_croquette : M (option Croquette_s) := fun w => Ret (croquette w) w.
Definition deref_croquette : M Croquette_s := let* c := get_croquette in valid c.
Definition set_croquette (c : option Croquette_s) : M unit :=
  fun w => Ret tt (with_croquette c w).

(** ** Error slot *)

Definition croquette_set_error (error : Z) : M unit := fun w =>
  let w1 := if (error <? 0) || (error >? D_Num_Errors)
            then with_error D_No_Such_Error w else w in
  Ret tt (with_error error w1).

Definition croquette_get_error : M Z := fun w => Ret (croquette_error w) w.

(** ** Hashing *)

Fixpoint hash_loop (size : Z) (i : Z) (cs : string) (code : Z) : Z :=
  match cs with
  | EmptyString => code
  | String c cs' =>
      if i <? size then
        let code := to_long (code + char_value c) in
        let code := if (size =? 1) || (i <? size - 1)
                    then to_long (Z.shiftl code 7) else code in
        hash_loop size (i + 1) cs' code
      else code
  end.

Definition hash_code (key : cstring) : M Z :=
  let* len := valid (strlen key) in
  let size := to_int len in
  ret (hash_loop size 0 (chars key) 0).

(** [key == NULL || strlen(key) == 0] *)
Definition key_is_invalid (key : option cstring) : M bool :=
  match key with
  | None => ret true
  | Some k => let* len := valid (strlen k) in ret (len =? 0)
  end.

Definition get_index (key : option cstring) : M Z :=
  croquette_set_error D_No_Error;;
  let* c := get_croquette in
  match c with
  | None => croquette_set_error D_Uninitialized;; ret D_General_Error
  | Some _ =>
      let* bad := key_is_invalid key in
      if bad then croquette_set_error D_Invalid_Key;; ret D_General_Error
      else
        let* k := valid key in
        let* code := hash_code k in
        let* t := deref_croquette in
        if capacity t =? 0 then fault
        else ret (Z.rem code (capacity t))
  end.

(** ** Chains *)

(** [table[index]]: outside the array the access faults. *)
Definition bucket_at (t : Croquette_s) (index : Z) : M (list Carrier_s) :=
  if (index <? 0) then fault else valid (table t !! Z.to_nat index).

Definition set_bucket (index : Z) (chain : list Carrier_s) : M unit :=
  let* t := deref_croquette in
  if (index <? 0) || (Z.of_nat (length (table t)) <=? index) then fault
  else set_croquette (Some (with_table (<[Z.to_nat index := chain]> (table t)) t)).

(** [*entry] for a carrier pointer. *)
Definition carrier_at (entry : nat * nat) : M Carrier_s :=
  let* t := deref_croquette in
  let* chain := valid (table t !! fst entry) in
  valid (chain !! snd entry).

Definition set_size (n : Z) : M unit :=
  let* t := deref_croquette in
  set_croquette (Some (with_size n t)).

(** A call through the function pointer [croquette->free_value]. *)
Definition call_free_value (v : Z) : M unit :=
  let* t := deref_croquette in
  if free_value t then fun w => Ret tt (with_released (released w ++ [v]) w)
  else fault.

Definition call_value_compare (v1 v2 : Z) : M Z :=
  let* t := deref_croquette in
  let* f := valid (value_compare t) in
  ret (to_int (f v1 v2)).

Definition is_key (entry : Carrier_s) (k : cstring) : M bool :=
  let* r := valid (strncmp (key entry) k MAX_KEY_SIZE) in
  ret (r =? 0).

(** The walk of [croquette_find] along a chain: the position of the first
    carrier with the key. *)
Fixpoint find_in_chain (walker : list Carrier_s) (key : cstring) (pos : nat)
  : M (option nat) :=
  match walker with
  | [] => ret None
  | entry :: next =>
      let* hit := is_key entry key in
      if hit then ret (Some pos) else find_in_chain next key (S pos)
  end.

Definition croquette_find (key : option cstring) : M (option (nat * nat)) :=
  croquette_set_error D_No_Error;;
  let* c := get_croquette in
  match c with
  | None => croquette_set_error D_Uninitialized;; ret None
  | Some _ =>
      let* bad := key_is_invalid key in
      if bad then croquette_set_error D_Invalid_Key;; ret None
      else
        let* i := get_index key in
        let index := to_int i in
        if index =? D_Error then ret None
        else
          let* t := deref_croquette in
          let* walker := bucket_at t index in
          let* k := valid key in
          let* pos := find_in_chain walker k 0 in
          ret (option_map (fun p => (Z.to_nat index, p)) pos)
  end.

Definition carrier_create (k : cstring) (v : Z) : M Carrier_s :=
  croquette_set_error D_No_Error;;
  let* len := valid (strlen k) in
  let key_size := to_int (Z.min MAX_KEY_SIZE (len + 1)) in
  ret {| key := strncpy (chars k) key_size; value := v |}.

Definition insert_at_index (index : Z) (entry : Carrier_s) : M Z :=
  croquette_set_error D_No_Error;;
  let* c := get_croquette in
  match c with
  | None => croquette_set_error D_Uninitialized;; ret D_Error
  | Some t =>
      if (index <? 0) || (index >? capacity t) then
        croquette_set_error D_Invalid_Index;; ret D_Error
      else
        let* chain := bucket_at t index in
        set_bucket index (chain ++ [entry]);;
        let* t := deref_croquette in
        set_size (to_int (size t + 1));;
        ret D_Success
  end.

Definition free_entry (entry : Carrier_s) : M unit :=
  let* c := get_croquette in
  match c with
  | Some t =>
      if do_free t =? D_Do_Free then call_free_value (value entry) else ret tt
  | None => ret tt
  end.

Definition remove_entry (entry : option (nat * nat)) : M Z :=
  croquette_set_error D_No_Error;;
  match entry with
  | None => croquette_set_error D_Entry_NULL;; ret D_Error
  | Some (b, p) =>
      let* e := carrier_at (b, p) in
      let* i := get_index (Some (key e)) in
      let index := to_int i in
      let* t := deref_croquette in
      let* chain := valid (table t !! b) in
      match p with
      | O => set_bucket index (drop 1 chain)
      | S _ => set_bucket (Z.of_nat b) (take p chain ++ drop (S p) chain)
      end;;
      free_entry e;;
      let* t := deref_croquette in
      set_size (to_int (size t - 1));;
      ret D_Success
  end.

(** ** Rehashing and insertion

    [croquette_put] calls [rehash], which calls [perform_rehash], which
    calls [croquette_put] for every carrier of the old table.  The three
    functions are first written over the recursive call ([put]); the knot
    is tied by [croquette_put_fuel], which bounds the depth of the nesting. *)

Section Recursion.

Variable put : option cstring -> Z -> M Z.

(** The inner [while] loop of [perform_rehash] over one old chain. *)
Fixpoint rehash_chain (walker : list Carrier_s) : M unit :=
  match walker with
  | [] => ret tt
  | reaper :: next =>
      put (Some (key reaper)) (value reaper);;
      free_entry {| key := key reaper; value := NULL |};;
      rehash_chain next
  end.

(** The [for] loop of [perform_rehash] over the old bucket array. *)
Fixpoint rehash_chains (old_sable : list (list Carrier_s)) : M unit :=
  match old_sable with
  | [] => ret tt
  | walker :: rest => rehash_chain walker;; rehash_chains rest
  end.

Definition perform_rehash (new_capacity : Z) : M Z :=
  croquette_set_error D_No_Error;;
  let* c := get_croquette in
  match c with
  | None => croquette_set_error D_Uninitialized;; ret D_Error
  | Some t =>
      if new_capacity <=? 0 then
        croquette_set_error D_Invalid_Capacity;; ret D_Error
      else
        let new_sable := replicate (Z.to_nat new_capacity) ([] : list Carrier_s) in
        let old_sable := table t in
        let old_capacity := capacity t in
        set_croquette
          (Some (with_size 0 (with_capacity new_capacity (with_table new_sable t))));;
        rehash_chains (take (Z.to_nat old_capacity) old_sable);;
        (if Z.of_nat (length old_sable) <? old_capacity then fault else ret tt);;
        ret D_Success
  end.

Definition rehash (operation : Croquette_Action_e) : M Z :=
  croquette_set_error D_No_Error;;
  let* t := deref_croquette in
  match operation with
  | D_Insert =>
      if (size t >? Z.shiftr (capacity t) 1 + Z.shiftr (capacity t) 2)
         || (size t >=? capacity t)
      then
        let new_capacity := to_int (Z.shiftl (capacity t) 1) in
        let* success := perform_rehash new_capacity in
        if success =? D_Error then ret D_Error else ret D_Success
      else ret D_Success
  | D_Remove =>
      if size t <? Z.shiftr (capacity t) 1 then
        let new_capacity := Z.shiftr (capacity t) 1 in
        let* success := perform_rehash new_capacity in
        if success =? D_Error then ret D_Error else ret D_Success
      else ret D_Success
  end.

Definition put_body (k : option cstring) (v : Z) : M Z :=
  croquette_set_error D_No_Error;;
  let* c := get_croquette in
  match c with
  | None => croquette_set_error D_Uninitialized;; ret D_Error
  | Some _ =>
      let* bad := key_is_invalid k in
      if bad then croquette_set_error D_Invalid_Key;; ret D_Error
      else
        let* found := croquette_find k in
        match found with
        | Some entry =>
            let* e := carrier_at entry in
            let* differ := call_value_compare (value e) v in
            (if differ =? 0 then ret tt
             else
               call_free_value (value e);;
               let* t := deref_croquette in
               let* chain := valid (table t !! fst entry) in
               set_bucket (Z.of_nat (fst entry))
                 (<[snd entry := {| key := key e; value := v |}]> chain));;
            ret D_Success
        | None =>
            let* ks := valid k in
            let* entry := carrier_create ks v in
            let* i := get_index (Some (key entry)) in
            let index := to_int i in
            if index =? D_Error then ret D_Error
            else
              insert_at_index index entry;;
              let* rehash_success := rehash D_Insert in
              if rehash_success =? D_Error then ret D_Error
              else ret D_Success
        end
  end.

End Recursion.

Fixpoint croquette_put_fuel (fuel : nat) (k : option cstring) (v : Z) : M Z :=
  match fuel with
  | O => fun _ => OutOfFuel
  | S fuel' => put_body (croquette_put_fuel fuel') k v
  end.

(** The capacity is an [int] that doubles at every level of the nesting,
    so that 32 levels are never exceeded ([croquette_put_terminates]). *)
Definition max_depth : nat := 32.

Definition croquette_put : option cstring -> Z -> M Z :=
  croquette_put_fuel max_depth.

(** ** The remaining operations of the interface *)

Definition croquette_create (initial_capacity : Z) (do_free : Z)
    (free_value : bool) (value_compare : option (Z -> Z -> Z)) : M Z :=
  croquette_set_error D_No_Error;;
  let* c := get_croquette in
  match c with
  | Some _ => croquette_set_error D_Exists;; ret D_Error
  | None =>
      let initial_capacity :=
        if initial_capacity <=? 0 then CROQUETTE_DEFAULT_INITIAL_SIZE
        else initial_capacity in
      if (do_free =? Croquette_Free_Value) && negb free_value then
        croquette_set_error D_FreeValue_Missing;; ret D_Error
      else
        match value_compare with
        | None => croquette_set_error D_ValueCompare_Missing;; ret D_Error
        | Some _ =>
            set_croquette (Some
              {| do_free := do_free; size := 0; capacity := initial_capacity;
                 base_capacity := initial_capacity;
                 table := replicate (Z.to_nat initial_capacity) [];
                 free_value := free_value; value_compare := value_compare |});;
            ret D_Success
        end
  end.

Definition croquette_isEmpty : M Z :=
  croquette_set_error D_No_Error;;
  let* c := get_croquette in
  match c with
  | None => croquette_set_error D_Uninitialized;; ret D_Error
  | Some t => ret (if size t =? 0 then 1 else 0)
  end.

Definition croquette_size : M Z :=
  croquette_set_error D_No_Error;;
  let* c := get_croquette in
  match c with
  | None => croquette_set_error D_Uninitialized;; ret D_Error
  | Some t => ret (size t)
  end.

Definition croquette_capacity : M Z :=
  croquette_set_error D_No_Error;;
  let* c := get_croquette in
  match c with
  | None => croquette_set_error D_Uninitialized;; ret D_Error
  | Some t => ret (capacity t)
  end.

Definition croquette_containsKey (k : option cstring) : M Z :=
  croquette_set_error D_No_Error;;
  let* c := get_croquette in
  match c with
  | None => croquette_set_error D_Uninitialized;; ret D_Error
  | Some _ =>
      let* bad := key_is_invalid k in
      if bad then croquette_set_error D_Invalid_Key;; ret D_Error
      else
        let* found := croquette_find k in
        ret (match found with Some _ => 1 | None => 0 end)
  end.

Definition croquette_get (k : option cstring) : M Z :=
  croquette_set_error D_No_Error;;
  let* c := get_croquette in
  match c with
  | None => croquette_set_error D_Uninitialized;; ret NULL
  | Some _ =>
      let* bad := key_is_invalid k in
      if bad then croquette_set_error D_Invalid_Key;; ret NULL
      else
        let* found := croquette_find k in
        match found with
        | Some entry => let* e := carrier_at entry in ret (value e)
        | None => ret NULL
        end
  end.

(** The [while] loop of [croquette_clear] over the chain of bucket [i]:
    the reaper is unlinked at the head each time. *)
Fixpoint clear_chain (i : nat) (walker : list Carrier_s) : M unit :=
  match walker with
  | [] => ret tt
  | _ :: next => remove_entry (Some (i, O));; clear_chain i next
  end.

(** The [for] loop of [croquette_clear], from bucket [i] on, over [n]
    buckets. *)
Fixpoint clear_buckets (i : nat) (n : nat) : M unit :=
  match n with
  | O => ret tt
  | S n' =>
      let* t := deref_croquette in
      let* walker := bucket_at t (Z.of_nat i) in
      clear_chain i walker;;
      set_bucket (Z.of_nat i) [];;
      clear_buckets (S i) n'
  end.

Definition croquette_clear : M Z :=
  croquette_set_error D_No_Error;;
  let* c := get_croquette in
  match c with
  | None => croquette_set_error D_Uninitialized;; ret D_Error
  | Some t =>
      clear_buckets 0 (Z.to_nat (capacity t));;
      let* t := deref_croquette in
      perform_rehash croquette_put (base_capacity t)
  end.

Definition croquette_remove (k : option cstring) : M Z :=
  croquette_set_error D_No_Error;;
  let* c := get_croquette in
  match c with
  | None => croquette_set_error D_Uninitialized;; ret D_Error
  | Some _ =>
      let* bad := key_is_invalid k in
      if bad then croquette_set_error D_Invalid_Key;; ret D_Error
      else
        let* entry := croquette_find k in
        match entry with
        | None => ret D_Success
        | Some _ =>
            remove_entry entry;;
            let* rehash_success := rehash croquette_put D_Remove in
            if rehash_success =? D_Error then ret D_Error else ret D_Success
        end
  end.

Definition croquette_destroy : M unit :=
  let* c := get_croquette in
  match c with
  | None => ret tt
  | Some _ =>
      let* r := croquette_clear in
      if r =? D_Error then ret tt
      else set_croquette None
  end.

(** ** Specification-level definitions *)

(** The hash of the characters of a key, as [hash_code] computes it. *)
Definition hash (s : string) : Z :=
  hash_loop (to_int (Z.of_nat (String.length s))) 0 s 0.

(** The hash of [hash_code] without the loop counter: every character, a
    signed [char], is added to the running total, a [long] that wraps, and
    the total is shifted left by 7 bits after every character except the
    last one. *)
Fixpoint accumulate (total : Z) (cs : string) : Z :=
  match cs with
  | EmptyString => total
  | String c EmptyString => to_long (total + char_value c)
  | String c rest =>
      accumulate (to_long (Z.shiftl (to_long (total + char_value c)) 7)) rest
  end.

(** A key of a single character is still shifted once. *)
Definition spec_hash (s : string) : Z :=
  match s with
  | String c EmptyString => to_long (Z.shiftl (to_long (0 + char_value c)) 7)
  | _ => accumulate 0 s
  end.

(** The hash as the specification words it: the ordinal value of every
    character is accumulated into a running total, and the accumulator is
    shifted left by 7 bits after every character except the last; a key of
    a single character is still shifted once.  The total is an integer, and
    the bucket index of the specification is this hash modulo the capacity. *)
Fixpoint ordinal_accumulate (total : Z) (cs : string) : Z :=
  match cs with
  | EmptyString => total
  | String c EmptyString => total + uchar c
  | String c rest => ordinal_accumulate (Z.shiftl (total + uchar c) 7) rest
  end.

Definition claimed_hash (s : string) : Z :=
  match s with
  | String c EmptyString => Z.shiftl (uchar c) 7
  | _ => ordinal_accumulate 0 s
  end.

Definition claimed_index (s : string) (capacity : Z) : Z :=
  claimed_hash s mod capacity.

(** A world in which a table exists. *)
Abbreviation live t e l := (mkWorld (Some t) e l) (only parsing).

(** The characters of a C string are not terminators. *)
Fixpoint nul_free (s : string) : bool :=
  match s with
  | EmptyString => true
  | String c s' => negb (Ascii.eqb c Ascii.zero) && nul_free s'
  end.

(** A key argument: [NULL], or a pointer to characters. *)
Definition c_string (k : option cstring) : bool :=
  match k with
  | None => true
  | Some k => nul_free (chars k)
  end.

(** A key as the table stores it: terminated within its buffer, not empty. *)
Definition key_ok (k : cstring) : bool :=
  terminated k && nul_free (chars k)
  && (0 <? Z.of_nat (String.length (chars k)))
  && (Z.of_nat (String.length (chars k)) <? MAX_KEY_SIZE).

(** The carrier [e] is in the bucket that its key hashes to. *)
Definition placed (cap : Z) (b : nat) (e : Carrier_s) : bool :=
  key_ok (key e) && (Z.rem (hash (chars (key e))) cap =? Z.of_nat b).

Fixpoint chains_placed (cap : Z) (b : nat) (tb : list (list Carrier_s)) : bool :=
  match tb with
  | [] => true
  | chain :: rest => forallb (placed cap b) chain && chains_placed cap (S b) rest
  end.

Definition entries (t : Croquette_s) : list Carrier_s := concat (table t).

Definition keys (t : Croquette_s) : list string :=
  map (fun e => chars (key e)) (entries t).

Fixpoint distinct (l : list string) : bool :=
  match l with
  | [] => true
  | x :: r => negb (existsb (String.eqb x) r) && distinct r
  end.

(** The representation invariant of an existing table, as a check. *)
Definition table_ok (t : Croquette_s) : bool :=
  (1 <=? capacity t) && (capacity t <=? INT_MAX)
  && (1 <=? base_capacity t) && (base_capacity t <=? INT_MAX)
  && (Z.of_nat (length (table t)) =? capacity t)
  && (size t =? Z.of_nat (length (entries t)))
  && (size t <=? INT_MAX)
  && chains_placed (capacity t) 0 (table t)
  && distinct (keys t)
  && (match value_compare t with Some _ => true | None => false end)
  && implb (do_free t =? D_Do_Free) (free_value t).

(** The invariants that the specification lists for the table. *)
Definition table_invariants (t : Croquette_s) : Prop :=
  0 <= size t /\ 1 <= capacity t /\
  size t = Z.of_nat (length (entries t)) /\
  NoDup (keys t).

(** The growth rule of [rehash] after an insertion. *)
Definition grows (size capacity : Z) : bool :=
  (size >? Z.shiftr capacity 1 + Z.shiftr capacity 2) || (size >=? capacity).

(** A key that can be stored: shorter than the key buffer, and with a hash
    code that is not negative. *)
Definition storable (s : string) : bool :=
  nul_free s && (0 <? Z.of_nat (String.length s))
  && (Z.of_nat (String.length s) <? MAX_KEY_SIZE) && (0 <=? hash s).

(** ** Scenarios *)

(** The comparison routine of the tests: the difference of the elements. *)
Definition compare_elem : Z -> Z -> Z := fun e1 e2 => e1 - e2.

Fixpoint put_all (kvs : list (string * Z)) : M unit :=
  match kvs with
  | [] => ret tt
  | kv :: rest => croquette_put (Some (str (fst kv))) (snd kv);; put_all rest
  end.

(** One insertion as it is observed from outside: the key is absent
    before, and [croquette_put] returns [D_Success].  The size and the
    capacity after the insertion are reported when both hold. *)
Definition put_observed (kv : string * Z) : M (option (Z * Z)) :=
  let* before := croquette_containsKey (Some (str (fst kv))) in
  let* r := croquette_put (Some (str (fst kv))) (snd kv) in
  let* n := croquette_size in
  let* c := croquette_capacity in
  ret (if (before =? 0) && (r =? D_Success) then Some (n, c) else None).

(** The pairs are inserted one after the other; the observations are
    reported when every insertion was the successful insertion of an
    absent key. *)
Fixpoint observe_insertions (kvs : list (string * Z)) : M (option (list (Z * Z))) :=
  match kvs with
  | [] => ret (Some [])
  | kv :: rest =>
      let* o := put_observed kv in
      match o with
      | None => ret None
      | Some nc =>
          let* obs := observe_insertions rest in
          ret (option_map (cons nc) obs)
      end
  end.

Definition test_keys : list (string * Z) :=
  [("aaa", 21); ("bee", 22); ("cee", 23); ("dee", 24);
   ("eee", 25); ("eff", 26); ("gee", 27); ("hhh", 28)]%string.

(** Seven different keys, the first of which has a negative hash code. *)
Definition keys_with_negative_hash : list (string * Z) :=
  [("aaaaaaaaaa", 20); ("aaa", 21); ("bee", 22); ("cee", 23);
   ("dee", 24); ("eee", 25); ("eff", 26)]%string.

Fixpoint repeat_char (c : ascii) (n : nat) : string :=
  match n with
  | O => EmptyString
  | S n' => String c (repeat_char c n')
  end.

(** The size and the capacity in a world, if the table exists. *)
Definition size_capacity {A : Type} (o : outcome A) : option (Z * Z) :=
  match o with
  | Ret _ w =>
      match croquette w with
      | Some t => Some (size t, capacity t)
      | None => None
      end
  | _ => None
  end.

Definition uninitialized_result (r : Z) (w : world) : outcome Z :=
  Ret r (with_error D_Uninitialized w).

(** A run of the library from the start of the process: the table is
    created with the comparison routine of the tests, then [m] runs. *)
Definition from_create {A : Type} (initial_capacity do_free : Z)
    (free_value : bool) (m : M A) : outcome A :=
  (croquette_create initial_capacity do_free free_value (Some compare_elem);; m)
    no_croquette.

(** Two keys that agree on their first 255 characters. *)
Definition long_key : string := repeat_char "b" 255.
Definition longer_key : string := (long_key ++ "c")%string.

Definition released_values {A : Type} (o : outcome A) : option (list Z) :=
  match o with
  | Ret _ w => Some (released w)
  | _ => None
  end.

Definition result {A : Type} (o : outcome A) : option A :=
  match o with
  | Ret a _ => Some a
  | _ => None
  end.

(** ** The invariant as a proposition *)

Record table_inv (t : Croquette_s) : Prop := {
  inv_capacity : 1 <= capacity t <= INT_MAX;
  inv_base : 1 <= base_capacity t <= INT_MAX;
  inv_length : Z.of_nat (length (table t)) = capacity t;
  inv_size : size t = Z.of_nat (length (entries t));
  inv_size_max : size t <= INT_MAX;
  inv_placed : forall b chain e,
    table t !! b = Some chain -> e ∈ chain -> placed (capacity t) b e = true;
  inv_distinct : NoDup (keys t);
  inv_compare : exists f, value_compare t = Some f;
  inv_free : do_free t = D_Do_Free -> free_value t = true
}.

(** What no operation changes after the creation. *)
Definition same_config (t t' : Croquette_s) : Prop :=
  do_free t' = do_free t /\ base_capacity t' = base_capacity t /\
  free_value t' = free_value t /\ value_compare t' = value_compare t.

(** The position of the first carrier of a chain with the characters [s]
    as key, counted from [pos]. *)
Fixpoint chain_find (s : string) (chain : list Carrier_s) (pos : nat) : option nat :=
  match chain with
  | [] => None
  | e :: next =>
      if String.eqb (chars (key e)) s then Some pos
      else chain_find s next (S pos)
  end.

(** The table that [perform_rehash] starts to fill. *)
Definition rehashed (new_capacity : Z) (t : Croquette_s) : Croquette_s :=
  with_size 0
    (with_capacity new_capacity
       (with_table (replicate (Z.to_nat new_capacity) []) t)).

(** The table after [entry] is appended to the chain of bucket [index]. *)
Definition inserted (index : Z) (chain : list Carrier_s) (entry : Carrier_s)
    (t : Croquette_s) : Croquette_s :=
  with_size (size t + 1)
    (with_table (<[Z.to_nat index := chain ++ [entry]]> (table t)) t).

(** No key of the table has a negative hash code. *)
Definition nonneg_keys (t : Croquette_s) : bool :=
  forallb (fun x => 0 <=? hash x) (keys t).

(** Keys for which the lookup stays inside the bucket array. *)
Definition safe_find (k : option cstring) : bool :=
  match k with
  | None => true
  | Some c => terminated c && (0 <=? hash (chars c))
  end.

(** Arguments with which [croquette_put] has a defined behaviour: the key
    fits into the key buffer, no hash code is negative and, where a stored
    value may have to be replaced, the release routine exists. *)
Definition safe_put (t : Croquette_s) (k : option cstring) : bool :=
  safe_find k && nonneg_keys t &&
  match k with
  | None => true
  | Some c =>
      (Z.of_nat (String.length (chars c)) <? MAX_KEY_SIZE)
      && implb (existsb (String.eqb (chars c)) (keys t)) (free_value t)
  end.

Definition safe_remove (t : Croquette_s) (k : option cstring) : bool :=
  safe_find k && nonneg_keys t.

(** The sizes and capacities that the growth rule alone predicts for [k]
    insertions of new keys into [n] entries and [c] buckets. *)
Fixpoint growth_sizes (n c : Z) (k : nat) : list (Z * Z) :=
  match k with
  | O => []
  | S k' =>
      let n' := n + 1 in
      let c' := if grows n' c then 2 * c else c in
      (n', c') :: growth_sizes n' c' k'
  end.

(** The bucket index of a key is inside the array of [cap] buckets. *)
Definition arrives (cap : Z) (s : string) : bool :=
  0 <=? Z.rem (hash s) cap.

(** The keys that a rehash to [cap] buckets keeps. *)
Fixpoint arrived (cap : Z) (l : list string) : list string :=
  match l with
  | [] => []
  | s :: r => if arrives cap s then s :: arrived cap r else arrived cap r
  end.

(** The way [croquette_put], [croquette_remove] and [rehash] pass on the
    result of the rehash. *)
Definition propagate (r : Z) : M Z :=
  if r =? D_Error then ret D_Error else ret D_Success.

(** ** The contract of [croquette_put] *)

Definition key_chars (k : option cstring) : option string :=
  option_map chars k.

(** What a call of [croquette_put] that returns guarantees. *)
Definition put_step (t : Croquette_s) (k : option cstring) (t' : Croquette_s) : Prop :=
  table_inv t' /\ same_config t t' /\
  capacity t <= capacity t' /\ size t' <= size t + 1 /\
  (forall x, x ∈ keys t' -> x ∈ keys t \/ key_chars k = Some x).

(** The three outcomes of a call on the table [t]; [deep c] says that the
    bound on the nesting suffices for a table of capacity [c]. *)
Definition put_post (deep : Z -> Prop) (t : Croquette_s) (k : option cstring)
    (o : outcome Z) : Prop :=
  match o with
  | Ret _ w' => exists t' e' l', w' = live t' e' l' /\ put_step t k t'
  | Fault => safe_put t k = false
  | OutOfFuel => ~ deep (capacity t)
  end.

Definition put_contract (deep : Z -> Prop) (put : option cstring -> Z -> M Z) : Prop :=
  forall k v t e l,
    table_inv t -> size t < INT_MAX -> c_string k = true ->
    put_post deep t k (put k v (live t e l)).

(** What a rehash that returns guarantees. *)
Definition rehash_step (t t' : Croquette_s) : Prop :=
  table_inv t' /\ same_config t t' /\ size t' <= size t /\
  (forall x, x ∈ keys t' -> x ∈ keys t).

(** An operation keeps the invariants: when it returns, the table satisfies
    them; it faults only on arguments that are not [safe], and the bound on
    the nesting is not reached. *)
Definition outcome_preserves (safe : bool) (o : outcome Z) : Prop :=
  match o with
  | Ret _ w' =>
      exists t', croquette w' = Some t' /\ table_ok t' = true /\ table_invariants t'
  | Fault => safe = false
  | OutOfFuel => False
  end.

(** The table right after [croquette_create]. *)
Definition created (initial_capacity do_free : Z) (free_value : bool)
    (value_compare : Z -> Z -> Z) : Croquette_s :=
  mkCroquette do_free 0 initial_capacity initial_capacity
    (replicate (Z.to_nat initial_capacity) []) free_value (Some value_compare).

(** What an insertion that is observed to succeed does: the key was absent
    and is stored, the size grows by one and the capacity doubles exactly
    when the growth rule holds for the new size. *)
Definition inserted_one (s : string) (t t' : Croquette_s) : Prop :=
  table_inv t' /\ size t' = size t + 1 /\
  capacity t' = (if grows (size t + 1) (capacity t)
                 then 2 * capacity t else capacity t) /\
  keys t' ≡ₚ s :: keys t /\ same_config t t' /\ size t' < capacity t'.

(** A small table for the examples: one entry in two buckets, created with
    one bucket. *)
Definition small_table : Croquette_s :=
  mkCroquette D_Do_Free 1 2 1 [[]; [mkCarrier (str "aaa") 21]] true
    (Some compare_elem).

(** ** The table as a finite map

    The keys of a table with their values, in the order of the buckets and
    of the chains, and the value that is stored for a key. *)
Definition content (t : Croquette_s) : list (string * Z) :=
  map (fun e => (chars (key e), value e)) (entries t).

Fixpoint assoc (s : string) (l : list (string * Z)) : option Z :=
  match l with
  | [] => None
  | (k, v) :: r => if String.eqb k s then Some v else assoc s r
  end.

Definition stored (t : Croquette_s) (s : string) : option Z :=
  assoc s (content t).

(** What a rehash of [n] carriers passes to the release routine: each
    carrier is freed after its value was moved, with [NULL] as value. *)
Definition rehash_releases (t : Croquette_s) (n : nat) : list Z :=
  if do_free t =? D_Do_Free then replicate n NULL else [].

(** Keys in 7-bit ASCII: no character is the terminator or has its high
    bit set. *)
Fixpoint plain (s : string) : bool :=
  match s with
  | EmptyString => true
  | String c r => (0 <? uchar c) && (uchar c <? 128) && plain r
  end.

(** ** Printing

    The two convenience functions write to the standard output.  Their
    model returns the text that is written as the result of the
    computation; the world does not change. *)

Definition newline : string := String (ascii_of_nat 10) EmptyString.

(** What [printf] writes for the conversion [%2d]: the decimal digits with
    their sign, behind a space when this is a single character. *)
Definition print_2d (n : Z) : string :=
  let digits := DecimalString.NilZero.string_of_int (Z.to_int n) in
  if (String.length digits <? 2)%nat then (" " ++ digits)%string else digits.

(** The array [error_str]: a string for every index that has an
    initializer, a null pointer for the others. *)
Definition error_str (code : Z) : option string :=
  if code =? D_No_Error then Some "No Croquette Errors Encountered"%string
  else if code =? D_General_Error then
    Some "An Unspecified Croquette Error was Encountered"%string
  else if code =? D_Uninitialized then
    Some "The Croquette was not Initialized Properly"%string
  else if code =? D_Unknown_Error then Some "An Unknown Error was Encoutered"%string
  else if code =? D_Invalid_Key then Some "The Key is not Valid"%string
  else if code =? D_Entry_NULL then Some "The Entry passed in was Null"%string
  else if code =? D_Invalid_Capacity then Some "The Capacity Given is not Valid"%string
  else if code =? D_Invalid_Index then Some "The Index Given is not Valid"%string
  else if code =? D_No_Value then Some "The Value Given is not Valid"%string
  else if code =? D_Insufficient_Memory then
    Some "There was a Memory Error (Insuffient Memory)"%string
  else if code =? D_FreeValue_Missing then
    Some "No Function was Given to Free a Value"%string
  else if code =? D_ValueCompare_Missing then
    Some "No Function was Given to Compare two Values"%string
  else if code =? D_Exists then Some "The Croquette Already Exists"%string
  else if code =? D_No_Such_Error then Some "No Such Error Exists"%string
  else if code =? D_Num_Errors then
    Some "This is a Code to Hold the Number of Errors"%string
  else None.

(** [printf] with [%s]: the characters up to the terminator; a buffer
    without terminator is read past its end.  For a null pointer the C
    library writes [(null)]. *)
Definition print_string (s : option cstring) : M string :=
  match s with
  | Some k => if terminated k then ret (chars k) else fault
  | None => ret "(null)"%string
  end.

Definition croquette_print_error : M string :=
  let* w := get_world in
  let e := croquette_error w in
  if (e <=? D_Num_Errors) && (e >=? 0) then
    let* msg := print_string (option_map str (error_str e)) in
    ret ("[Croquette Error " ++ print_2d e ++ "] " ++ msg ++ newline)%string
  else ret ("[Croquette] No Such Error" ++ newline)%string.

(** The inner loop of [croquette_print_keys] over the chain of bucket [i]. *)
Fixpoint print_chain (i : Z) (walker : list Carrier_s) : M string :=
  match walker with
  | [] => ret EmptyString
  | entry :: next =>
      let* k := print_string (Some (key entry)) in
      let* rest := print_chain i next in
      ret ("[" ++ print_2d i ++ "] " ++ k ++ newline ++ rest)%string
  end.

(** The outer loop, from bucket [i] on, over [n] buckets. *)
Fixpoint print_buckets (i : nat) (n : nat) : M string :=
  match n with
  | O => ret EmptyString
  | S n' =>
      let* t := deref_croquette in
      let* walker := bucket_at t (Z.of_nat i) in
      let* lines := print_chain (Z.of_nat i) walker in
      let* rest := print_buckets (S i) n' in
      ret (lines ++ rest)%string
  end.

Definition croquette_print_keys : M string :=
  let* c := get_croquette in
  match c with
  | None => ret ("Keys: " ++ newline)%string
  | Some t =>
      let* lines := print_buckets 0 (Z.to_nat (capacity t)) in
      ret ("Keys: " ++ newline ++ lines)%string
  end.

(** The lines that [croquette_print_keys] writes for a list of bucket
    indices and keys. *)
Fixpoint key_lines (l : list (Z * string)) : string :=
  match l with
  | [] => EmptyString
  | (i, k) :: r => ("[" ++ print_2d i ++ "] " ++ k ++ newline ++ key_lines r)%string
  end.

(** The codes of [Croquette_Error_Code_e] for which [error_str] holds a
    string. *)
Definition has_message (code : Z) : bool :=
  (0 <=? code) && (code <=? D_Num_Errors) && negb (code =? D_Invalid_Value).

(** None of the keys [ks] is stored in the table. *)
Definition fresh_keys (t : Croquette_s) (ks : list string) : bool :=
  forallb (fun k => negb (existsb (String.eqb k) (keys t))) ks.

(** * Verification *)

(** ** Machine integers and the monad *)

Lemma to_int_small x : -2147483648 <= x <= INT_MAX -> to_int x = x.
Proof.
  intros H. unfold to_int, wrap, INT_MAX in *.
  change (2 ^ (32 - 1)) with 2147483648. change (2 ^ 32) with 4294967296.
  rewrite Z.mod_small; lia.
Qed.

Lemma to_int_range x : -2147483648 <= to_int x <= INT_MAX.
Proof.
  unfold to_int, wrap, INT_MAX.
  change (2 ^ (32 - 1)) with 2147483648. change (2 ^ 32) with 4294967296.
  pose proof (Z.mod_pos_bound (x + 2147483648) 4294967296). lia.
Qed.

Lemma bind_Ret {A B} (m : M A) (f : A -> M B) w a w' :
  m w = Ret a w' -> bind m f w = f a w'.
Proof. intros H. unfold bind. rewrite H. reflexivity. Qed.

Lemma bind_Fault {A B} (m : M A) (f : A -> M B) w :
  m w = Fault -> bind m f w = Fault.
Proof. intros H. unfold bind. rewrite H. reflexivity. Qed.

Lemma bind_assoc {A B C} (m : M A) (f : A -> M B) (g : B -> M C) w :
  bind (bind m f) g w = bind m (fun x => bind (f x) g) w.
Proof. unfold bind. destruct (m w); reflexivity. Qed.

Lemma bind_ext {A B} (m : M A) (f g : A -> M B) w :
  (forall a w', f a w' = g a w') -> bind m f w = bind m g w.
Proof. intros H. unfold bind. destruct (m w); [apply H | reflexivity | reflexivity]. Qed.

Lemma set_error_eq e w : croquette_set_error e w = Ret tt (with_error e w).
Proof.
  unfold croquette_set_error.
  destruct ((e <? 0) || (e >? D_Num_Errors)); reflexivity.
Qed.

Lemma set_error_bind {B} e (f : unit -> M B) w :
  bind (croquette_set_error e) f w = f tt (with_error e w).
Proof. apply bind_Ret, set_error_eq. Qed.

Lemma get_croquette_eq w : get_croquette w = Ret (croquette w) w.
Proof. reflexivity. Qed.

Lemma deref_croquette_eq t e l : deref_croquette (live t e l) = Ret t (live t e l).
Proof. reflexivity. Qed.

Lemma valid_eq {A} (a : A) w : valid (Some a) w = Ret a w.
Proof. reflexivity. Qed.

Lemma ret_eq {A} (a : A) w : ret a w = Ret a w.
Proof. reflexivity. Qed.

Lemma key_is_invalid_eq s w :
  key_is_invalid (Some (Cstr s true)) w
  = Ret (Z.of_nat (String.length s) =? 0) w.
Proof. reflexivity. Qed.

Create HintDb run discriminated.
#[export] Hint Resolve get_croquette_eq deref_croquette_eq valid_eq ret_eq
  key_is_invalid_eq set_error_eq : run.

(** One step of symbolic execution: the first computation of a sequence is
    replaced by its result. *)
Ltac norm_world :=
  unfold with_error, with_croquette, with_released;
  cbn [croquette croquette_error released chars terminated].
Ltac run1 :=
  first [ rewrite bind_assoc
        | rewrite set_error_bind
        | erewrite bind_Ret by (solve [eauto with run nocore]) ];
  norm_world; cbv beta iota.
Ltac run := repeat run1.

(** ** The error slot *)

(** C10: whatever code is given to [croquette_set_error], also one outside
    the range of the error codes, [croquette_get_error] returns it
    unchanged right afterwards. *)
Theorem set_error_then_get_error (e : Z) (w : world) :
  (croquette_set_error e;; croquette_get_error) w = Ret e (with_error e w).
Proof. rewrite set_error_bind. reflexivity. Qed.

(** ** Operations without a table *)

(** C7: when no table exists, every query and every mutation returns the
    error result, sets the error slot to [D_Uninitialized] and changes
    nothing else in the world. *)
Theorem uninitialized_operations (w : world) (k : option cstring) (v : Z) :
  croquette w = None ->
  croquette_isEmpty w = uninitialized_result D_Error w /\
  croquette_size w = uninitialized_result D_Error w /\
  croquette_capacity w = uninitialized_result D_Error w /\
  croquette_containsKey k w = uninitialized_result D_Error w /\
  croquette_get k w = uninitialized_result NULL w /\
  croquette_put k v w = uninitialized_result D_Error w /\
  croquette_remove k w = uninitialized_result D_Error w /\
  croquette_clear w = uninitialized_result D_Error w.
Proof.
  intros H. destruct w as [c e l]. simpl in H. subst c.
  repeat split; reflexivity.
Qed.

Lemma uninitialized_operations_witness :
  croquette no_croquette = None /\
  croquette_put (Some (str "aaa")) 42 no_croquette
  = uninitialized_result D_Error no_croquette.
Proof.
  split; [reflexivity |].
  apply (uninitialized_operations no_croquette (Some (str "aaa")) 42).
  reflexivity.
Defined.

(** ** Hashing *)

Lemma hash_loop_accumulate cs : forall i code size,
  cs <> EmptyString ->
  size = i + Z.of_nat (String.length cs) ->
  size <> 1 ->
  hash_loop size i cs code = accumulate code cs.
Proof.
  induction cs as [| c cs IH]; intros i code size Hne Hsize H1; [congruence |].
  cbn [hash_loop accumulate]. cbn [String.length] in Hsize.
  assert (Hlt : (i <? size) = true) by (apply Z.ltb_lt; lia).
  rewrite Hlt.
  assert (Hone : (size =? 1) = false) by (apply Z.eqb_neq; lia).
  rewrite Hone. cbn [orb].
  destruct cs as [| c' cs'].
  - cbn [String.length] in Hsize.
    assert (Hlast : (i <? size - 1) = false) by (apply Z.ltb_ge; lia).
    rewrite Hlast. reflexivity.
  - assert (Hmid : (i <? size - 1) = true).
    { apply Z.ltb_lt. cbn [String.length] in Hsize. lia. }
    rewrite Hmid. apply IH; [congruence | lia | lia].
Qed.

Lemma hash_spec_hash (s : string) :
  s <> EmptyString ->
  Z.of_nat (String.length s) <= INT_MAX ->
  hash s = spec_hash s.
Proof.
  intros Hne Hlen. unfold hash.
  rewrite to_int_small by (unfold INT_MAX in *; lia).
  destruct s as [| c s]; [congruence |].
  destruct s as [| c' s].
  - reflexivity.
  - unfold spec_hash. apply hash_loop_accumulate; [congruence | lia |].
    cbn [String.length]. lia.
Qed.

Lemma hash_code_eq (s : string) w :
  hash_code (Cstr s true) w = Ret (hash s) w.
Proof. reflexivity. Qed.

#[export] Hint Resolve hash_code_eq : run.

Lemma get_index_eq (s : string) t e l :
  s <> EmptyString ->
  capacity t <> 0 ->
  get_index (Some (Cstr s true)) (live t e l)
  = Ret (Z.rem (hash s) (capacity t)) (live t D_No_Error l).
Proof.
  intros Hne Hcap. unfold get_index. run.
  assert (Hlen : (Z.of_nat (String.length s) =? 0) = false).
  { destruct s; [congruence |]. reflexivity. }
  rewrite Hlen. run.
  apply Z.eqb_neq in Hcap. rewrite Hcap. reflexivity.
Qed.

(** What [hash_code] and [get_index] compute for a nonempty key:
    [hash_code] returns the wrapped accumulation of the signed characters,
    and [get_index] the C remainder of this hash code by the capacity; the
    remainder is the modulus when the hash code is not negative. *)
Lemma hash_code_and_index (k : cstring) (t : Croquette_s) (e : Z) (l : list Z) :
  terminated k = true ->
  chars k <> EmptyString ->
  Z.of_nat (String.length (chars k)) <= INT_MAX ->
  capacity t <> 0 ->
  hash_code k (live t e l) = Ret (spec_hash (chars k)) (live t e l) /\
  get_index (Some k) (live t e l)
  = Ret (Z.rem (spec_hash (chars k)) (capacity t)) (live t D_No_Error l) /\
  (0 <= spec_hash (chars k) -> 0 < capacity t ->
   Z.rem (spec_hash (chars k)) (capacity t) = spec_hash (chars k) mod capacity t).
Proof.
  intros Ht Hne Hlen Hcap. destruct k as [s tm]. cbn in *. subst tm.
  rewrite <- (hash_spec_hash s) by assumption.
  split; [apply hash_code_eq |].
  split; [apply get_index_eq; assumption |].
  intros Hpos Hc. apply Z.rem_mod_nonneg; lia.
Qed.

(** ** Defects found by evaluation *)

(** C1: on the update path [croquette_put] calls [free_value] without
    looking at [do_free].  A table created without ownership and, as the
    documentation of [croquette_create] asks, without release routine
    faults when the value of an existing key is replaced; with a release
    routine the old value of the caller is released although the table
    does not own it.  Size and capacity are unchanged and a value that
    compares equal is left alone. *)
Theorem put_update_ignores_ownership :
  from_create 1 D_No_Free false
    (croquette_put (Some (str "bee")) 22;; croquette_put (Some (str "bee")) 26)
  = Fault /\
  released_values (from_create 1 D_No_Free true
    (croquette_put (Some (str "bee")) 22;; croquette_put (Some (str "bee")) 26))
  = Some [22] /\
  released_values (from_create 1 D_No_Free true
    (croquette_put (Some (str "bee")) 22;; croquette_put (Some (str "bee")) 22))
  = Some [] /\
  size_capacity (from_create 1 D_Do_Free true
    (croquette_put (Some (str "bee")) 22;; croquette_put (Some (str "bee")) 26))
  = size_capacity (from_create 1 D_Do_Free true
    (croquette_put (Some (str "bee")) 22)).
Proof. repeat split; vm_compute; reflexivity. Qed.

(** C2: a removal that leaves the size below half of the capacity does not
    always halve the capacity.  With 8 entries in 16 buckets the removal of
    one entry leaves 7 < 8 entries; [perform_rehash 8] inserts them again
    with [croquette_put], whose own growth check doubles the capacity at the
    seventh entry, so that the capacity is 16 in the end.  The example of
    the specification (5 entries in 8 buckets down to 3 entries) does end
    with capacity 4. *)
Theorem removal_below_half_not_halved :
  size_capacity (from_create 1 D_Do_Free true (put_all test_keys)) = Some (8, 16) /\
  size_capacity (from_create 1 D_Do_Free true
    (put_all test_keys;; croquette_remove (Some (str "aaa")))) = Some (7, 16) /\
  (7 <? Z.shiftr 16 1) = true /\
  size_capacity (from_create 1 D_Do_Free true (put_all (take 5 test_keys)))
  = Some (5, 8) /\
  size_capacity (from_create 1 D_Do_Free true
    (put_all (take 5 test_keys);; croquette_remove (Some (str "aaa"));;
     croquette_remove (Some (str "bee")))) = Some (3, 4).
Proof. repeat split; vm_compute; reflexivity. Qed.

(** C6: keys are hashed over their whole length.  Two keys that agree on
    their first 255 characters fall into different buckets of a table with
    two buckets, and the 255 characters that [carrier_create] copies of a
    key of that length are left without terminator, so that the next
    [strlen] of [croquette_put] runs off the buffer. *)
Theorem long_keys_hash_apart :
  prefix 255 long_key = prefix 255 longer_key /\
  result (from_create 2 D_Do_Free true (get_index (Some (str long_key)))) = Some 0 /\
  result (from_create 2 D_Do_Free true (get_index (Some (str longer_key)))) = Some 1 /\
  result (from_create 2 D_Do_Free true
            (carrier_create (str long_key) 1))
  = Some (mkCarrier (Cstr long_key false) 1) /\
  from_create 2 D_Do_Free true (croquette_put (Some (str long_key)) 1) = Fault.
Proof. repeat split; vm_compute; reflexivity. Qed.

(** ** The bounds check of [insert_at_index] *)


Lemma insert_at_index_outside t e l index entry :
  index < 0 \/ capacity t < index ->
  insert_at_index index entry (live t e l) = Ret D_Error (live t D_Invalid_Index l).
Proof.
  intros H. unfold insert_at_index. run.
  assert (Hb : (index <? 0) || (index >? capacity t) = true).
  { apply orb_true_iff. rewrite Z.gtb_ltb. destruct H; [left | right]; apply Z.ltb_lt; lia. }
  rewrite Hb. run. reflexivity.
Qed.




(** ** Keys with a negative hash code *)

(** C5: the bucket index of a key is not always the hash modulo the
    capacity.  The hash code of the ten characters [aaaaaaaaaa] overflows
    the [long] of [hash_code] and is negative; [get_index] returns its C
    remainder by the capacity 8, which is -7, where the specification has
    the index 1, and the lookup of the key reads the bucket array in front
    of its first element.  For the key [bee] the code and the specification
    agree. *)
Theorem negative_hash_index_leaves_the_buckets :
  claimed_hash "aaaaaaaaaa" = 901711710311723593953 /\
  claimed_index "aaaaaaaaaa" 8 = 1 /\
  result (from_create 8 D_Do_Free true (hash_code (str "aaaaaaaaaa")))
  = Some (-2178749300044435231) /\
  result (from_create 8 D_Do_Free true (get_index (Some (str "aaaaaaaaaa"))))
  = Some (-7) /\
  from_create 8 D_Do_Free true (croquette_containsKey (Some (str "aaaaaaaaaa")))
  = Fault /\
  result (from_create 8 D_Do_Free true (hash_code (str "bee")))
  = Some (claimed_hash "bee") /\
  result (from_create 8 D_Do_Free true (get_index (Some (str "bee"))))
  = Some (claimed_index "bee" 8).
Proof. repeat split; vm_compute; reflexivity. Qed.

(** C3: seven insertions of different keys into a table created with one
    bucket do not always give the sizes and capacities (1,2), (2,4), (3,4),
    (4,8), (5,8), (6,8), (7,16).  Every [croquette_put] of the run below
    returns [D_Success] for a key that was absent, but the first key has a
    negative hash code: the rehash from one bucket to two computes the
    index -1 for it, which [croquette_put] takes for [D_Error], and the
    entry is lost.  The key is not found afterwards and the observed pairs
    are (0,2), (1,2), (2,4), (3,4), (4,8), (5,8), (6,8).  For the first
    seven keys of the tests the pairs are the ones of the claim. *)
Theorem seven_insertions_lose_a_key :
  length keys_with_negative_hash = 7%nat /\
  distinct (map fst keys_with_negative_hash) = true /\
  result (from_create 1 D_Do_Free true (observe_insertions keys_with_negative_hash))
  = Some (Some [(0, 2); (1, 2); (2, 4); (3, 4); (4, 8); (5, 8); (6, 8)]) /\
  result (from_create 1 D_Do_Free true
            (croquette_put (Some (str "aaaaaaaaaa")) 20;;
             croquette_containsKey (Some (str "aaaaaaaaaa")))) = Some 0 /\
  result (from_create 1 D_Do_Free true (observe_insertions (take 7 test_keys)))
  = Some (Some [(1, 2); (2, 4); (3, 4); (4, 8); (5, 8); (6, 8); (7, 16)]).
Proof. repeat split; vm_compute; reflexivity. Qed.

(** ** Strings *)

Lemma uchar_zero c : uchar c = 0 -> c = Ascii.zero.
Proof.
  unfold uchar. intros H.
  assert (Hn : N_of_ascii c = 0%N) by lia.
  rewrite <- (ascii_N_embedding c), Hn. reflexivity.
Qed.

Lemma uchar_inj x y : uchar x = uchar y -> x = y.
Proof.
  unfold uchar. intros H.
  assert (Hn : N_of_ascii x = N_of_ascii y) by lia.
  rewrite <- (ascii_N_embedding x), <- (ascii_N_embedding y), Hn. reflexivity.
Qed.

Lemma nul_free_cons c s :
  nul_free (String c s) = true -> uchar c <> 0 /\ nul_free s = true.
Proof.
  cbn [nul_free]. intros H. apply andb_true_iff in H as [Hc Hs].
  split; [| assumption].
  intros Hz. apply uchar_zero in Hz. subst c.
  rewrite Ascii.eqb_refl in Hc. discriminate.
Qed.

(** On terminated strings [strncmp] over more characters than the first
    string has decides the equality of the two. *)
Lemma strncmp_chars_eqb n : forall a b,
  nul_free a = true -> nul_free b = true ->
  (String.length a < n)%nat ->
  exists r, strncmp_chars n a true b true = Some r /\
            (r =? 0) = String.eqb a b.
Proof.
  induction n as [| n IH]; intros a b Ha Hb Hlen; [lia |].
  destruct a as [| x a], b as [| y b]; cbn [strncmp_chars String.eqb andb].
  - exists 0. split; reflexivity.
  - apply nul_free_cons in Hb as [Hy _].
    exists (0 - uchar y). split; [reflexivity |]. apply Z.eqb_neq. lia.
  - apply nul_free_cons in Ha as [Hx _].
    exists (uchar x). split; [reflexivity |]. apply Z.eqb_neq. lia.
  - apply nul_free_cons in Ha as [_ Ha]. apply nul_free_cons in Hb as [_ Hb].
    destruct (Ascii.eqb x y) eqn:Hxy.
    + apply IH; [assumption | assumption |]. cbn [String.length] in Hlen. lia.
    + exists (uchar x - uchar y). split; [reflexivity |].
      apply Z.eqb_neq. intros Hz. apply Ascii.eqb_neq in Hxy.
      apply Hxy, uchar_inj. lia.
Qed.

Lemma key_ok_inv k :
  key_ok k = true ->
  terminated k = true /\ nul_free (chars k) = true /\
  0 < Z.of_nat (String.length (chars k)) < MAX_KEY_SIZE.
Proof.
  unfold key_ok. intros H.
  repeat (apply andb_true_iff in H as [H ?]).
  repeat split; try assumption; lia.
Qed.

Lemma is_key_eq entry s w :
  key_ok (key entry) = true -> nul_free s = true ->
  is_key entry (Cstr s true) w = Ret (String.eqb (chars (key entry)) s) w.
Proof.
  intros Hk Hs. apply key_ok_inv in Hk as (Ht & Hn & Hlen).
  unfold is_key, strncmp. cbn [chars terminated]. rewrite Ht.
  destruct (strncmp_chars_eqb (Z.to_nat MAX_KEY_SIZE) (chars (key entry)) s)
    as (r & Hr & Heq); [assumption | assumption | lia |].
  rewrite Hr. unfold bind. cbn [valid]. unfold ret. rewrite Heq. reflexivity.
Qed.

Lemma find_in_chain_eq s walker : forall pos w,
  Forall (fun e => key_ok (key e) = true) walker -> nul_free s = true ->
  find_in_chain walker (Cstr s true) pos w = Ret (chain_find s walker pos) w.
Proof.
  induction walker as [| e next IH]; intros pos w Hall Hs; [reflexivity |].
  inversion Hall as [| ? ? He Hnext]; subst.
  cbn [find_in_chain chain_find].
  erewrite bind_Ret by (apply is_key_eq; assumption).
  destruct (String.eqb (chars (key e)) s); [reflexivity |].
  apply IH; assumption.
Qed.

Lemma chain_find_None s chain : forall pos,
  chain_find s chain pos = None <-> s ∉ map (fun e => chars (key e)) chain.
Proof.
  induction chain as [| e next IH]; intros pos; cbn [chain_find map].
  - split; [intros _; apply not_elem_of_nil | reflexivity].
  - destruct (String.eqb (chars (key e)) s) eqn:Heq.
    + apply String.eqb_eq in Heq. split; [discriminate |].
      intros H. exfalso. apply H. subst s. apply list_elem_of_here.
    + apply String.eqb_neq in Heq. rewrite IH. rewrite not_elem_of_cons.
      split; [intros H; split; [congruence | assumption] | intros [_ H]; exact H].
Qed.

Lemma chain_find_Some s chain : forall pos p,
  chain_find s chain pos = Some p ->
  exists e, chain !! (p - pos)%nat = Some e /\ chars (key e) = s /\ (pos <= p)%nat.
Proof.
  induction chain as [| e next IH]; intros pos p; cbn [chain_find]; [discriminate |].
  destruct (String.eqb (chars (key e)) s) eqn:Heq.
  - intros [= <-]. exists e. rewrite Nat.sub_diag.
    apply String.eqb_eq in Heq. repeat split; [assumption | lia].
  - intros H. apply IH in H as (e' & Hl & Hk & Hle). exists e'.
    replace (p - pos)%nat with (S (p - S pos)) by lia.
    repeat split; [assumption | assumption | lia].
Qed.

(** ** The invariant: check and proposition *)

Lemma existsb_eqb_elem_of (x : string) (l : list string) :
  existsb (String.eqb x) l = true <-> x ∈ l.
Proof.
  rewrite existsb_exists. split.
  - intros (y & Hin & Heq). apply String.eqb_eq in Heq. subst y.
    apply list_elem_of_In. assumption.
  - intros Hin. exists x. split; [apply list_elem_of_In; assumption |].
    apply String.eqb_refl.
Qed.

Lemma distinct_NoDup (l : list string) : distinct l = true <-> NoDup l.
Proof.
  induction l as [| x r IH]; cbn [distinct].
  - split; [intros _; constructor | reflexivity].
  - rewrite andb_true_iff, negb_true_iff, NoDup_cons, IH.
    rewrite <- not_true_iff_false, existsb_eqb_elem_of. reflexivity.
Qed.

Lemma chains_placed_spec cap tb : forall b0,
  chains_placed cap b0 tb = true <->
  (forall i chain e, tb !! i = Some chain -> e ∈ chain ->
                     placed cap (b0 + i) e = true).
Proof.
  induction tb as [| c rest IH]; intros b0; cbn [chains_placed].
  - split; [| reflexivity]. intros _ i chain e H. discriminate.
  - rewrite andb_true_iff, IH, forallb_forall. split.
    + intros [Hc Hrest] i chain e Hl He. destruct i as [| i].
      * cbn in Hl. injection Hl as <-. rewrite Nat.add_0_r.
        apply Hc, list_elem_of_In. assumption.
      * cbn in Hl. replace (b0 + S i)%nat with (S b0 + i)%nat by lia.
        eapply Hrest; eassumption.
    + intros H. split.
      * intros e He. rewrite <- (Nat.add_0_r b0).
        apply (H 0%nat c e); [reflexivity | apply list_elem_of_In; assumption].
      * intros i chain e Hl He.
        replace (S b0 + i)%nat with (b0 + S i)%nat by lia.
        apply (H (S i) chain e); assumption.
Qed.

Lemma table_ok_inv t : table_ok t = true -> table_inv t.
Proof.
  unfold table_ok. intros H.
  repeat (apply andb_true_iff in H as [H ?]).
  constructor.
  - lia.
  - lia.
  - lia.
  - lia.
  - lia.
  - intros b chain e Hl He.
    match goal with Hc : chains_placed _ _ _ = true |- _ =>
      apply (proj1 (chains_placed_spec _ _ _) Hc b chain e Hl He) end.
  - apply distinct_NoDup. assumption.
  - destruct (value_compare t) as [f |]; [exists f; reflexivity | discriminate].
  - intros Hd.
    match goal with Hi : implb _ _ = true |- _ =>
      apply Z.eqb_eq in Hd; rewrite Hd in Hi; exact Hi end.
Qed.

Lemma table_inv_ok t : table_inv t -> table_ok t = true.
Proof.
  intros [Hc Hb Hl Hs Hm Hp Hd [f Hf] Hfr]. unfold table_ok.
  repeat (apply andb_true_iff; split); try (apply Z.leb_le; lia);
    try (apply Z.eqb_eq; lia).
  - apply chains_placed_spec. intros i chain e Hi He. eapply Hp; eassumption.
  - apply distinct_NoDup. assumption.
  - rewrite Hf. reflexivity.
  - destruct (do_free t =? D_Do_Free) eqn:Hdf; [| reflexivity].
    apply Z.eqb_eq in Hdf. cbn [implb]. auto.
Qed.

Lemma table_inv_invariants t : table_inv t -> table_invariants t.
Proof.
  intros [Hc Hb Hl Hs Hm Hp Hd Hf Hfr]. unfold table_invariants.
  repeat split; [lia | lia | assumption | assumption].
Qed.

(** ** Bucket arrays *)

Lemma entries_split (tb : list (list Carrier_s)) b chain :
  tb !! b = Some chain ->
  concat tb = concat (take b tb) ++ chain ++ concat (drop (S b) tb).
Proof.
  intros H. rewrite <- (take_drop_middle tb b chain H) at 1.
  rewrite concat_app. reflexivity.
Qed.

Lemma entries_insert (tb : list (list Carrier_s)) b chain chain' :
  tb !! b = Some chain ->
  concat (<[b := chain']> tb)
  = concat (take b tb) ++ chain' ++ concat (drop (S b) tb).
Proof.
  intros H. rewrite insert_take_drop by (eapply lookup_lt_Some; eassumption).
  rewrite concat_app. reflexivity.
Qed.

Lemma elem_of_entries (tb : list (list Carrier_s)) e :
  e ∈ concat tb <-> exists b chain, tb !! b = Some chain /\ e ∈ chain.
Proof.
  rewrite list_elem_of_In, in_concat. split.
  - intros (chain & Hin & He). apply list_elem_of_In, list_elem_of_lookup in Hin.
    destruct Hin as [b Hb]. exists b, chain. split; [assumption |].
    apply list_elem_of_In. assumption.
  - intros (b & chain & Hb & He). exists chain. split.
    + apply list_elem_of_In. eapply list_elem_of_lookup_2. eassumption.
    + apply list_elem_of_In. assumption.
Qed.

Lemma bucket_lookup t index :
  table_inv t -> 0 <= index < capacity t ->
  exists chain, table t !! Z.to_nat index = Some chain.
Proof.
  intros Hinv Hi. apply lookup_lt_is_Some_2.
  pose proof (inv_length t Hinv). lia.
Qed.

Lemma bucket_keys_ok t b chain :
  table_inv t -> table t !! b = Some chain ->
  Forall (fun e => key_ok (key e) = true) chain.
Proof.
  intros Hinv Hb. apply Forall_forall. intros e He.
  pose proof (inv_placed t Hinv b chain e Hb He) as Hp.
  unfold placed in Hp. apply andb_true_iff in Hp as [Hk _]. exact Hk.
Qed.

(** A key of the table is found in the bucket that it hashes to. *)
Lemma key_in_its_bucket t s :
  table_inv t -> s ∈ keys t ->
  exists chain, 0 <= Z.rem (hash s) (capacity t) /\
    table t !! Z.to_nat (Z.rem (hash s) (capacity t)) = Some chain /\
    s ∈ map (fun e => chars (key e)) chain.
Proof.
  intros Hinv Hin. unfold keys, entries in Hin.
  apply list_elem_of_fmap in Hin as (e & -> & He).
  apply elem_of_entries in He as (b & chain & Hb & He).
  pose proof (inv_placed t Hinv b chain e Hb He) as Hp.
  unfold placed in Hp. apply andb_true_iff in Hp as [_ Hp].
  apply Z.eqb_eq in Hp. exists chain. rewrite Hp, Nat2Z.id.
  split; [lia |]. split; [assumption |].
  apply list_elem_of_fmap. exists e. split; [reflexivity | assumption].
Qed.

(** ** The helper functions on a table that satisfies the invariant *)

Lemma rem_to_int h c : 1 <= c <= INT_MAX -> to_int (Z.rem h c) = Z.rem h c.
Proof.
  intros Hc. apply to_int_small.
  pose proof (Z.rem_bound_abs h c ltac:(lia)). unfold INT_MAX in *. lia.
Qed.

Lemma rem_lt h c : 1 <= c -> Z.rem h c < c.
Proof.
  intros Hc. pose proof (Z.rem_bound_abs h c ltac:(lia)). lia.
Qed.

Lemma string_length_zero s : (Z.of_nat (String.length s) =? 0) = false <-> s <> EmptyString.
Proof.
  destruct s; cbn [String.length]; split; intros H; try congruence.
  - discriminate.
  - apply Z.eqb_neq. lia.
Qed.

Lemma croquette_find_eq t e l s :
  table_inv t -> nul_free s = true -> s <> EmptyString ->
  croquette_find (Some (Cstr s true)) (live t e l)
  = let index := Z.rem (hash s) (capacity t) in
    if index =? D_Error then Ret None (live t D_No_Error l)
    else if index <? 0 then Fault
    else match table t !! Z.to_nat index with
         | Some chain =>
             Ret (option_map (fun p => (Z.to_nat index, p)) (chain_find s chain 0))
                 (live t D_No_Error l)
         | None => Fault
         end.
Proof.
  intros Hinv Hs Hne. pose proof (inv_capacity t Hinv) as Hcap.
  unfold croquette_find. run.
  rewrite (proj2 (string_length_zero s) Hne).
  erewrite bind_Ret by (apply get_index_eq; [assumption | lia]).
  rewrite rem_to_int by assumption. cbv zeta.
  destruct (Z.rem (hash s) (capacity t) =? D_Error) eqn:Herr; [reflexivity |].
  run. unfold bucket_at.
  destruct (Z.rem (hash s) (capacity t) <? 0) eqn:Hneg; [reflexivity |].
  destruct (table t !! Z.to_nat (Z.rem (hash s) (capacity t))) as [chain |] eqn:Hb;
    [| reflexivity].
  run.
  erewrite bind_Ret
    by (apply find_in_chain_eq; [eapply bucket_keys_ok; eassumption | assumption]).
  reflexivity.
Qed.

Lemma carrier_create_eq s v w :
  Z.of_nat (String.length s) < MAX_KEY_SIZE ->
  carrier_create (Cstr s true) v w
  = Ret (mkCarrier (Cstr s true) v) (with_error D_No_Error w).
Proof.
  intros Hlen. unfold carrier_create. rewrite set_error_bind.
  unfold strlen. cbn [terminated chars]. run. unfold ret. do 2 f_equal.
  unfold MAX_KEY_SIZE in *.
  rewrite Z.min_r by lia. rewrite to_int_small by (unfold INT_MAX; lia).
  unfold strncpy. f_equal.
  - replace (Z.to_nat (Z.of_nat (String.length s) + 1)) with (S (String.length s)) by lia.
    clear. induction s as [| c s IH]; [reflexivity |].
    cbn [String.length prefix]. f_equal. exact IH.
  - apply Z.ltb_lt. lia.
Qed.

Lemma carrier_create_long s v w :
  MAX_KEY_SIZE <= Z.of_nat (String.length s) ->
  exists cs, carrier_create (Cstr s true) v w
             = Ret (mkCarrier (Cstr cs false) v) (with_error D_No_Error w).
Proof.
  intros Hlen. unfold carrier_create. rewrite set_error_bind.
  unfold strlen. cbn [terminated chars]. run. unfold ret, strncpy.
  eexists. do 3 f_equal.
  unfold MAX_KEY_SIZE in *. rewrite Z.min_l by lia.
  rewrite to_int_small by (unfold INT_MAX; lia).
  apply Z.ltb_ge. lia.
Qed.

Lemma get_index_unterminated cs t e l :
  get_index (Some (Cstr cs false)) (live t e l) = Fault.
Proof. unfold get_index. run. reflexivity. Qed.

Lemma set_bucket_eq t e l index chain :
  0 <= index < Z.of_nat (length (table t)) ->
  set_bucket index chain (live t e l)
  = Ret tt (live (with_table (<[Z.to_nat index := chain]> (table t)) t) e l).
Proof.
  intros Hi. unfold set_bucket. run.
  assert (H1 : (index <? 0) = false) by (apply Z.ltb_ge; lia).
  assert (H3 : (Z.of_nat (length (table t)) <=? index) = false)
    by (apply Z.leb_gt; lia).
  rewrite H1, H3. reflexivity.
Qed.

Lemma set_size_eq t e l n :
  set_size n (live t e l) = Ret tt (live (with_size n t) e l).
Proof. reflexivity. Qed.

Lemma carrier_at_eq t e l b p chain entry :
  table t !! b = Some chain -> chain !! p = Some entry ->
  carrier_at (b, p) (live t e l) = Ret entry (live t e l).
Proof.
  intros Hb Hp. unfold carrier_at. run. cbn [fst snd].
  rewrite Hb. run. rewrite Hp. reflexivity.
Qed.

Lemma call_value_compare_eq t e l f v1 v2 :
  value_compare t = Some f ->
  call_value_compare v1 v2 (live t e l) = Ret (to_int (f v1 v2)) (live t e l).
Proof. intros Hf. unfold call_value_compare. run. rewrite Hf. reflexivity. Qed.

Lemma call_free_value_eq t e l v :
  call_free_value v (live t e l)
  = if free_value t then Ret tt (live t e (l ++ [v])) else Fault.
Proof. unfold call_free_value. run. destruct (free_value t); reflexivity. Qed.

Lemma insert_at_index_eq t e l index chain entry :
  0 <= index < capacity t ->
  Z.of_nat (length (table t)) = capacity t ->
  table t !! Z.to_nat index = Some chain ->
  size t < INT_MAX -> -2147483648 <= size t ->
  insert_at_index index entry (live t e l)
  = Ret D_Success (live (inserted index chain entry t) D_No_Error l).
Proof.
  intros Hi Hlen Hb Hs Hs'. unfold insert_at_index. run.
  assert (H1 : (index <? 0) = false) by (apply Z.ltb_ge; lia).
  assert (H2 : (index >? capacity t) = false).
  { rewrite Z.gtb_ltb. apply Z.ltb_ge. lia. }
  rewrite H1, H2. cbn [orb].
  unfold bucket_at. rewrite H1, Hb. run.
  erewrite bind_Ret by (apply set_bucket_eq; lia). run.
  cbn [size with_table]. rewrite to_int_small by (unfold INT_MAX in *; lia).
  reflexivity.
Qed.

Lemma free_entry_eq t e l entry :
  (do_free t = D_Do_Free -> free_value t = true) ->
  free_entry entry (live t e l)
  = Ret tt (live t e (l ++ if do_free t =? D_Do_Free then [value entry] else [])).
Proof.
  intros Hfree. unfold free_entry. run.
  destruct (do_free t =? D_Do_Free) eqn:Hd.
  - apply Z.eqb_eq in Hd. unfold call_free_value. run.
    rewrite (Hfree Hd). reflexivity.
  - unfold ret. rewrite app_nil_r. reflexivity.
Qed.

(** ** Tables after a change of one chain *)

Lemma same_config_refl t : same_config t t.
Proof. repeat split. Qed.

Lemma same_config_trans t1 t2 t3 :
  same_config t1 t2 -> same_config t2 t3 -> same_config t1 t3.
Proof.
  unfold same_config. intros (A1 & A2 & A3 & A4) (B1 & B2 & B3 & B4).
  repeat split; congruence.
Qed.

Lemma table_inv_replace t t' b chain chain' :
  table_inv t -> table t !! b = Some chain ->
  capacity t' = capacity t -> same_config t t' ->
  table t' = <[b := chain']> (table t) ->
  (forall e, e ∈ chain' -> placed (capacity t) b e = true) ->
  NoDup (keys t') ->
  size t' = Z.of_nat (length (entries t')) -> size t' <= INT_MAX ->
  table_inv t'.
Proof.
  intros Hinv Hb Hcap (Hc1 & Hc2 & Hc3 & Hc4) Htb Hpl Hnd Hsz Hmax.
  destruct Hinv as [Ic Ib Il Is Im Ip Id If Ifr].
  constructor.
  - rewrite Hcap. exact Ic.
  - rewrite Hc2. exact Ib.
  - rewrite Htb, length_insert, Hcap. exact Il.
  - exact Hsz.
  - exact Hmax.
  - intros b' c' e Hl He. rewrite Hcap. rewrite Htb in Hl.
    apply list_lookup_insert_Some in Hl as [(-> & <- & _) | (Hne & Hl)].
    + apply Hpl. exact He.
    + eapply Ip; eassumption.
  - exact Hnd.
  - rewrite Hc4. exact If.
  - rewrite Hc1, Hc3. exact Ifr.
Qed.

Lemma perm_append {A} (l1 c l2 : list A) e :
  l1 ++ (c ++ [e]) ++ l2 ≡ₚ e :: l1 ++ c ++ l2.
Proof.
  rewrite (Permutation_app_comm c [e]). cbn. symmetry. apply Permutation_middle.
Qed.

Lemma entries_inserted t index chain entry :
  table t !! Z.to_nat index = Some chain ->
  entries (inserted index chain entry t) ≡ₚ entry :: entries t.
Proof.
  intros Hb. unfold entries, inserted. cbn [table with_size with_table].
  rewrite (entries_insert _ _ chain _ Hb).
  rewrite (entries_split (table t) (Z.to_nat index) chain Hb) at 1.
  apply perm_append.
Qed.

Lemma keys_inserted t index chain entry :
  table t !! Z.to_nat index = Some chain ->
  keys (inserted index chain entry t) ≡ₚ chars (key entry) :: keys t.
Proof.
  intros Hb. unfold keys.
  rewrite (entries_inserted t index chain entry Hb). reflexivity.
Qed.

Lemma table_inv_inserted t index chain entry :
  table_inv t -> 0 <= index ->
  table t !! Z.to_nat index = Some chain ->
  placed (capacity t) (Z.to_nat index) entry = true ->
  chars (key entry) ∉ keys t ->
  size t < INT_MAX ->
  table_inv (inserted index chain entry t).
Proof.
  intros Hinv Hi Hb Hpl Hnew Hs.
  apply (table_inv_replace t (inserted index chain entry t) (Z.to_nat index)
           chain (chain ++ [entry]));
    try assumption; try reflexivity.
  - repeat split.
  - intros e He. apply elem_of_app in He as [He | He].
    + eapply (inv_placed t Hinv); eassumption.
    + apply list_elem_of_singleton in He. subst e. exact Hpl.
  - rewrite (keys_inserted t index chain entry Hb).
    apply NoDup_cons. split; [exact Hnew | apply (inv_distinct t Hinv)].
  - cbn [size inserted with_size].
    rewrite (Permutation_length (entries_inserted t index chain entry Hb)).
    cbn [length]. rewrite (inv_size t Hinv). lia.
  - cbn [size inserted with_size]. lia.
Qed.

(** The table after the value of the carrier at position [p] of bucket [b]
    is replaced. *)
Lemma keys_updated (tb : list (list Carrier_s)) b p chain e v :
  tb !! b = Some chain -> chain !! p = Some e ->
  map (fun e => chars (key e))
      (concat (<[b := <[p := mkCarrier (key e) v]> chain]> tb))
  = map (fun e => chars (key e)) (concat tb).
Proof.
  intros Hb Hp.
  rewrite (entries_insert tb b chain) by assumption.
  rewrite (entries_split tb b chain Hb) at 1.
  rewrite !map_app. f_equal. f_equal.
  change (map (fun e0 => chars (key e0))) with (fmap (M:=list) (fun e0 : Carrier_s => chars (key e0))).
  rewrite list_fmap_insert. cbn [key]. apply list_insert_id.
  rewrite list_lookup_fmap, Hp. reflexivity.
Qed.

Lemma table_inv_updated t b p chain e v :
  table_inv t -> table t !! b = Some chain -> chain !! p = Some e ->
  table_inv (with_table (<[b := <[p := mkCarrier (key e) v]> chain]> (table t)) t).
Proof.
  intros Hinv Hb Hp.
  assert (Hkeys : keys (with_table (<[b := <[p := mkCarrier (key e) v]> chain]> (table t)) t)
                  = keys t).
  { unfold keys, entries. cbn [table with_table]. eapply keys_updated; eassumption. }
  apply (table_inv_replace t
           (with_table (<[b := <[p := mkCarrier (key e) v]> chain]> (table t)) t)
           b chain (<[p := mkCarrier (key e) v]> chain));
    try assumption; try reflexivity.
  - repeat split.
  - intros e' He'. apply list_elem_of_lookup in He' as [i Hi].
    apply list_lookup_insert_Some in Hi as [(-> & <- & _) | (Hne & Hi)].
    + pose proof (inv_placed t Hinv b chain e Hb
                    (list_elem_of_lookup_2 _ _ _ Hp)) as Hpl.
      exact Hpl.
    + eapply (inv_placed t Hinv); [eassumption |].
      eapply list_elem_of_lookup_2. eassumption.
  - rewrite Hkeys. apply (inv_distinct t Hinv).
  - cbn [size with_table].
    assert (Hlen : length (keys (with_table (<[b := <[p := mkCarrier (key e) v]> chain]> (table t)) t))
                   = length (keys t)) by (rewrite Hkeys; reflexivity).
    unfold keys in Hlen. rewrite !length_map in Hlen. rewrite Hlen.
    apply (inv_size t Hinv).
  - cbn [size with_table]. apply (inv_size_max t Hinv).
Qed.

(** The table after the carrier at position [p] of bucket [b] is unlinked. *)
Lemma entries_removed (tb : list (list Carrier_s)) b p chain e :
  tb !! b = Some chain -> chain !! p = Some e ->
  concat tb ≡ₚ e :: concat (<[b := take p chain ++ drop (S p) chain]> tb).
Proof.
  intros Hb Hp.
  rewrite (entries_insert tb b chain) by assumption.
  rewrite (entries_split tb b chain) at 1 by assumption.
  rewrite <- (take_drop_middle chain p e Hp) at 1.
  rewrite <- !app_assoc. cbn.
  rewrite <- Permutation_middle.
  rewrite (app_assoc (concat (take b tb))).
  rewrite <- Permutation_middle.
  rewrite <- app_assoc. reflexivity.
Qed.

Lemma table_inv_removed t b p chain e :
  table_inv t -> table t !! b = Some chain -> chain !! p = Some e ->
  table_inv (with_size (size t - 1)
               (with_table (<[b := take p chain ++ drop (S p) chain]> (table t)) t)).
Proof.
  intros Hinv Hb Hp.
  pose proof (entries_removed (table t) b p chain e Hb Hp) as Hperm.
  apply (table_inv_replace t
           (with_size (size t - 1)
              (with_table (<[b := take p chain ++ drop (S p) chain]> (table t)) t))
           b chain (take p chain ++ drop (S p) chain));
    try assumption; try reflexivity.
  - repeat split.
  - intros e' He'. eapply (inv_placed t Hinv); [eassumption |].
    apply elem_of_app in He' as [He' | He'].
    + apply elem_of_take in He' as (i & Hi & _).
      eapply list_elem_of_lookup_2. eassumption.
    + apply list_elem_of_lookup in He' as [i Hi]. rewrite lookup_drop in Hi.
      eapply list_elem_of_lookup_2. eassumption.
  - pose proof (inv_distinct t Hinv) as Hnd. unfold keys, entries in *.
    cbn [table with_size with_table].
    rewrite Hperm in Hnd. cbn [map] in Hnd.
    apply NoDup_cons in Hnd as [_ Hnd]. exact Hnd.
  - cbn [size with_size]. unfold entries. cbn [table with_size with_table].
    pose proof (Permutation_length Hperm) as Hlen. cbn [length] in Hlen.
    rewrite (inv_size t Hinv). unfold entries. lia.
  - cbn [size with_size]. pose proof (inv_size_max t Hinv). lia.
Qed.

Lemma keys_removed_subset t b p chain e x :
  table t !! b = Some chain -> chain !! p = Some e ->
  x ∈ keys (with_size (size t - 1)
              (with_table (<[b := take p chain ++ drop (S p) chain]> (table t)) t)) ->
  x ∈ keys t.
Proof.
  intros Hb Hp Hx. unfold keys, entries in *. cbn [table with_size with_table] in Hx.
  rewrite (entries_removed (table t) b p chain e Hb Hp). cbn [map].
  apply list_elem_of_further. exact Hx.
Qed.

(** The empty table of [perform_rehash]. *)
Lemma table_inv_rehashed t nc :
  table_inv t -> 1 <= nc <= INT_MAX -> table_inv (rehashed nc t).
Proof.
  intros Hinv Hnc. destruct Hinv as [Ic Ib Il Is Im Ip Id If Ifr].
  assert (Hempty : entries (rehashed nc t) = []).
  { unfold entries, rehashed. cbn [table with_size with_capacity with_table].
    generalize (Z.to_nat nc). intros n. induction n as [| n IH]; [reflexivity |].
    cbn. exact IH. }
  constructor; cbn [capacity base_capacity size table value_compare do_free free_value
                      rehashed with_size with_capacity with_table]; try assumption.
  - rewrite length_replicate. lia.
  - fold (rehashed nc t). rewrite Hempty. reflexivity.
  - unfold INT_MAX. lia.
  - intros b chain e Hl He. apply lookup_replicate in Hl as [-> _].
    apply elem_of_nil in He. contradiction.
  - unfold keys. rewrite Hempty. constructor.
Qed.

Lemma keys_rehashed t nc : keys (rehashed nc t) = [].
Proof.
  unfold keys, entries, rehashed. cbn [table with_size with_capacity with_table].
  generalize (Z.to_nat nc). intros n. induction n as [| n IH]; [reflexivity |].
  cbn. exact IH.
Qed.

(** ** Equations of the recursive functions *)

Section Equations.

Variable put : option cstring -> Z -> M Z.

Lemma rehash_chain_app (a b : list Carrier_s) w :
  rehash_chain put (a ++ b) w
  = bind (rehash_chain put a) (fun _ => rehash_chain put b) w.
Proof.
  revert w. induction a as [| x a IH]; intros w; [reflexivity |].
  cbn [app rehash_chain]. rewrite bind_assoc.
  apply bind_ext. intros r w1. rewrite bind_assoc.
  apply bind_ext. intros u w2. apply IH.
Qed.

Lemma rehash_chains_concat (chains : list (list Carrier_s)) w :
  rehash_chains put chains w = rehash_chain put (concat chains) w.
Proof.
  revert w. induction chains as [| c rest IH]; intros w; [reflexivity |].
  cbn [rehash_chains concat]. rewrite rehash_chain_app.
  unfold bind. destruct (rehash_chain put c w); [apply IH | reflexivity | reflexivity].
Qed.

Lemma perform_rehash_invalid t e l nc :
  nc <= 0 ->
  perform_rehash put nc (live t e l) = Ret D_Error (live t D_Invalid_Capacity l).
Proof.
  intros Hnc. unfold perform_rehash. run.
  assert (H : (nc <=? 0) = true) by (apply Z.leb_le; lia).
  rewrite H. run. reflexivity.
Qed.

Lemma perform_rehash_eq t e l nc :
  0 < nc -> Z.of_nat (length (table t)) = capacity t ->
  perform_rehash put nc (live t e l)
  = bind (rehash_chain put (entries t)) (fun _ => ret D_Success)
      (live (rehashed nc t) D_No_Error l).
Proof.
  intros Hnc Hlen. unfold perform_rehash. run.
  assert (H : (nc <=? 0) = false) by (apply Z.leb_gt; lia).
  rewrite H. unfold set_croquette. run.
  rewrite take_ge by lia.
  assert (H2 : (Z.of_nat (length (table t)) <? capacity t) = false)
    by (apply Z.ltb_ge; lia).
  rewrite H2. fold (rehashed nc t).
  unfold bind. rewrite rehash_chains_concat. fold (entries t).
  destruct (rehash_chain put (entries t) _); reflexivity.
Qed.

Lemma rehash_insert_eq t e l :
  rehash put D_Insert (live t e l)
  = if grows (size t) (capacity t)
    then bind (perform_rehash put (to_int (Z.shiftl (capacity t) 1))) propagate
           (live t D_No_Error l)
    else Ret D_Success (live t D_No_Error l).
Proof.
  unfold rehash. run. unfold grows.
  destruct ((size t >? _) || (size t >=? capacity t)); reflexivity.
Qed.

Lemma rehash_remove_eq t e l :
  rehash put D_Remove (live t e l)
  = if size t <? Z.shiftr (capacity t) 1
    then bind (perform_rehash put (Z.shiftr (capacity t) 1)) propagate
           (live t D_No_Error l)
    else Ret D_Success (live t D_No_Error l).
Proof.
  unfold rehash. run.
  destruct (size t <? Z.shiftr (capacity t) 1); reflexivity.
Qed.

Lemma put_body_null v t e l :
  put_body put None v (live t e l) = Ret D_Error (live t D_Invalid_Key l).
Proof. unfold put_body. run. reflexivity. Qed.

Lemma put_body_empty v t e l :
  put_body put (Some (Cstr EmptyString true)) v (live t e l)
  = Ret D_Error (live t D_Invalid_Key l).
Proof. unfold put_body. run. reflexivity. Qed.

Lemma put_body_unterminated cs v t e l :
  put_body put (Some (Cstr cs false)) v (live t e l) = Fault.
Proof. unfold put_body. run. reflexivity. Qed.

(** The key is looked up first. *)
Lemma put_body_find s v t e l :
  s <> EmptyString ->
  put_body put (Some (Cstr s true)) v (live t e l)
  = bind (croquette_find (Some (Cstr s true)))
      (fun found =>
         match found with
         | Some entry =>
             let* e := carrier_at entry in
             let* differ := call_value_compare (value e) v in
             (if differ =? 0 then ret tt
              else
                call_free_value (value e);;
                let* t := deref_croquette in
                let* chain := valid (table t !! fst entry) in
                set_bucket (Z.of_nat (fst entry))
                  (<[snd entry := {| key := key e; value := v |}]> chain));;
             ret D_Success
         | None =>
             let* ks := valid (Some (Cstr s true)) in
             let* entry := carrier_create ks v in
             let* i := get_index (Some (key entry)) in
             let index := to_int i in
             if index =? D_Error then ret D_Error
             else
               insert_at_index index entry;;
               let* rehash_success := rehash put D_Insert in
               if rehash_success =? D_Error then ret D_Error
               else ret D_Success
         end)
      (live t D_No_Error l).
Proof.
  intros Hne. unfold put_body. run.
  rewrite (proj2 (string_length_zero s) Hne). reflexivity.
Qed.

(** The key is in the table: its value is compared and replaced. *)
Lemma put_body_update s v t e l b p chain entry f :
  table_inv t -> nul_free s = true -> s <> EmptyString ->
  croquette_find (Some (Cstr s true)) (live t D_No_Error l)
  = Ret (Some (b, p)) (live t D_No_Error l) ->
  table t !! b = Some chain -> chain !! p = Some entry ->
  value_compare t = Some f ->
  put_body put (Some (Cstr s true)) v (live t e l)
  = if to_int (f (value entry) v) =? 0 then Ret D_Success (live t D_No_Error l)
    else if free_value t then
      Ret D_Success
        (live (with_table (<[b := <[p := mkCarrier (key entry) v]> chain]> (table t)) t)
           D_No_Error (l ++ [value entry]))
    else Fault.
Proof.
  intros Hinv Hs Hne Hfind Hb Hp Hf.
  rewrite put_body_find by assumption.
  erewrite bind_Ret by eassumption. cbv beta iota.
  erewrite bind_Ret by (eapply carrier_at_eq; eassumption).
  erewrite bind_Ret by (apply call_value_compare_eq; eassumption).
  destruct (to_int (f (value entry) v) =? 0); [reflexivity |].
  rewrite bind_assoc. unfold bind at 1. rewrite call_free_value_eq.
  destruct (free_value t); [| reflexivity].
  run. cbn [fst snd]. rewrite Hb. run.
  erewrite bind_Ret.
  2:{ apply set_bucket_eq. pose proof (lookup_lt_Some _ _ _ Hb). lia. }
  rewrite Nat2Z.id. reflexivity.
Qed.

(** The key is not in the table and can be stored: the carrier is
    appended to its chain and the growth rule is applied. *)
Lemma put_body_insert s v t e l chain :
  table_inv t -> nul_free s = true -> s <> EmptyString ->
  Z.of_nat (String.length s) < MAX_KEY_SIZE ->
  0 <= Z.rem (hash s) (capacity t) ->
  table t !! Z.to_nat (Z.rem (hash s) (capacity t)) = Some chain ->
  chain_find s chain 0 = None ->
  size t < INT_MAX ->
  put_body put (Some (Cstr s true)) v (live t e l)
  = bind (rehash put D_Insert) propagate
      (live (inserted (Z.rem (hash s) (capacity t)) chain
               (mkCarrier (Cstr s true) v) t) D_No_Error l).
Proof.
  intros Hinv Hs Hne Hlen Hidx Hb Hfind Hsize.
  pose proof (inv_capacity t Hinv) as Hcap.
  rewrite put_body_find by assumption.
  assert (H1 : (Z.rem (hash s) (capacity t) =? D_Error) = false)
    by (apply Z.eqb_neq; unfold D_Error; lia).
  assert (H2 : (Z.rem (hash s) (capacity t) <? 0) = false)
    by (apply Z.ltb_ge; lia).
  erewrite bind_Ret.
  2:{ rewrite croquette_find_eq by assumption. cbv zeta.
      rewrite H1, H2, Hb, Hfind. reflexivity. }
  cbn [option_map]. run.
  erewrite bind_Ret by (apply carrier_create_eq; assumption). norm_world.
  cbn [key].
  erewrite bind_Ret by (apply get_index_eq; [assumption | lia]).
  rewrite rem_to_int by assumption. cbv zeta. rewrite H1.
  erewrite bind_Ret.
  2:{ apply insert_at_index_eq.
      - split; [assumption | apply rem_lt; lia].
      - apply (inv_length t Hinv).
      - eassumption.
      - assumption.
      - rewrite (inv_size t Hinv). lia. }
  reflexivity.
Qed.

End Equations.

(** ** The contract of the recursion *)

Lemma bind_OutOfFuel {A B} (m : M A) (f : A -> M B) w :
  m w = OutOfFuel -> bind m f w = OutOfFuel.
Proof. intros H. unfold bind. rewrite H. reflexivity. Qed.

Lemma nonneg_keys_spec t :
  nonneg_keys t = true <-> forall x, x ∈ keys t -> 0 <= hash x.
Proof.
  unfold nonneg_keys. rewrite forallb_forall. split.
  - intros H x Hx. apply Z.leb_le, H, list_elem_of_In. exact Hx.
  - intros H x Hx. apply Z.leb_le, H, list_elem_of_In. exact Hx.
Qed.

Lemma rem_neg_hash h c : 1 <= c -> Z.rem h c < 0 -> h < 0.
Proof.
  intros Hc Hr. destruct (Z.lt_ge_cases h 0) as [| Hh]; [assumption |].
  pose proof (Z.rem_nonneg h c ltac:(lia) Hh). lia.
Qed.

Lemma entries_keys_ok t :
  table_inv t -> Forall (fun e => key_ok (key e) = true) (entries t).
Proof.
  intros Hinv. apply Forall_forall. intros e He.
  apply elem_of_entries in He as (b & chain & Hb & He).
  pose proof (inv_placed t Hinv b chain e Hb He) as Hp.
  unfold placed in Hp. apply andb_true_iff in Hp as [Hk _]. exact Hk.
Qed.

Lemma propagate_Ret r w : exists r', propagate r w = Ret r' w.
Proof.
  unfold propagate. destruct (r =? D_Error); eexists; reflexivity.
Qed.

Lemma to_int_double c :
  1 <= c <= INT_MAX ->
  to_int (Z.shiftl c 1) <= INT_MAX /\
  (0 < to_int (Z.shiftl c 1) -> to_int (Z.shiftl c 1) = 2 * c).
Proof.
  intros Hc. split; [apply to_int_range |].
  rewrite Z.shiftl_mul_pow2 by lia. change (2 ^ 1) with 2.
  destruct (Z.le_gt_cases (c * 2) INT_MAX) as [Hle | Hgt].
  - rewrite to_int_small by (unfold INT_MAX in *; lia). lia.
  - unfold to_int, wrap, INT_MAX in *.
    change (2 ^ (32 - 1)) with 2147483648. change (2 ^ 32) with 4294967296.
    replace (c * 2 + 2147483648) with (c * 2 - 2147483648 + 1 * 4294967296) by lia.
    rewrite Z.mod_add by lia. rewrite Z.mod_small by lia. lia.
Qed.

Lemma put_step_refl t k : table_inv t -> put_step t k t.
Proof.
  intros Hinv. split; [assumption |]. split; [apply same_config_refl |].
  split; [lia |]. split; [lia | auto].
Qed.

Lemma absent_from_bucket t s chain :
  table_inv t -> 0 <= Z.rem (hash s) (capacity t) ->
  table t !! Z.to_nat (Z.rem (hash s) (capacity t)) = Some chain ->
  chain_find s chain 0 = None ->
  s ∉ keys t.
Proof.
  intros Hinv Hidx Hb Hfind Hin.
  destruct (key_in_its_bucket t s Hinv Hin) as (chain' & _ & Hb' & Hin').
  rewrite Hb in Hb'. injection Hb' as <-.
  apply chain_find_None in Hfind. contradiction.
Qed.

Lemma present_in_bucket t s chain p :
  table t !! Z.to_nat (Z.rem (hash s) (capacity t)) = Some chain ->
  chain_find s chain 0 = Some p ->
  exists entry, chain !! p = Some entry /\ chars (key entry) = s /\ s ∈ keys t.
Proof.
  intros Hb Hfind. apply chain_find_Some in Hfind as (entry & Hp & Hk & _).
  rewrite Nat.sub_0_r in Hp. exists entry. split; [assumption |].
  split; [assumption |]. unfold keys. apply list_elem_of_fmap.
  exists entry. split; [symmetry; assumption |].
  apply elem_of_entries. eexists _, chain. split; [eassumption |].
  eapply list_elem_of_lookup_2. eassumption.
Qed.

Section Contract.

Variable put : option cstring -> Z -> M Z.
Variable deep : Z -> Prop.
Hypothesis deep_mono : forall c c', c <= c' -> deep c -> deep c'.
Hypothesis put_ok : put_contract deep put.

Lemma rehash_chain_post es : forall tn e l,
  table_inv tn ->
  size tn + Z.of_nat (length es) <= INT_MAX ->
  Forall (fun x => key_ok (key x) = true) es ->
  NoDup (map (fun x => chars (key x)) es) ->
  (forall x, x ∈ keys tn -> x ∉ map (fun x => chars (key x)) es) ->
  match rehash_chain put es (live tn e l) with
  | Ret _ w' =>
      exists t' e' l', w' = live t' e' l' /\
        table_inv t' /\ same_config tn t' /\ capacity tn <= capacity t' /\
        size t' <= size tn + Z.of_nat (length es) /\
        (forall x, x ∈ keys t' ->
                   x ∈ keys tn \/ x ∈ map (fun x => chars (key x)) es)
  | Fault =>
      ~ (nonneg_keys tn = true /\
         Forall (fun x => 0 <= hash (chars (key x))) es)
  | OutOfFuel => ~ deep (capacity tn)
  end.
Proof.
  induction es as [| x es IH]; intros tn e l Hinv Hsize Hkeys Hnd Hfresh.
  - cbn [rehash_chain]. unfold ret. exists tn, e, l.
    split; [reflexivity |]. split; [assumption |].
    split; [apply same_config_refl |]. split; [lia |]. split; [lia | auto].
  - cbn [rehash_chain].
    inversion Hkeys as [| ? ? Hkx Hkes]; subst.
    cbn [map] in Hnd. apply NoDup_cons in Hnd as [Hx Hnd].
    cbn [length] in Hsize.
    pose proof (key_ok_inv _ Hkx) as (Hterm & Hnul & Hlen).
    assert (Hnotin : chars (key x) ∉ keys tn).
    { intros Hin. apply (Hfresh _ Hin). cbn [map]. apply list_elem_of_here. }
    pose proof (put_ok (Some (key x)) (value x) tn e l Hinv ltac:(lia) Hnul) as Hput.
    destruct (put (Some (key x)) (value x) (live tn e l)) as [r w1 | |] eqn:Hrun.
    + destruct Hput as (t1 & e1 & l1 & -> & Hinv1 & Hcfg1 & Hcap1 & Hsize1 & Hkeys1).
      erewrite bind_Ret by exact Hrun.
      erewrite bind_Ret by (apply free_entry_eq; apply (inv_free t1 Hinv1)).
      specialize (IH t1 e1
                    (l1 ++ (if do_free t1 =? D_Do_Free
                            then [value {| key := key x; value := NULL |}]
                            else []))
                    Hinv1 ltac:(lia) Hkes Hnd).
      assert (Hfresh1 : forall y, y ∈ keys t1 ->
                                  y ∉ map (fun x => chars (key x)) es).
      { intros y Hy. destruct (Hkeys1 y Hy) as [Hy' | Hy'].
        - intros Hin. apply (Hfresh y Hy'). cbn [map].
          apply list_elem_of_further. exact Hin.
        - cbn in Hy'. injection Hy' as <-. exact Hx. }
      specialize (IH Hfresh1).
      destruct (rehash_chain put es _) as [u w2 | |].
      * destruct IH as (t2 & e2 & l2 & -> & Hinv2 & Hcfg2 & Hcap2 & Hsize2 & Hkeys2).
        exists t2, e2, l2. split; [reflexivity |].
        split; [assumption |].
        split; [eapply same_config_trans; eassumption |].
        split; [lia |]. split; [cbn [length]; lia |].
        intros y Hy. destruct (Hkeys2 y Hy) as [Hy' | Hy'].
        -- destruct (Hkeys1 y Hy') as [Hy'' | Hy'']; [left; assumption |].
           right. cbn in Hy''. injection Hy'' as <-. cbn [map].
           apply list_elem_of_here.
        -- right. cbn [map]. apply list_elem_of_further. exact Hy'.
      * intros [Hnn Hall]. apply IH.
        inversion Hall as [| ? ? Hhx Hhes]; subst. split; [| assumption].
        apply nonneg_keys_spec. intros y Hy.
        destruct (Hkeys1 y Hy) as [Hy' | Hy'].
        -- apply (proj1 (nonneg_keys_spec tn) Hnn). exact Hy'.
        -- cbn in Hy'. injection Hy' as <-. exact Hhx.
      * intros Hdeep. apply IH. eapply deep_mono; eassumption.
    + rewrite (bind_Fault _ _ _ Hrun).
      intros [Hnn Hall]. inversion Hall as [| ? ? Hhx Hhes]; subst.
      unfold put_post, safe_put, safe_find in Hput.
      rewrite Hterm, Hnn in Hput.
      assert (H1 : (0 <=? hash (chars (key x))) = true) by (apply Z.leb_le; lia).
      assert (H2 : (Z.of_nat (String.length (chars (key x))) <? MAX_KEY_SIZE) = true)
        by (apply Z.ltb_lt; lia).
      assert (H3 : existsb (String.eqb (chars (key x))) (keys tn) = false).
      { apply not_true_iff_false. rewrite existsb_eqb_elem_of. exact Hnotin. }
      rewrite H1, H2, H3 in Hput. discriminate.
    + rewrite (bind_OutOfFuel _ _ _ Hrun). exact Hput.
Qed.

Lemma perform_rehash_post t e l nc :
  table_inv t -> nc <= INT_MAX ->
  match perform_rehash put nc (live t e l) with
  | Ret _ w' =>
      exists t' e' l', w' = live t' e' l' /\ rehash_step t t' /\
        (0 < nc -> nc <= capacity t') /\ (nc <= 0 -> t' = t)
  | Fault => nonneg_keys t = false
  | OutOfFuel => 0 < nc /\ ~ deep nc
  end.
Proof.
  intros Hinv Hnc. destruct (Z.le_gt_cases nc 0) as [Hle | Hgt].
  - rewrite perform_rehash_invalid by assumption.
    exists t, D_Invalid_Capacity, l. split; [reflexivity |].
    split; [| split; [lia | reflexivity]].
    split; [assumption |]. split; [apply same_config_refl |].
    split; [lia | auto].
  - rewrite perform_rehash_eq by (try lia; apply (inv_length t Hinv)).
    pose proof (table_inv_rehashed t nc Hinv ltac:(lia)) as Hnew.
    pose proof (rehash_chain_post (entries t) (rehashed nc t) D_No_Error l Hnew) as Hloop.
    assert (Hs0 : size (rehashed nc t) = 0) by reflexivity.
    rewrite Hs0 in Hloop. rewrite <- (inv_size t Hinv) in Hloop.
    specialize (Hloop ltac:(pose proof (inv_size_max t Hinv); lia)
                      (entries_keys_ok t Hinv) (inv_distinct t Hinv)).
    rewrite keys_rehashed in Hloop.
    specialize (Hloop ltac:(intros x Hx; apply elem_of_nil in Hx; contradiction)).
    destruct (rehash_chain put (entries t) _) as [u w1 | |] eqn:Hrun.
    + destruct Hloop as (t1 & e1 & l1 & -> & Hinv1 & Hcfg1 & Hcap1 & Hsize1 & Hkeys1).
      erewrite bind_Ret by exact Hrun. unfold ret.
      exists t1, e1, l1. split; [reflexivity |].
      split; [| split; [intros _; exact Hcap1 | lia]].
      split; [assumption |]. split; [exact Hcfg1 |]. split; [lia |].
      intros x Hx. destruct (Hkeys1 x Hx) as [Hx' | Hx']; [| exact Hx'].
      apply elem_of_nil in Hx'. contradiction.
    + rewrite (bind_Fault _ _ _ Hrun).
      apply not_true_iff_false. intros Hnn. apply Hloop.
      split; [unfold nonneg_keys; rewrite keys_rehashed; reflexivity |].
      apply Forall_forall. intros x Hx.
      apply (proj1 (nonneg_keys_spec t) Hnn). unfold keys.
      apply list_elem_of_fmap. exists x. split; [reflexivity | exact Hx].
    + rewrite (bind_OutOfFuel _ _ _ Hrun). split; [lia | exact Hloop].
Qed.

Lemma rehash_insert_post t e l :
  table_inv t ->
  match bind (rehash put D_Insert) propagate (live t e l) with
  | Ret _ w' =>
      exists t' e' l', w' = live t' e' l' /\ rehash_step t t' /\
                       capacity t <= capacity t'
  | Fault => nonneg_keys t = false
  | OutOfFuel => ~ deep (2 * capacity t)
  end.
Proof.
  intros Hinv. pose proof (inv_capacity t Hinv) as Hcap.
  unfold bind at 1. rewrite rehash_insert_eq.
  destruct (grows (size t) (capacity t)).
  - destruct (to_int_double (capacity t) Hcap) as [Hmax Hdouble].
    pose proof (perform_rehash_post t D_No_Error l _ Hinv Hmax) as Hre.
    unfold bind at 1.
    destruct (perform_rehash put _ _) as [r w1 | |].
    + destruct Hre as (t1 & e1 & l1 & -> & Hstep & Hpos & Hneg).
      destruct (propagate_Ret r (live t1 e1 l1)) as [r1 Hr1]. rewrite Hr1.
      destruct (propagate_Ret r1 (live t1 e1 l1)) as [r2 Hr2]. rewrite Hr2.
      exists t1, e1, l1. split; [reflexivity |]. split; [assumption |].
      destruct (Z.le_gt_cases (to_int (Z.shiftl (capacity t) 1)) 0) as [Hle | Hgt].
      * rewrite (Hneg Hle). lia.
      * specialize (Hpos Hgt). specialize (Hdouble Hgt). lia.
    + exact Hre.
    + destruct Hre as [Hgt Hdeep]. rewrite <- (Hdouble Hgt). exact Hdeep.
  - cbn. exists t, D_No_Error, l. split; [reflexivity |].
    split; [| lia]. split; [assumption |]. split; [apply same_config_refl |].
    split; [lia | auto].
Qed.

(** [put_body] over a [put] that keeps the contract keeps it, one level
    of nesting further down. *)
Lemma put_body_post : put_contract (fun c => deep (2 * c)) (put_body put).
Proof.
  intros k v t e l Hinv Hsize Hk. pose proof (inv_capacity t Hinv) as Hcap.
  destruct k as [[s tm] |]; [| rewrite put_body_null; cbn;
                               exists t, D_Invalid_Key, l;
                               split; [reflexivity | apply put_step_refl; assumption]].
  cbn [c_string chars] in Hk.
  destruct tm; [| rewrite put_body_unterminated; reflexivity].
  destruct (string_dec s EmptyString) as [-> | Hne].
  { rewrite put_body_empty. cbn. exists t, D_Invalid_Key, l.
    split; [reflexivity | apply put_step_refl; assumption]. }
  pose proof (croquette_find_eq t D_No_Error l s Hinv Hk Hne) as Hfind.
  cbv zeta in Hfind.
  destruct (Z.rem (hash s) (capacity t) =? D_Error) eqn:Herr.
  { (* the index is taken for the error result *)
    apply Z.eqb_eq in Herr. rewrite put_body_find by assumption.
    erewrite bind_Ret by exact Hfind. cbv beta iota. run.
    destruct (Z.lt_ge_cases (Z.of_nat (String.length s)) MAX_KEY_SIZE) as [Hlen | Hlen].
    - erewrite bind_Ret by (apply carrier_create_eq; assumption).
      norm_world. cbn [key].
      erewrite bind_Ret by (apply get_index_eq; [assumption | lia]).
      rewrite rem_to_int by assumption. cbv zeta.
      rewrite (proj2 (Z.eqb_eq _ _) Herr). cbn.
      exists t, D_No_Error, l. split; [reflexivity | apply put_step_refl; assumption].
    - destruct (carrier_create_long s v (live t D_No_Error l) Hlen) as [cs Hcs].
      erewrite bind_Ret by exact Hcs. norm_world. cbn [key].
      rewrite (bind_Fault _ _ _ (get_index_unterminated cs t D_No_Error l)).
      cbn. unfold safe_put. cbn [chars].
      assert (H : (Z.of_nat (String.length s) <? MAX_KEY_SIZE) = false)
        by (apply Z.ltb_ge; lia).
      rewrite H. rewrite andb_false_l, andb_false_r. reflexivity. }
  destruct (Z.rem (hash s) (capacity t) <? 0) eqn:Hneg.
  { (* the lookup reads in front of the bucket array *)
    rewrite put_body_find by assumption.
    rewrite (bind_Fault _ _ _ Hfind). cbn.
    apply Z.ltb_lt in Hneg. apply rem_neg_hash in Hneg; [| lia].
    unfold safe_put, safe_find. cbn [terminated chars].
    assert (H : (0 <=? hash s) = false) by (apply Z.leb_gt; lia).
    rewrite H. reflexivity. }
  apply Z.ltb_ge in Hneg.
  destruct (bucket_lookup t (Z.rem (hash s) (capacity t)) Hinv) as [chain Hb];
    [split; [assumption | apply rem_lt; lia] |].
  rewrite Hb in Hfind.
  destruct (chain_find s chain 0) as [p |] eqn:Hpos; cbn [option_map] in Hfind.
  - (* update *)
    destruct (present_in_bucket t s chain p Hb Hpos) as (entry & Hp & Hkey & Hin).
    destruct (inv_compare t Hinv) as [f Hf].
    rewrite (put_body_update put s v t e l
               (Z.to_nat (Z.rem (hash s) (capacity t))) p chain entry f)
      by assumption.
    destruct (to_int (f (value entry) v) =? 0).
    + cbn. exists t, D_No_Error, l.
      split; [reflexivity | apply put_step_refl; assumption].
    + destruct (free_value t) eqn:Hfv.
      * cbn. eexists _, D_No_Error, _. split; [reflexivity |].
        split; [eapply table_inv_updated; eassumption |].
        split; [repeat split |]. split; [cbn; lia |]. split; [cbn; lia |].
        intros x Hx. left. unfold keys, entries in Hx. cbn [table with_table] in Hx.
        rewrite (keys_updated (table t) _ p chain entry v Hb Hp) in Hx. exact Hx.
      * cbn. unfold safe_put. cbn [chars]. rewrite Hfv.
        rewrite (proj2 (existsb_eqb_elem_of s (keys t)) Hin). cbn [implb].
        rewrite !andb_false_r. reflexivity.
  - (* insertion *)
    destruct (Z.lt_ge_cases (Z.of_nat (String.length s)) MAX_KEY_SIZE) as [Hlen | Hlen].
    2:{ rewrite put_body_find by assumption.
        erewrite bind_Ret by exact Hfind. cbv beta iota. run.
        destruct (carrier_create_long s v (live t D_No_Error l) Hlen) as [cs Hcs].
        erewrite bind_Ret by exact Hcs. norm_world. cbn [key].
        rewrite (bind_Fault _ _ _ (get_index_unterminated cs t D_No_Error l)).
        cbn. unfold safe_put. cbn [chars].
        assert (H : (Z.of_nat (String.length s) <? MAX_KEY_SIZE) = false)
          by (apply Z.ltb_ge; lia).
        rewrite H. rewrite andb_false_l, andb_false_r. reflexivity. }
    pose proof (absent_from_bucket t s chain Hinv Hneg Hb Hpos) as Habsent.
    rewrite (put_body_insert put s v t e l chain) by assumption.
    set (t1 := inserted (Z.rem (hash s) (capacity t)) chain
                 (mkCarrier (Cstr s true) v) t).
    assert (Hinv1 : table_inv t1).
    { apply table_inv_inserted; try assumption.
      unfold placed, key_ok. cbn [key chars terminated].
      rewrite Hk. cbn [andb].
      apply andb_true_iff. split.
      - apply andb_true_iff. split; [| apply Z.ltb_lt; assumption].
        apply Z.ltb_lt. destruct s; [congruence | cbn [String.length]; lia].
      - apply Z.eqb_eq. rewrite Z2Nat.id by assumption. reflexivity. }
    pose proof (keys_inserted t (Z.rem (hash s) (capacity t)) chain
                  (mkCarrier (Cstr s true) v) Hb) as Hkeys1.
    fold t1 in Hkeys1. cbn [key chars] in Hkeys1.
    pose proof (rehash_insert_post t1 D_No_Error l Hinv1) as Hre.
    destruct (bind (rehash put D_Insert) propagate _) as [r w1 | |].
    + destruct Hre as (t2 & e2 & l2 & -> & (Hinv2 & Hcfg2 & Hsize2 & Hkeys2) & Hcap2).
      exists t2, e2, l2. split; [reflexivity |].
      split; [assumption |]. split; [exact Hcfg2 |].
      split; [exact Hcap2 |]. split; [exact Hsize2 |].
      intros x Hx. apply Hkeys2 in Hx. rewrite Hkeys1 in Hx.
      apply elem_of_cons in Hx as [-> | Hx]; [right; reflexivity | left; assumption].
    + cbn. apply not_true_iff_false. intros Hsafe.
      unfold safe_put, safe_find in Hsafe. cbn [terminated chars] in Hsafe.
      repeat (apply andb_true_iff in Hsafe as [Hsafe ?]).
      apply not_true_iff_false in Hre. apply Hre.
      apply nonneg_keys_spec. intros x Hx. rewrite Hkeys1 in Hx.
      apply elem_of_cons in Hx as [-> | Hx]; [apply Z.leb_le; assumption |].
      match goal with Hn : nonneg_keys t = true |- _ =>
        apply (proj1 (nonneg_keys_spec t) Hn); assumption end.
    + exact Hre.
Qed.

End Contract.

(** ** The bound on the nesting *)

Lemma put_contract_weaken (deep1 deep2 : Z -> Prop) put :
  (forall c, deep2 c -> deep1 c) ->
  put_contract deep1 put -> put_contract deep2 put.
Proof.
  intros Himp H k v t e l Hinv Hsize Hk.
  specialize (H k v t e l Hinv Hsize Hk).
  destruct (put k v _); cbn in *; auto.
Qed.

Lemma croquette_put_fuel_contract fuel :
  put_contract (fun c => 2 ^ 31 <= c * 2 ^ Z.of_nat fuel) (croquette_put_fuel fuel).
Proof.
  induction fuel as [| fuel IH].
  - intros k v t e l Hinv _ _. cbn.
    pose proof (inv_capacity t Hinv). unfold INT_MAX in *. lia.
  - cbn [croquette_put_fuel].
    eapply put_contract_weaken; [| apply put_body_post; [| exact IH]].
    + intros c Hc. cbv beta. rewrite Nat2Z.inj_succ, Z.pow_succ_r in Hc by lia. lia.
    + intros c c' Hle Hc. cbv beta in *.
      pose proof (Z.pow_pos_nonneg 2 (Z.of_nat fuel) ltac:(lia) ltac:(lia)). nia.
Qed.

(** [croquette_put] never reaches the bound on a table whose capacity is
    positive. *)
Lemma croquette_put_contract : put_contract (fun c => 1 <= c) croquette_put.
Proof.
  eapply put_contract_weaken; [| apply (croquette_put_fuel_contract max_depth)].
  intros c Hc. cbv beta. change (2 ^ Z.of_nat max_depth) with 4294967296. lia.
Qed.

Lemma deep_positive_mono : forall c c' : Z, c <= c' -> 1 <= c -> 1 <= c'.
Proof. intros. lia. Qed.

(** ** Removal *)

Lemma with_table_same t : with_table (table t) t = t.
Proof. destruct t. reflexivity. Qed.

Lemma entry_index t b chain entry :
  table_inv t -> table t !! b = Some chain -> entry ∈ chain ->
  exists s, key entry = Cstr s true /\ s <> EmptyString /\
            Z.rem (hash s) (capacity t) = Z.of_nat b.
Proof.
  intros Hinv Hb He. pose proof (inv_placed t Hinv b chain entry Hb He) as Hp.
  unfold placed in Hp. apply andb_true_iff in Hp as [Hk Hi].
  apply key_ok_inv in Hk as (Ht & _ & Hlen). apply Z.eqb_eq in Hi.
  destruct (key entry) as [s tm]. cbn in *. subst tm. exists s.
  split; [reflexivity |]. split; [| assumption].
  intros ->. cbn in Hlen. lia.
Qed.

Lemma remove_entry_eq t e l b p chain entry :
  table_inv t -> table t !! b = Some chain -> chain !! p = Some entry ->
  remove_entry (Some (b, p)) (live t e l)
  = Ret D_Success
      (live (with_size (size t - 1)
               (with_table (<[b := take p chain ++ drop (S p) chain]> (table t)) t))
         D_No_Error
         (l ++ if do_free t =? D_Do_Free then [value entry] else [])).
Proof.
  intros Hinv Hb Hp. pose proof (inv_capacity t Hinv) as Hcap.
  pose proof (lookup_lt_Some _ _ _ Hb) as Hblt.
  destruct (entry_index t b chain entry Hinv Hb (list_elem_of_lookup_2 _ _ _ Hp))
    as (s & Hkey & Hne & Hidx).
  unfold remove_entry. run.
  erewrite bind_Ret by (eapply carrier_at_eq; eassumption).
  rewrite Hkey.
  erewrite bind_Ret by (apply get_index_eq; [assumption | lia]).
  rewrite rem_to_int by assumption. rewrite Hidx. run. rewrite Hb. run.
  assert (Hset : set_bucket (Z.of_nat b) (take p chain ++ drop (S p) chain)
                   (live t D_No_Error l)
                 = Ret tt (live (with_table (<[b := take p chain ++ drop (S p) chain]> (table t)) t)
                             D_No_Error l)).
  { rewrite set_bucket_eq by lia. rewrite Nat2Z.id. reflexivity. }
  assert (Hunlink :
    match p with
    | O => set_bucket (Z.of_nat b) (drop 1 chain)
    | S _ => set_bucket (Z.of_nat b) (take p chain ++ drop (S p) chain)
    end (live t D_No_Error l)
    = Ret tt (live (with_table (<[b := take p chain ++ drop (S p) chain]> (table t)) t)
                D_No_Error l)).
  { destruct p; exact Hset. }
  erewrite bind_Ret by exact Hunlink.
  erewrite bind_Ret by (apply free_entry_eq; apply (inv_free t Hinv)).
  run. cbn [size with_table do_free].
  assert (Hpos : 1 <= size t).
  { rewrite (inv_size t Hinv). unfold entries.
    rewrite (entries_split (table t) b chain Hb). rewrite !length_app.
    pose proof (lookup_lt_Some _ _ _ Hp). lia. }
  rewrite to_int_small by (pose proof (inv_size_max t Hinv); unfold INT_MAX in *; lia).
  reflexivity.
Qed.

Section RemoveContract.

Variable put : option cstring -> Z -> M Z.
Variable deep : Z -> Prop.
Hypothesis deep_mono : forall c c', c <= c' -> deep c -> deep c'.
Hypothesis put_ok : put_contract deep put.

Lemma rehash_remove_post t e l :
  table_inv t ->
  match bind (rehash put D_Remove) propagate (live t e l) with
  | Ret _ w' => exists t' e' l', w' = live t' e' l' /\ rehash_step t t'
  | Fault => nonneg_keys t = false
  | OutOfFuel => exists c, 1 <= c /\ ~ deep c
  end.
Proof.
  intros Hinv. pose proof (inv_capacity t Hinv) as Hcap.
  unfold bind at 1. rewrite rehash_remove_eq.
  destruct (size t <? Z.shiftr (capacity t) 1) eqn:Hlow.
  - assert (Hhalf : Z.shiftr (capacity t) 1 <= INT_MAX).
    { rewrite Z.shiftr_div_pow2 by lia. change (2 ^ 1) with 2.
      pose proof (Z.div_le_upper_bound (capacity t) 2 INT_MAX ltac:(lia)).
      unfold INT_MAX in *. lia. }
    pose proof (perform_rehash_post put deep deep_mono put_ok t D_No_Error l _
                  Hinv Hhalf) as Hre.
    unfold bind at 1.
    destruct (perform_rehash put _ _) as [r w1 | |].
    + destruct Hre as (t1 & e1 & l1 & -> & Hstep & _).
      destruct (propagate_Ret r (live t1 e1 l1)) as [r1 Hr1]. rewrite Hr1.
      destruct (propagate_Ret r1 (live t1 e1 l1)) as [r2 Hr2]. rewrite Hr2.
      exists t1, e1, l1. split; [reflexivity | assumption].
    + exact Hre.
    + destruct Hre as [Hgt Hdeep]. eexists. split; [| exact Hdeep]. lia.
  - cbn. exists t, D_No_Error, l. split; [reflexivity |].
    split; [assumption |]. split; [apply same_config_refl |].
    split; [lia | auto].
Qed.

End RemoveContract.

Lemma rehash_step_trans t1 t2 t3 :
  rehash_step t1 t2 -> rehash_step t2 t3 -> rehash_step t1 t3.
Proof.
  intros (_ & C1 & S1 & K1) (I2 & C2 & S2 & K2).
  split; [assumption |]. split; [eapply same_config_trans; eassumption |].
  split; [lia | auto].
Qed.

Lemma rehash_step_refl t : table_inv t -> rehash_step t t.
Proof.
  intros Hinv. split; [assumption |]. split; [apply same_config_refl |].
  split; [lia | auto].
Qed.

Lemma croquette_remove_null t e l :
  croquette_remove None (live t e l) = Ret D_Error (live t D_Invalid_Key l).
Proof. unfold croquette_remove. run. reflexivity. Qed.

Lemma croquette_remove_empty t e l :
  croquette_remove (Some (Cstr EmptyString true)) (live t e l)
  = Ret D_Error (live t D_Invalid_Key l).
Proof. unfold croquette_remove. run. reflexivity. Qed.

Lemma croquette_remove_find s t e l :
  s <> EmptyString ->
  croquette_remove (Some (Cstr s true)) (live t e l)
  = bind (croquette_find (Some (Cstr s true)))
      (fun entry =>
         match entry with
         | None => ret D_Success
         | Some _ =>
             remove_entry entry;;
             let* rehash_success := rehash croquette_put D_Remove in
             if rehash_success =? D_Error then ret D_Error else ret D_Success
         end)
      (live t D_No_Error l).
Proof.
  intros Hne. unfold croquette_remove. run.
  rewrite (proj2 (string_length_zero s) Hne). reflexivity.
Qed.

(** The outcomes of [croquette_remove] on a table that satisfies the
    invariant. *)
Lemma croquette_remove_post k t e l :
  table_inv t -> c_string k = true ->
  match croquette_remove k (live t e l) with
  | Ret _ w' => exists t' e' l', w' = live t' e' l' /\ rehash_step t t'
  | Fault => safe_remove t k = false
  | OutOfFuel => False
  end.
Proof.
  intros Hinv Hk. pose proof (inv_capacity t Hinv) as Hcap.
  destruct k as [[s tm] |]; [| rewrite croquette_remove_null;
                               exists t, D_Invalid_Key, l;
                               split; [reflexivity | apply rehash_step_refl; assumption]].
  cbn [c_string chars] in Hk.
  destruct tm; [| reflexivity].
  destruct (string_dec s EmptyString) as [-> | Hne].
  { rewrite croquette_remove_empty. exists t, D_Invalid_Key, l.
    split; [reflexivity | apply rehash_step_refl; assumption]. }
  pose proof (croquette_find_eq t D_No_Error l s Hinv Hk Hne) as Hfind.
  cbv zeta in Hfind. rewrite croquette_remove_find by assumption.
  destruct (Z.rem (hash s) (capacity t) =? D_Error) eqn:Herr.
  { erewrite bind_Ret by exact Hfind. cbv beta iota. unfold ret.
    exists t, D_No_Error, l.
    split; [reflexivity | apply rehash_step_refl; assumption]. }
  destruct (Z.rem (hash s) (capacity t) <? 0) eqn:Hneg.
  { rewrite (bind_Fault _ _ _ Hfind).
    apply Z.ltb_lt in Hneg. apply rem_neg_hash in Hneg; [| lia].
    unfold safe_remove, safe_find. cbn [terminated chars].
    assert (H : (0 <=? hash s) = false) by (apply Z.leb_gt; lia).
    rewrite H. reflexivity. }
  apply Z.ltb_ge in Hneg.
  destruct (bucket_lookup t (Z.rem (hash s) (capacity t)) Hinv) as [chain Hb];
    [split; [assumption | apply rem_lt; lia] |].
  rewrite Hb in Hfind.
  destruct (chain_find s chain 0) as [p |] eqn:Hpos; cbn [option_map] in Hfind.
  2:{ erewrite bind_Ret by exact Hfind. cbv beta iota. unfold ret.
      exists t, D_No_Error, l.
      split; [reflexivity | apply rehash_step_refl; assumption]. }
  destruct (present_in_bucket t s chain p Hb Hpos) as (entry & Hp & Hkey & Hin).
  erewrite bind_Ret by exact Hfind. cbv beta iota.
  erewrite bind_Ret by (eapply remove_entry_eq; eassumption).
  pose proof (table_inv_removed t _ p chain entry Hinv Hb Hp) as Hinv1.
  set (t1 := with_size (size t - 1) _) in *.
  pose proof (rehash_remove_post croquette_put (fun c => 1 <= c)
                deep_positive_mono croquette_put_contract t1 D_No_Error
                (l ++ (if do_free t =? D_Do_Free then [value entry] else [])) Hinv1) as Hre.
  assert (Hstep1 : rehash_step t t1).
  { split; [assumption |]. split; [repeat split |].
    split; [cbn; lia |]. intros x Hx.
    eapply keys_removed_subset; eassumption. }
  change (bind (rehash croquette_put D_Remove) _)
    with (bind (rehash croquette_put D_Remove) propagate).
  destruct (bind (rehash croquette_put D_Remove) propagate _) as [r w1 | |].
  - destruct Hre as (t2 & e2 & l2 & -> & Hstep2).
    exists t2, e2, l2. split; [reflexivity |].
    eapply rehash_step_trans; eassumption.
  - apply not_true_iff_false. intros Hsafe.
    unfold safe_remove in Hsafe. apply andb_true_iff in Hsafe as [_ Hnn].
    apply not_true_iff_false in Hre. apply Hre.
    apply nonneg_keys_spec. intros x Hx.
    apply (proj1 (nonneg_keys_spec t) Hnn).
    destruct Hstep1 as (_ & _ & _ & Hsub). apply Hsub. exact Hx.
  - destruct Hre as (c & Hc & Hdeep). apply Hdeep. exact Hc.
Qed.

(** ** Clearing *)

Lemma clear_chain_eq i walker : forall t e l,
  table_inv t -> table t !! i = Some walker ->
  exists t' e',
    clear_chain i walker (live t e l)
    = Ret tt (live t' e'
                (l ++ if do_free t =? D_Do_Free then map value walker else [])) /\
    table_inv t' /\ table t' = <[i := []]> (table t) /\
    capacity t' = capacity t /\ same_config t t'.
Proof.
  induction walker as [| x next IH]; intros t e l Hinv Hb.
  - exists t, e. cbn [clear_chain map]. unfold ret.
    split; [destruct (do_free t =? D_Do_Free); rewrite app_nil_r; reflexivity |].
    split; [assumption |].
    split; [symmetry; apply list_insert_id; assumption |].
    split; [reflexivity | apply same_config_refl].
  - cbn [clear_chain].
    erewrite bind_Ret by (eapply (remove_entry_eq t e l i 0 (x :: next) x); [assumption .. | reflexivity]).
    pose proof (table_inv_removed t i 0 (x :: next) x Hinv Hb eq_refl) as Hinv1.
    change (take 0 (x :: next) ++ drop 1 (x :: next)) with next in *.
    set (t1 := with_size (size t - 1) (with_table (<[i := next]> (table t)) t)) in *.
    assert (Hb1 : table t1 !! i = Some next).
    { cbn [t1 table with_size with_table]. apply list_lookup_insert_eq.
      eapply lookup_lt_Some. eassumption. }
    destruct (IH t1 D_No_Error
                (l ++ (if do_free t =? D_Do_Free then [value x] else [])) Hinv1 Hb1)
      as (t' & e' & Hrun & Hinv' & Htb & Hcap & Hcfg).
    exists t', e'. split.
    + rewrite Hrun. do 2 f_equal. cbn [t1 do_free with_size with_table].
      destruct (do_free t =? D_Do_Free); cbn [map];
        rewrite <- app_assoc; reflexivity.
    + split; [assumption |]. split.
      * rewrite Htb. cbn [t1 table with_size with_table].
        apply list_insert_insert_eq.
      * split; [rewrite Hcap; reflexivity |].
        eapply same_config_trans; [| exact Hcfg]. repeat split.
Qed.

Lemma clear_buckets_eq n : forall i t e l,
  table_inv t -> (i + n = length (table t))%nat ->
  exists t' e',
    clear_buckets i n (live t e l)
    = Ret tt (live t' e'
                (l ++ if do_free t =? D_Do_Free
                      then map value (concat (drop i (table t))) else [])) /\
    table_inv t' /\ table t' = take i (table t) ++ replicate n [] /\
    capacity t' = capacity t /\ same_config t t'.
Proof.
  induction n as [| n IH]; intros i t e l Hinv Hlen.
  - exists t, e. cbn [clear_buckets]. unfold ret.
    rewrite drop_ge by lia. cbn [concat map].
    split; [destruct (do_free t =? D_Do_Free); rewrite app_nil_r; reflexivity |].
    split; [assumption |].
    split; [rewrite take_ge by lia; rewrite app_nil_r; reflexivity |].
    split; [reflexivity | apply same_config_refl].
  - cbn [clear_buckets]. run. unfold bucket_at.
    assert (H0 : (Z.of_nat i <? 0) = false) by (apply Z.ltb_ge; lia).
    rewrite H0, Nat2Z.id.
    destruct (lookup_lt_is_Some_2 (table t) i ltac:(lia)) as [walker Hb].
    rewrite Hb. run.
    destruct (clear_chain_eq i walker t e l Hinv Hb)
      as (t1 & e1 & Hrun & Hinv1 & Htb1 & Hcap1 & Hcfg1).
    erewrite bind_Ret by exact Hrun.
    assert (Hlen1 : length (table t1) = length (table t))
      by (rewrite Htb1; apply length_insert).
    erewrite bind_Ret by (apply set_bucket_eq; lia).
    rewrite Nat2Z.id.
    assert (Hsame : with_table (<[i := []]> (table t1)) t1 = t1).
    { rewrite Htb1, list_insert_insert_eq, <- Htb1. apply with_table_same. }
    rewrite Hsame.
    destruct (IH (S i) t1 e1
                (l ++ (if do_free t =? D_Do_Free then map value walker else []))
                Hinv1 ltac:(lia))
      as (t' & e' & Hrun' & Hinv' & Htb' & Hcap' & Hcfg').
    exists t', e'. split.
    + rewrite Hrun'. do 2 f_equal.
      destruct Hcfg1 as (Hdf & _). rewrite Hdf.
      rewrite Htb1, drop_insert_lt by lia.
      rewrite (drop_S (table t) walker i Hb). cbn [concat].
      destruct (do_free t =? D_Do_Free).
      * rewrite map_app, app_assoc. reflexivity.
      * rewrite !app_nil_r. reflexivity.
    + split; [assumption |]. split.
      * rewrite Htb', Htb1.
        rewrite (take_S_r (<[i := []]> (table t)) i [])
          by (apply list_lookup_insert_eq; lia).
        rewrite take_insert_ge by lia. rewrite <- app_assoc. reflexivity.
      * split; [lia |]. eapply same_config_trans; eassumption.
Qed.

Lemma concat_replicate_nil (n : nat) :
  concat (replicate n ([] : list Carrier_s)) = [].
Proof. induction n as [| n IH]; [reflexivity | exact IH]. Qed.

Lemma rehashed_same_config nc t t' :
  same_config t t' -> rehashed nc t' = rehashed nc t.
Proof.
  intros (H1 & H2 & H3 & H4). unfold rehashed, with_size, with_capacity, with_table.
  cbn. rewrite H1, H2, H3, H4. reflexivity.
Qed.

(** [croquette_clear] on a table that satisfies the invariant: the result,
    the table afterwards and the values given to the release routine. *)
Lemma croquette_clear_eq t e l :
  table_inv t ->
  croquette_clear (live t e l)
  = Ret D_Success
      (live (rehashed (base_capacity t) t) D_No_Error
         (l ++ if do_free t =? D_Do_Free then map value (entries t) else [])).
Proof.
  intros Hinv. pose proof (inv_capacity t Hinv) as Hcap.
  pose proof (inv_length t Hinv) as Hlen. pose proof (inv_base t Hinv) as Hbase.
  unfold croquette_clear. run.
  destruct (clear_buckets_eq (Z.to_nat (capacity t)) 0 t D_No_Error l Hinv ltac:(lia))
    as (t1 & e1 & Hrun & Hinv1 & Htb1 & Hcap1 & Hcfg1).
  rewrite drop_0 in Hrun. rewrite take_0, app_nil_l in Htb1.
  erewrite bind_Ret by exact Hrun. run.
  destruct Hcfg1 as (Hdf & Hb1 & Hfv & Hvc).
  rewrite Hb1.
  rewrite perform_rehash_eq by (try lia; apply (inv_length t1 Hinv1)).
  unfold entries at 1. rewrite Htb1, concat_replicate_nil.
  cbn [rehash_chain]. unfold bind, ret.
  rewrite (rehashed_same_config _ t t1) by (repeat split; assumption).
  reflexivity.
Qed.

(** ** Insertion of a new key: the growth rule *)

Lemma storable_inv s :
  storable s = true ->
  nul_free s = true /\ s <> EmptyString /\
  Z.of_nat (String.length s) < MAX_KEY_SIZE /\ 0 <= hash s.
Proof.
  unfold storable. intros H. apply andb_true_iff in H as [H H4].
  apply andb_true_iff in H as [H H3]. apply andb_true_iff in H as [H1 H2].
  apply Z.ltb_lt in H2, H3. apply Z.leb_le in H4.
  split; [assumption |]. split; [intros ->; cbn in H2; lia |]. split; lia.
Qed.

Lemma absent_chain_find t s b chain :
  table t !! b = Some chain -> s ∉ keys t -> chain_find s chain 0 = None.
Proof.
  intros Hb Habs. apply chain_find_None. intros Hin. apply Habs.
  apply list_elem_of_fmap in Hin as (e & -> & He).
  unfold keys. apply list_elem_of_fmap. exists e. split; [reflexivity |].
  apply elem_of_entries. exists b, chain. split; assumption.
Qed.

Lemma placed_new t s v :
  nul_free s = true -> s <> EmptyString ->
  Z.of_nat (String.length s) < MAX_KEY_SIZE ->
  0 <= Z.rem (hash s) (capacity t) ->
  placed (capacity t) (Z.to_nat (Z.rem (hash s) (capacity t)))
    (mkCarrier (Cstr s true) v) = true.
Proof.
  intros Hk Hne Hlen Hidx. unfold placed, key_ok. cbn [key chars terminated].
  rewrite Hk. cbn [andb]. apply andb_true_iff. split.
  - apply andb_true_iff. split; [| apply Z.ltb_lt; assumption].
    apply Z.ltb_lt. destruct s; [congruence | cbn [String.length]; lia].
  - apply Z.eqb_eq. rewrite Z2Nat.id by assumption. reflexivity.
Qed.

(** The three ways in which [croquette_put] does not store a new key. *)
Lemma put_body_long_key put s v t e l :
  table_inv t -> nul_free s = true ->
  Z.rem (hash s) (capacity t) <> D_Error ->
  s ∉ keys t ->
  MAX_KEY_SIZE <= Z.of_nat (String.length s) ->
  put_body put (Some (Cstr s true)) v (live t e l) = Fault.
Proof.
  intros Hinv Hk Herr Habs Hlen. pose proof (inv_capacity t Hinv) as Hcap.
  assert (Hne : s <> EmptyString).
  { intros ->. cbn in Hlen. unfold MAX_KEY_SIZE in Hlen. lia. }
  rewrite put_body_find by assumption.
  pose proof (croquette_find_eq t D_No_Error l s Hinv Hk Hne) as Hfind.
  cbv zeta in Hfind. rewrite (proj2 (Z.eqb_neq _ _) Herr) in Hfind.
  destruct (Z.rem (hash s) (capacity t) <? 0) eqn:Hneg;
    [apply bind_Fault; exact Hfind |].
  apply Z.ltb_ge in Hneg.
  destruct (bucket_lookup t (Z.rem (hash s) (capacity t)) Hinv) as [chain Hb];
    [split; [assumption | apply rem_lt; lia] |].
  rewrite Hb, (absent_chain_find t s _ chain Hb Habs) in Hfind.
  cbn [option_map] in Hfind.
  erewrite bind_Ret by exact Hfind. cbv beta iota. run.
  destruct (carrier_create_long s v (live t D_No_Error l) Hlen) as [cs Hcs].
  erewrite bind_Ret by exact Hcs. norm_world. cbn [key].
  apply bind_Fault, get_index_unterminated.
Qed.

Lemma put_body_error_index put s v t e l :
  table_inv t -> nul_free s = true -> s <> EmptyString ->
  Z.rem (hash s) (capacity t) = D_Error ->
  put_body put (Some (Cstr s true)) v (live t e l)
  = if Z.of_nat (String.length s) <? MAX_KEY_SIZE
    then Ret D_Error (live t D_No_Error l) else Fault.
Proof.
  intros Hinv Hk Hne Herr. pose proof (inv_capacity t Hinv) as Hcap.
  rewrite put_body_find by assumption.
  pose proof (croquette_find_eq t D_No_Error l s Hinv Hk Hne) as Hfind.
  cbv zeta in Hfind. rewrite (proj2 (Z.eqb_eq _ _) Herr) in Hfind.
  erewrite bind_Ret by exact Hfind. cbv beta iota. run.
  destruct (Z.ltb_spec (Z.of_nat (String.length s)) MAX_KEY_SIZE) as [Hlen | Hlen].
  - erewrite bind_Ret by (apply carrier_create_eq; assumption).
    norm_world. cbn [key].
    erewrite bind_Ret by (apply get_index_eq; [assumption | lia]).
    rewrite rem_to_int by assumption. cbv zeta.
    rewrite (proj2 (Z.eqb_eq _ _) Herr). reflexivity.
  - destruct (carrier_create_long s v (live t D_No_Error l) Hlen) as [cs Hcs].
    erewrite bind_Ret by exact Hcs. norm_world. cbn [key].
    apply bind_Fault, get_index_unterminated.
Qed.

Lemma put_body_negative_index put s v t e l :
  table_inv t -> nul_free s = true -> s <> EmptyString ->
  Z.rem (hash s) (capacity t) < D_Error ->
  put_body put (Some (Cstr s true)) v (live t e l) = Fault.
Proof.
  intros Hinv Hk Hne Hidx. unfold D_Error in Hidx.
  rewrite put_body_find by assumption.
  pose proof (croquette_find_eq t D_No_Error l s Hinv Hk Hne) as Hfind.
  cbv zeta in Hfind.
  assert (H1 : (Z.rem (hash s) (capacity t) =? D_Error) = false)
    by (apply Z.eqb_neq; unfold D_Error; lia).
  assert (H2 : (Z.rem (hash s) (capacity t) <? 0) = true) by (apply Z.ltb_lt; lia).
  rewrite H1, H2 in Hfind. apply bind_Fault. exact Hfind.
Qed.

(** Without growth nothing but the new carrier changes. *)
Lemma put_body_no_growth put s v t e l :
  table_inv t -> nul_free s = true -> s <> EmptyString ->
  Z.of_nat (String.length s) < MAX_KEY_SIZE ->
  0 <= Z.rem (hash s) (capacity t) ->
  s ∉ keys t ->
  size t < INT_MAX ->
  grows (size t + 1) (capacity t) = false ->
  exists t',
    put_body put (Some (str s)) v (live t e l) = Ret D_Success (live t' D_No_Error l) /\
    table_inv t' /\ size t' = size t + 1 /\ capacity t' = capacity t /\
    keys t' ≡ₚ s :: keys t /\ same_config t t'.
Proof.
  intros Hinv Hk Hne Hlen Hidx Habs Hsize Hgrow.
  pose proof (inv_capacity t Hinv) as Hcap.
  destruct (bucket_lookup t (Z.rem (hash s) (capacity t)) Hinv) as [chain Hb];
    [split; [assumption | apply rem_lt; lia] |].
  pose proof (absent_chain_find t s _ chain Hb Habs) as Hfind.
  exists (inserted (Z.rem (hash s) (capacity t)) chain (mkCarrier (Cstr s true) v) t).
  split.
  - unfold str. rewrite (put_body_insert put s v t e l chain) by assumption.
    unfold bind at 1. rewrite rehash_insert_eq.
    cbn [size capacity inserted with_size with_table]. rewrite Hgrow. reflexivity.
  - split; [apply table_inv_inserted; try assumption; apply placed_new; assumption |].
    split; [reflexivity |]. split; [reflexivity |].
    split; [apply (keys_inserted t _ chain (mkCarrier (Cstr s true) v) Hb)
           | repeat split].
Qed.

Lemma arrived_length cap l : (length (arrived cap l) <= length l)%nat.
Proof.
  induction l as [| s r IH]; [reflexivity |]. cbn [arrived].
  destruct (arrives cap s); cbn [length]; lia.
Qed.

Lemma arrived_all cap l : Forall (fun s => arrives cap s = true) l -> arrived cap l = l.
Proof.
  induction 1 as [| s r Hs _ IH]; [reflexivity |]. cbn [arrived].
  rewrite Hs, IH. reflexivity.
Qed.

(** The loop of [perform_rehash] when no insertion makes the new table
    grow: it stops with a fault at the first carrier whose index in the
    new table is below -1; otherwise the carriers with an index inside the
    array arrive and those with index -1 are lost. *)
Lemma rehash_chain_no_growth fuel es : forall tn e l,
  table_inv tn ->
  size tn + Z.of_nat (length es) <= INT_MAX ->
  Forall (fun x => key_ok (key x) = true) es ->
  NoDup (map (fun x => chars (key x)) es) ->
  (forall x, x ∈ keys tn -> x ∉ map (fun x => chars (key x)) es) ->
  (forall j, size tn < j <= size tn + Z.of_nat (length es) ->
             grows j (capacity tn) = false) ->
  (rehash_chain (croquette_put_fuel (S fuel)) es (live tn e l) = Fault /\
   Exists (fun x => Z.rem (hash (chars (key x))) (capacity tn) < D_Error) es) \/
  exists t' e' l',
    rehash_chain (croquette_put_fuel (S fuel)) es (live tn e l)
    = Ret tt (live t' e' l') /\
    table_inv t' /\ capacity t' = capacity tn /\ same_config tn t' /\
    Forall (fun x => D_Error <= Z.rem (hash (chars (key x))) (capacity tn)) es /\
    keys t' ≡ₚ keys tn ++ arrived (capacity tn) (map (fun x => chars (key x)) es) /\
    size t' = size tn
              + Z.of_nat (length (arrived (capacity tn)
                                    (map (fun x => chars (key x)) es))).
Proof.
  induction es as [| x es IH]; intros tn e l Hinv Hsize Hgood Hnd Hfresh Hload.
  - right. exists tn, e, l. split; [reflexivity |]. split; [assumption |].
    split; [reflexivity |]. split; [apply same_config_refl |].
    split; [constructor |]. cbn [map arrived length].
    split; [rewrite app_nil_r; reflexivity | lia].
  - inversion Hgood as [| ? ? Hkx Hges]; subst.
    cbn [map] in Hnd. apply NoDup_cons in Hnd as [Hx Hnd].
    cbn [length] in Hsize, Hload.
    pose proof (key_ok_inv _ Hkx) as (Hterm & Hnul & Hlen).
    destruct (key x) as [s tm] eqn:Hkey. cbn [chars terminated] in *. subst tm.
    assert (Hne : s <> EmptyString) by (intros ->; cbn in Hlen; lia).
    assert (Habs : s ∉ keys tn).
    { intros Hin. apply (Hfresh _ Hin). cbn [map]. rewrite Hkey.
      apply list_elem_of_here. }
    cbn [rehash_chain map arrived]. rewrite Hkey. cbn [chars].
    change (croquette_put_fuel (S fuel)) with (put_body (croquette_put_fuel fuel)).
    destruct (Z.lt_trichotomy (Z.rem (hash s) (capacity tn)) D_Error)
      as [Hlow | [Herr | Hhigh]].
    + (* the lookup faults *)
      left. split.
      * apply bind_Fault. apply put_body_negative_index; assumption.
      * apply Exists_cons_hd. rewrite Hkey. exact Hlow.
    + (* the carrier is lost *)
      assert (Harr : arrives (capacity tn) s = false).
      { unfold arrives. rewrite Herr. reflexivity. }
      rewrite Harr.
      pose proof (put_body_error_index (croquette_put_fuel fuel) s (value x) tn e l
                    Hinv Hnul Hne Herr) as Hrun.
      rewrite (proj2 (Z.ltb_lt _ _) (proj2 Hlen)) in Hrun.
      erewrite bind_Ret by exact Hrun.
      erewrite bind_Ret by (apply free_entry_eq; apply (inv_free tn Hinv)).
      destruct (IH tn D_No_Error
                  (l ++ (if do_free tn =? D_Do_Free
                         then [value {| key := Cstr s true; value := NULL |}] else []))
                  Hinv ltac:(lia) Hges Hnd) as [[Hrun2 Hex] | Hret].
      * intros y Hy Hin. apply (Hfresh y Hy). cbn [map].
        apply list_elem_of_further. exact Hin.
      * intros j Hj. apply Hload. lia.
      * left. split; [exact Hrun2 | apply Exists_cons_tl; exact Hex].
      * right. destruct Hret as (t2 & e2 & l2 & Hrun2 & Hinv2 & Hcap2 & Hcfg2
                                 & Hall2 & Hkeys2 & Hsize2).
        exists t2, e2, l2. split; [exact Hrun2 |]. split; [assumption |].
        split; [assumption |]. split; [assumption |]. split; [| split; assumption].
        constructor; [rewrite Hkey; cbn [chars]; lia | exact Hall2].
    + (* the carrier arrives *)
      assert (Hidx : 0 <= Z.rem (hash s) (capacity tn)) by (unfold D_Error in Hhigh; lia).
      assert (Harr : arrives (capacity tn) s = true) by (apply Z.leb_le; exact Hidx).
      rewrite Harr.
      destruct (put_body_no_growth (croquette_put_fuel fuel) s (value x) tn e l
                  Hinv Hnul Hne (proj2 Hlen) Hidx Habs ltac:(lia)
                  (Hload (size tn + 1) ltac:(lia)))
        as (t1 & Hrun & Hinv1 & Hsize1 & Hcap1 & Hkeys1 & Hcfg1).
      unfold str in Hrun. erewrite bind_Ret by exact Hrun.
      erewrite bind_Ret by (apply free_entry_eq; apply (inv_free t1 Hinv1)).
      destruct (IH t1 D_No_Error
                  (l ++ (if do_free t1 =? D_Do_Free
                         then [value {| key := Cstr s true; value := NULL |}] else []))
                  Hinv1 ltac:(lia) Hges Hnd) as [[Hrun2 Hex] | Hret].
      * intros y Hy. rewrite Hkeys1 in Hy.
        apply elem_of_cons in Hy as [-> | Hy]; [exact Hx |].
        intros Hin. apply (Hfresh y Hy). cbn [map]. apply list_elem_of_further. exact Hin.
      * intros j Hj. rewrite Hcap1. apply Hload. lia.
      * left. split; [exact Hrun2 |]. apply Exists_cons_tl.
        rewrite Hcap1 in Hex. exact Hex.
      * right. destruct Hret as (t2 & e2 & l2 & Hrun2 & Hinv2 & Hcap2 & Hcfg2
                                 & Hall2 & Hkeys2 & Hsize2).
        rewrite Hcap1 in Hall2, Hkeys2, Hsize2.
        exists t2, e2, l2. split; [exact Hrun2 |]. split; [assumption |].
        split; [lia |]. split; [eapply same_config_trans; eassumption |].
        split; [constructor; [rewrite Hkey; cbn [chars]; unfold D_Error; lia
                             | exact Hall2] |].
        split.
        -- rewrite Hkeys2, Hkeys1. cbn [app]. apply Permutation_middle.
        -- cbn [length]. lia.
Qed.

Lemma shiftr_double_1 c : Z.shiftr (2 * c) 1 = c.
Proof.
  rewrite Z.shiftr_div_pow2 by lia. change (2 ^ 1) with 2.
  rewrite Z.mul_comm. apply Z.div_mul. lia.
Qed.

(** Below the load of one entry per bucket the doubled table does not
    grow again while it is filled. *)
Lemma no_growth_after_doubling n c j :
  1 <= c -> n < c -> 0 < j <= n + 1 -> grows j (2 * c) = false.
Proof.
  intros Hc Hn Hj. unfold grows. rewrite shiftr_double_1.
  assert (H : 0 <= Z.shiftr (2 * c) 2) by (apply Z.shiftr_nonneg; lia).
  apply orb_false_iff. split.
  - rewrite Z.gtb_ltb. apply Z.ltb_ge. lia.
  - rewrite Z.geb_leb. apply Z.leb_gt. lia.
Qed.

(** A key with an index inside [c] buckets has an index inside [2 * c]
    buckets, unless its hash code is negative: then the index may be [- c]. *)
Lemma rem_double h c :
  1 <= c -> 0 <= Z.rem h c ->
  0 <= Z.rem h (2 * c) \/ Z.rem h (2 * c) = - c.
Proof.
  intros Hc Hrem. destruct (Z.le_gt_cases 0 h) as [Hh | Hh].
  - left. apply Z.rem_nonneg; lia.
  - pose proof (Z.rem_nonpos h c ltac:(lia) ltac:(lia)) as Hnp.
    assert (H0 : Z.rem h c = 0) by lia.
    pose proof (Z.quot_rem' h c) as Hq. rewrite H0 in Hq.
    set (m := - Z.quot h c) in *.
    assert (Hm : h = - (c * m)) by (unfold m; lia).
    rewrite Hm, Z.rem_opp_l by lia.
    rewrite Z.rem_mod_nonneg by nia.
    replace (2 * c) with (c * 2) by lia. rewrite Zmult_mod_distr_l.
    pose proof (Z.mod_pos_bound m 2 ltac:(lia)) as Hb.
    assert (Hcases : m mod 2 = 0 \/ m mod 2 = 1) by lia.
    destruct Hcases as [-> | ->]; [left | right]; lia.
Qed.

Lemma keys_Forall_entries (P : string -> Prop) t :
  (forall x, x ∈ keys t -> P x) ->
  Forall (fun x => P x) (map (fun e => chars (key e)) (entries t)).
Proof. intros H. apply Forall_forall. intros x Hx. apply H. exact Hx. Qed.

(** An insertion that makes the table grow, below the load of one entry
    per bucket: either the rehash faults at a key whose index in the
    doubled table is below -1, or the table is doubled and holds the keys
    whose index is inside it. *)
Lemma croquette_put_growth s v t e l :
  table_inv t -> nul_free s = true -> s <> EmptyString ->
  Z.of_nat (String.length s) < MAX_KEY_SIZE ->
  0 <= Z.rem (hash s) (capacity t) ->
  s ∉ keys t ->
  size t < capacity t -> 2 * capacity t <= INT_MAX ->
  grows (size t + 1) (capacity t) = true ->
  exists ks, ks ≡ₚ s :: keys t /\
    ((croquette_put (Some (str s)) v (live t e l) = Fault /\
      Exists (fun x => Z.rem (hash x) (2 * capacity t) < D_Error) ks) \/
     exists t' e' l',
       croquette_put (Some (str s)) v (live t e l) = Ret D_Success (live t' e' l') /\
       table_inv t' /\ capacity t' = 2 * capacity t /\ same_config t t' /\
       Forall (fun x => D_Error <= Z.rem (hash x) (2 * capacity t)) ks /\
       keys t' ≡ₚ arrived (2 * capacity t) ks /\
       size t' = Z.of_nat (length (arrived (2 * capacity t) ks))).
Proof.
  intros Hinv Hk Hne Hlen Hidx Habs Hload Hmax Hgrow.
  pose proof (inv_capacity t Hinv) as Hcap.
  destruct (bucket_lookup t (Z.rem (hash s) (capacity t)) Hinv) as [chain Hb];
    [split; [assumption | apply rem_lt; lia] |].
  pose proof (absent_chain_find t s _ chain Hb Habs) as Hfind.
  set (t1 := inserted (Z.rem (hash s) (capacity t)) chain (mkCarrier (Cstr s true) v) t).
  assert (Hinv1 : table_inv t1).
  { apply table_inv_inserted; try assumption; [apply placed_new; assumption | lia]. }
  pose proof (keys_inserted t _ chain (mkCarrier (Cstr s true) v) Hb) as Hkeys1.
  fold t1 in Hkeys1. cbn [key chars] in Hkeys1.
  exists (keys t1). split; [exact Hkeys1 |].
  assert (Hnc : to_int (Z.shiftl (capacity t) 1) = 2 * capacity t).
  { rewrite Z.shiftl_mul_pow2 by lia. change (2 ^ 1) with 2.
    rewrite to_int_small by (unfold INT_MAX in *; lia). lia. }
  assert (Hput : croquette_put (Some (str s)) v (live t e l)
                 = bind (bind (bind (rehash_chain (croquette_put_fuel 31) (entries t1))
                                 (fun _ => ret D_Success)) propagate) propagate
                     (live (rehashed (2 * capacity t) t1) D_No_Error l)).
  { change croquette_put with (put_body (croquette_put_fuel 31)). unfold str.
    rewrite (put_body_insert _ s v t e l chain) by (try assumption; lia).
    fold t1. unfold bind at 1. rewrite rehash_insert_eq.
    cbn [t1 size capacity inserted with_size with_table]. rewrite Hgrow.
    fold t1. rewrite Hnc. unfold bind at 1.
    rewrite perform_rehash_eq by (try lia; apply (inv_length t1 Hinv1)).
    reflexivity. }
  destruct (rehash_chain_no_growth 30 (entries t1) (rehashed (2 * capacity t) t1)
              D_No_Error l) as [[Hrun2 Hex] | Hret].
  - apply table_inv_rehashed; [assumption | lia].
  - cbn [size rehashed with_size]. rewrite <- (inv_size t1 Hinv1).
    pose proof (inv_size_max t1 Hinv1). lia.
  - apply (entries_keys_ok t1 Hinv1).
  - apply (inv_distinct t1 Hinv1).
  - rewrite keys_rehashed. intros x Hx. apply elem_of_nil in Hx. contradiction.
  - cbn [size capacity rehashed with_size with_capacity with_table].
    rewrite <- (inv_size t1 Hinv1). cbn [t1 size inserted with_size].
    intros j Hj. apply (no_growth_after_doubling (size t) (capacity t)); lia.
  - left. split.
    + rewrite Hput. do 3 apply bind_Fault. exact Hrun2.
    + cbn [capacity rehashed with_size with_capacity] in Hex.
      unfold keys. apply Exists_fmap. exact Hex.
  - right. destruct Hret as (t2 & e2 & l2 & Hrun2 & Hinv2 & Hcap2 & Hcfg2
                              & Hall2 & Hkeys2 & Hsize2).
    cbn [size capacity rehashed with_size with_capacity with_table]
      in Hcap2, Hall2, Hkeys2, Hsize2.
    rewrite keys_rehashed in Hkeys2. cbn [app] in Hkeys2.
    exists t2, e2, l2. split.
    + rewrite Hput. rewrite !bind_assoc.
      erewrite bind_Ret by exact Hrun2. reflexivity.
    + split; [assumption |]. split; [assumption |].
      split; [eapply same_config_trans; [| exact Hcfg2]; repeat split |].
      split; [unfold keys; apply Forall_fmap; exact Hall2 |].
      split; [exact Hkeys2 | unfold keys; lia].
Qed.

Lemma keys_length t : table_inv t -> size t = Z.of_nat (length (keys t)).
Proof.
  intros Hinv. unfold keys. rewrite length_map. apply (inv_size t Hinv).
Qed.

Lemma no_growth_load t : grows (size t + 1) (capacity t) = false -> size t + 1 < capacity t.
Proof.
  unfold grows. intros H. apply orb_false_iff in H as [_ Hge].
  rewrite Z.geb_leb in Hge. apply Z.leb_gt in Hge. lia.
Qed.

(** One insertion of a new storable key below the load of one entry per
    bucket. *)
Lemma croquette_put_new_key s v t e l :
  table_inv t -> storable s = true -> s ∉ keys t ->
  nonneg_keys t = true ->
  size t < capacity t -> 2 * capacity t <= INT_MAX ->
  exists t' e' l',
    croquette_put (Some (str s)) v (live t e l) = Ret D_Success (live t' e' l') /\
    inserted_one s t t'.
Proof.
  intros Hinv Hst Habs Hnn Hload Hmax.
  pose proof (inv_capacity t Hinv) as Hcap.
  apply storable_inv in Hst as (Hk & Hne & Hlen & Hhash).
  assert (Hidx : 0 <= Z.rem (hash s) (capacity t)) by (apply Z.rem_nonneg; lia).
  destruct (grows (size t + 1) (capacity t)) eqn:Hgrow.
  2:{ destruct (put_body_no_growth (croquette_put_fuel 31) s v t e l Hinv Hk Hne Hlen
                  Hidx Habs ltac:(lia) Hgrow)
        as (t' & Hrun & Hinv' & Hsize' & Hcap' & Hkeys' & Hcfg').
      exists t', D_No_Error, l. split; [exact Hrun |].
      unfold inserted_one. rewrite Hgrow.
      repeat (split; [assumption |]).
      apply no_growth_load in Hgrow. lia. }
  destruct (croquette_put_growth s v t e l Hinv Hk Hne Hlen Hidx Habs Hload Hmax Hgrow)
    as (ks & Hks & [[_ Hex] | Hret]).
  - exfalso. apply Exists_exists in Hex as (x & Hx & Hneg).
    rewrite Hks in Hx.
    assert (Hxh : 0 <= hash x).
    { apply elem_of_cons in Hx as [-> | Hx]; [assumption |].
      apply (proj1 (nonneg_keys_spec t) Hnn). assumption. }
    pose proof (Z.rem_nonneg (hash x) (2 * capacity t) ltac:(lia) Hxh).
    unfold D_Error in Hneg. lia.
  - destruct Hret as (t' & e' & l' & Hrun & Hinv' & Hcap' & Hcfg' & _ & Hkeys' & Hsize').
    assert (Hall : arrived (2 * capacity t) ks = ks).
    { apply arrived_all. apply Forall_forall. intros x Hx. rewrite Hks in Hx.
      apply Z.leb_le. apply Z.rem_nonneg; [lia |].
      apply elem_of_cons in Hx as [-> | Hx]; [assumption |].
      apply (proj1 (nonneg_keys_spec t) Hnn). assumption. }
    rewrite Hall in Hkeys', Hsize'.
    exists t', e', l'. split; [exact Hrun |].
    unfold inserted_one. rewrite Hgrow. split; [assumption |].
    assert (Hsz : size t' = size t + 1).
    { rewrite Hsize', (Permutation_length Hks). cbn [length].
      rewrite (keys_length t Hinv). lia. }
    split; [exact Hsz |]. split; [assumption |].
    split; [rewrite Hkeys'; exact Hks |]. split; [assumption | lia].
Qed.

(** ** Lookups *)

Lemma croquette_containsKey_empty t e l :
  croquette_containsKey (Some (str EmptyString)) (live t e l)
  = Ret D_Error (live t D_Invalid_Key l).
Proof. unfold croquette_containsKey. run. reflexivity. Qed.

Lemma present_iff t s chain :
  table_inv t -> 0 <= Z.rem (hash s) (capacity t) ->
  table t !! Z.to_nat (Z.rem (hash s) (capacity t)) = Some chain ->
  (match chain_find s chain 0 with Some _ => true | None => false end) = existsb (String.eqb s) (keys t).
Proof.
  intros Hinv Hidx Hb. destruct (chain_find s chain 0) as [p |] eqn:Hpos.
  - destruct (present_in_bucket t s chain p Hb Hpos) as (_ & _ & _ & Hin).
    symmetry. apply existsb_eqb_elem_of. exact Hin.
  - symmetry. apply not_true_iff_false. rewrite existsb_eqb_elem_of.
    eapply absent_from_bucket; eassumption.
Qed.

Lemma croquette_containsKey_eq t e l s :
  table_inv t -> nul_free s = true -> s <> EmptyString ->
  croquette_containsKey (Some (str s)) (live t e l)
  = if Z.rem (hash s) (capacity t) =? D_Error then Ret 0 (live t D_No_Error l)
    else if Z.rem (hash s) (capacity t) <? 0 then Fault
    else Ret (if existsb (String.eqb s) (keys t) then 1 else 0)
             (live t D_No_Error l).
Proof.
  intros Hinv Hk Hne. pose proof (inv_capacity t Hinv) as Hcap.
  unfold croquette_containsKey, str. run.
  rewrite (proj2 (string_length_zero s) Hne).
  pose proof (croquette_find_eq t D_No_Error l s Hinv Hk Hne) as Hfind.
  cbv zeta in Hfind.
  destruct (Z.rem (hash s) (capacity t) =? D_Error) eqn:Herr.
  { erewrite bind_Ret by exact Hfind. reflexivity. }
  destruct (Z.rem (hash s) (capacity t) <? 0) eqn:Hneg.
  { apply bind_Fault. exact Hfind. }
  apply Z.ltb_ge in Hneg.
  destruct (bucket_lookup t (Z.rem (hash s) (capacity t)) Hinv) as [chain Hb];
    [split; [assumption | apply rem_lt; lia] |].
  rewrite Hb in Hfind. erewrite bind_Ret by exact Hfind.
  rewrite <- (present_iff t s chain Hinv Hneg Hb).
  destruct (chain_find s chain 0); reflexivity.
Qed.

(** A lookup that returns leaves the table as it is. *)
Lemma croquette_containsKey_world t e l s a w :
  table_inv t -> nul_free s = true ->
  croquette_containsKey (Some (str s)) (live t e l) = Ret a w ->
  exists e', w = live t e' l.
Proof.
  intros Hinv Hk Hrun. destruct (string_dec s EmptyString) as [-> | Hne].
  - rewrite croquette_containsKey_empty in Hrun. injection Hrun as _ <-.
    eexists. reflexivity.
  - rewrite croquette_containsKey_eq in Hrun by assumption.
    destruct (_ =? D_Error); [injection Hrun as _ <-; eexists; reflexivity |].
    destruct (_ <? 0); [discriminate |].
    injection Hrun as _ <-. eexists. reflexivity.
Qed.

Lemma bind_Ret_inv {A B} (m : M A) (f : A -> M B) w b w' :
  bind m f w = Ret b w' -> exists a w1, m w = Ret a w1 /\ f a w1 = Ret b w'.
Proof.
  unfold bind. destruct (m w) as [a w1 | |]; [| discriminate ..].
  intros H. exists a, w1. split; [reflexivity | exact H].
Qed.

(** ** Creation *)

Lemma croquette_create_eq c df fv f :
  0 < c -> implb (df =? D_Do_Free) fv = true ->
  croquette_create c df fv (Some f) no_croquette
  = Ret D_Success (live (created c df fv f) D_No_Error []).
Proof.
  intros Hc Himp. unfold croquette_create. run. unfold no_croquette. run.
  assert (H : (c <=? 0) = false) by (apply Z.leb_gt; lia). rewrite H.
  change Croquette_Free_Value with D_Do_Free.
  destruct (df =? D_Do_Free); destruct fv; try discriminate; reflexivity.
Qed.

Lemma table_inv_created c df fv f :
  1 <= c <= INT_MAX -> implb (df =? D_Do_Free) fv = true ->
  table_inv (created c df fv f).
Proof.
  intros Hc Himp.
  assert (Hempty : entries (created c df fv f) = [])
    by apply concat_replicate_nil.
  constructor; cbn [created capacity base_capacity size table value_compare
                      do_free free_value]; try assumption.
  - rewrite length_replicate. lia.
  - fold (created c df fv f). rewrite Hempty. reflexivity.
  - unfold INT_MAX. lia.
  - intros b chain e Hl He. apply lookup_replicate in Hl as [-> _].
    apply elem_of_nil in He. contradiction.
  - unfold keys. fold (created c df fv f). rewrite Hempty. constructor.
  - exists f. reflexivity.
  - intros Hd. rewrite Hd in Himp. exact Himp.
Qed.

(** ** The growth of the capacity *)

Lemma croquette_size_eq t e l :
  croquette_size (live t e l) = Ret (size t) (live t D_No_Error l).
Proof. reflexivity. Qed.

Lemma croquette_capacity_eq t e l :
  croquette_capacity (live t e l) = Ret (capacity t) (live t D_No_Error l).
Proof. reflexivity. Qed.

(** ** Clearing *)

(** C4: [croquette_clear] on an existing table returns [D_Success] and
    leaves a table without entries, of size 0, whose capacity is the
    [base_capacity] recorded at creation, whatever the capacity was before;
    [base_capacity] itself is unchanged.  Every value goes to the release
    routine when the table owns its values. *)
Theorem clear_resets_to_base_capacity (t : Croquette_s) (e : Z) (l : list Z) :
  table_ok t = true ->
  exists t',
    croquette_clear (live t e l)
    = Ret D_Success
        (live t' D_No_Error
           (l ++ if do_free t =? D_Do_Free then map value (entries t) else [])) /\
    entries t' = [] /\ size t' = 0 /\
    capacity t' = base_capacity t /\ base_capacity t' = base_capacity t /\
    table_ok t' = true.
Proof.
  intros Hok. apply table_ok_inv in Hok.
  exists (rehashed (base_capacity t) t).
  split; [apply croquette_clear_eq; assumption |].
  split; [apply concat_replicate_nil |].
  split; [reflexivity |]. split; [reflexivity |]. split; [reflexivity |].
  apply table_inv_ok, table_inv_rehashed; [assumption | apply (inv_base t Hok)].
Qed.

Lemma clear_resets_to_base_capacity_witness :
  size_capacity (croquette_clear (live small_table 0 [])) = Some (0, 1).
Proof.
  destruct (clear_resets_to_base_capacity small_table 0 [] eq_refl)
    as (t' & Hrun & _ & Hsize & Hcap & _).
  rewrite Hrun. cbn [size_capacity croquette]. rewrite Hsize, Hcap. reflexivity.
Defined.

(** ** The invariants *)

Lemma preserved_by_step w' t' :
  croquette w' = Some t' -> table_inv t' ->
  exists t'', croquette w' = Some t'' /\ table_ok t'' = true /\ table_invariants t''.
Proof.
  intros Hw Hinv. exists t'. split; [assumption |].
  split; [apply table_inv_ok | apply table_inv_invariants]; assumption.
Qed.

(** C8: on a table that satisfies the representation invariant
    ([table_ok]: positive capacity, size equal to the number of entries,
    every carrier in the bucket of its hash, keys pairwise different),
    [croquette_put], [croquette_remove], [croquette_clear] and
    [perform_rehash] return a table that satisfies it again, and with it
    the invariants of the specification: [0 <= size], [1 <= capacity],
    [size] is the number of entries and no key occurs twice.  An operation
    faults only on the arguments that [safe_put], [safe_remove] and
    [nonneg_keys] exclude, and the bound on the nesting of rehashes is
    never reached. *)
Theorem operations_preserve_invariants
    (t : Croquette_s) (e : Z) (l : list Z) (k : option cstring) (v : Z) (nc : Z) :
  table_ok t = true -> c_string k = true ->
  (size t < INT_MAX ->
   outcome_preserves (safe_put t k) (croquette_put k v (live t e l))) /\
  outcome_preserves (safe_remove t k) (croquette_remove k (live t e l)) /\
  outcome_preserves true (croquette_clear (live t e l)) /\
  (nc <= INT_MAX ->
   outcome_preserves (nonneg_keys t) (perform_rehash croquette_put nc (live t e l))).
Proof.
  intros Hok Hk. apply table_ok_inv in Hok. pose proof (inv_capacity t Hok) as Hcap.
  split; [| split; [| split]].
  - intros Hsize.
    pose proof (croquette_put_contract k v t e l Hok Hsize Hk) as Hput.
    destruct (croquette_put k v _) as [r w' | |]; cbn in *.
    + destruct Hput as (t' & e' & l' & -> & Hinv' & _).
      eapply preserved_by_step; [reflexivity | assumption].
    + exact Hput.
    + apply Hput. lia.
  - pose proof (croquette_remove_post k t e l Hok Hk) as Hrem.
    destruct (croquette_remove k _) as [r w' | |]; cbn in *.
    + destruct Hrem as (t' & e' & l' & -> & Hinv' & _).
      eapply preserved_by_step; [reflexivity | assumption].
    + exact Hrem.
    + exact Hrem.
  - rewrite croquette_clear_eq by assumption. unfold outcome_preserves.
    eapply preserved_by_step; [reflexivity |].
    apply table_inv_rehashed; [assumption | apply (inv_base t Hok)].
  - intros Hnc.
    pose proof (perform_rehash_post croquette_put (fun c => 1 <= c)
                  deep_positive_mono croquette_put_contract t e l nc Hok Hnc) as Hre.
    destruct (perform_rehash croquette_put nc _) as [r w' | |]; cbn in *.
    + destruct Hre as (t' & e' & l' & -> & (Hinv' & _) & _).
      eapply preserved_by_step; [reflexivity | assumption].
    + exact Hre.
    + destruct Hre as [Hpos Hdeep]. apply Hdeep. lia.
Qed.

Lemma operations_preserve_invariants_witness :
  outcome_preserves (safe_put small_table (Some (str "bee")))
    (croquette_put (Some (str "bee")) 22 (live small_table 0 [])) /\
  safe_put small_table (Some (str "bee")) = true.
Proof.
  split; [| reflexivity].
  pose proof (operations_preserve_invariants small_table 0 []
                (Some (str "bee")) 22 4 eq_refl eq_refl) as [Hput _].
  apply Hput. vm_compute. reflexivity.
Defined.

(** * Further properties of the dictionary *)

(** ** The stored values *)

Lemma keys_content t : keys t = map fst (content t).
Proof.
  unfold keys, content. rewrite <- list_fmap_compose. reflexivity.
Qed.

Lemma assoc_None s l : assoc s l = None <-> s ∉ map fst l.
Proof.
  induction l as [| [k v] r IH]; cbn [assoc map fst].
  - split; [intros _ H; apply elem_of_nil in H; contradiction | reflexivity].
  - destruct (String.eqb_spec k s) as [-> | Hne].
    + split; [discriminate | intros H; exfalso; apply H, list_elem_of_here].
    + rewrite IH. split.
      * intros H Hin. apply elem_of_cons in Hin as [-> | Hin]; [congruence | auto].
      * intros H Hin. apply H, list_elem_of_further, Hin.
Qed.

Lemma assoc_Some s v l :
  NoDup (map fst l) -> (assoc s l = Some v <-> (s, v) ∈ l).
Proof.
  induction l as [| [k x] r IH]; cbn [assoc map fst]; intros Hnd.
  - split; [discriminate | intros H; apply elem_of_nil in H; contradiction].
  - apply NoDup_cons in Hnd as [Hk Hnd].
    destruct (String.eqb_spec k s) as [-> | Hne].
    + split.
      * intros [= ->]. apply list_elem_of_here.
      * intros Hin. apply elem_of_cons in Hin as [[= ->] | Hin]; [reflexivity |].
        exfalso. apply Hk. apply list_elem_of_fmap. exists (s, v). split; [reflexivity | exact Hin].
    + rewrite (IH Hnd). split.
      * intros H. apply list_elem_of_further, H.
      * intros Hin. apply elem_of_cons in Hin as [[= -> ->] | Hin]; [congruence | exact Hin].
Qed.

(** The stored value does not depend on the order of the carriers. *)
Lemma assoc_perm s l l' :
  NoDup (map fst l) -> l ≡ₚ l' -> assoc s l = assoc s l'.
Proof.
  intros Hnd Hp.
  assert (Hnd' : NoDup (map fst l')) by (rewrite <- Hp; exact Hnd).
  destruct (assoc s l) as [v |] eqn:H.
  - symmetry. apply (assoc_Some s v l' Hnd'). rewrite <- Hp.
    apply (assoc_Some s v l Hnd). exact H.
  - symmetry. apply assoc_None. rewrite <- Hp. apply assoc_None. exact H.
Qed.

Lemma stored_None t s : stored t s = None <-> s ∉ keys t.
Proof. unfold stored. rewrite keys_content. apply assoc_None. Qed.

Lemma stored_Some t s v :
  table_inv t -> (stored t s = Some v <-> (s, v) ∈ content t).
Proof.
  intros Hinv. apply assoc_Some. rewrite <- keys_content. apply (inv_distinct t Hinv).
Qed.

Lemma stored_is_Some t s : is_Some (stored t s) <-> s ∈ keys t.
Proof.
  destruct (stored t s) as [v |] eqn:H.
  - split; [| intros _; eexists; reflexivity].
    intros _. destruct (existsb (String.eqb s) (keys t)) eqn:Hex.
    + apply existsb_eqb_elem_of. exact Hex.
    + assert (Hn : stored t s = None); [| congruence].
      apply stored_None. intros Hin. apply existsb_eqb_elem_of in Hin. congruence.
  - split; [intros [v Hv]; discriminate |].
    intros Hin. exfalso. apply (proj1 (stored_None t s) H Hin).
Qed.

Lemma stored_entry t b chain entry :
  table_inv t -> table t !! b = Some chain -> entry ∈ chain ->
  stored t (chars (key entry)) = Some (value entry).
Proof.
  intros Hinv Hb He. apply stored_Some; [assumption |].
  unfold content. apply list_elem_of_fmap. exists entry. split; [reflexivity |].
  apply elem_of_entries. exists b, chain. split; assumption.
Qed.

Lemma stored_perm t t' s :
  table_inv t -> content t ≡ₚ content t' -> stored t s = stored t' s.
Proof.
  intros Hinv Hp. apply assoc_perm; [| exact Hp].
  rewrite <- keys_content. apply (inv_distinct t Hinv).
Qed.

(** ** Lookups *)

Lemma croquette_get_eq t e l s :
  table_inv t -> nul_free s = true -> s <> EmptyString ->
  croquette_get (Some (str s)) (live t e l)
  = if Z.rem (hash s) (capacity t) =? D_Error then Ret NULL (live t D_No_Error l)
    else if Z.rem (hash s) (capacity t) <? 0 then Fault
    else Ret (default NULL (stored t s)) (live t D_No_Error l).
Proof.
  intros Hinv Hk Hne. pose proof (inv_capacity t Hinv) as Hcap.
  unfold croquette_get, str. run.
  rewrite (proj2 (string_length_zero s) Hne).
  pose proof (croquette_find_eq t D_No_Error l s Hinv Hk Hne) as Hfind.
  cbv zeta in Hfind.
  destruct (Z.rem (hash s) (capacity t) =? D_Error) eqn:Herr.
  { erewrite bind_Ret by exact Hfind. reflexivity. }
  destruct (Z.rem (hash s) (capacity t) <? 0) eqn:Hneg.
  { apply bind_Fault. exact Hfind. }
  apply Z.ltb_ge in Hneg.
  destruct (bucket_lookup t (Z.rem (hash s) (capacity t)) Hinv) as [chain Hb];
    [split; [assumption | apply rem_lt; lia] |].
  rewrite Hb in Hfind. erewrite bind_Ret by exact Hfind.
  destruct (chain_find s chain 0) as [p |] eqn:Hpos; cbn [option_map].
  - destruct (present_in_bucket t s chain p Hb Hpos) as (entry & Hp & Hs & Hin).
    erewrite bind_Ret by (eapply carrier_at_eq; eassumption).
    assert (Hst : stored t s = Some (value entry)).
    { rewrite <- Hs. eapply stored_entry; [eassumption .. |].
      eapply list_elem_of_lookup_2. exact Hp. }
    rewrite Hst. reflexivity.
  - assert (Hst : stored t s = None).
    { apply stored_None. eapply absent_from_bucket; eassumption. }
    rewrite Hst. reflexivity.
Qed.

(** ** The content through an insertion *)

Lemma content_inserted t index chain entry :
  table t !! Z.to_nat index = Some chain ->
  content (inserted index chain entry t)
  ≡ₚ (chars (key entry), value entry) :: content t.
Proof.
  intros Hb. unfold content.
  rewrite (entries_inserted t index chain entry Hb). reflexivity.
Qed.

Lemma content_rehashed t nc : content (rehashed nc t) = [].
Proof.
  unfold content, entries. cbn [rehashed with_size with_capacity with_table table].
  rewrite concat_replicate_nil. reflexivity.
Qed.

Lemma content_keys t t' s :
  content t' ≡ₚ s :: content t -> keys t' ≡ₚ fst s :: keys t.
Proof. intros H. rewrite !keys_content, H. reflexivity. Qed.

Lemma content_length t : table_inv t -> size t = Z.of_nat (length (content t)).
Proof.
  intros Hinv. unfold content. rewrite length_map. apply (inv_size t Hinv).
Qed.

Lemma rehash_releases_S t n :
  (if do_free t =? D_Do_Free then [NULL] else []) ++ rehash_releases t n
  = rehash_releases t (S n).
Proof. unfold rehash_releases. destruct (do_free t =? D_Do_Free); reflexivity. Qed.

Lemma rehash_releases_config t t' n :
  same_config t t' -> rehash_releases t' n = rehash_releases t n.
Proof. intros (Hd & _). unfold rehash_releases. rewrite Hd. reflexivity. Qed.

(** Without growth the new carrier is all that changes. *)
Lemma put_body_new_content put s v t e l :
  table_inv t -> nul_free s = true -> s <> EmptyString ->
  Z.of_nat (String.length s) < MAX_KEY_SIZE ->
  0 <= Z.rem (hash s) (capacity t) ->
  s ∉ keys t ->
  size t < INT_MAX ->
  grows (size t + 1) (capacity t) = false ->
  exists t',
    put_body put (Some (str s)) v (live t e l) = Ret D_Success (live t' D_No_Error l) /\
    table_inv t' /\ size t' = size t + 1 /\ capacity t' = capacity t /\
    content t' ≡ₚ (s, v) :: content t /\ same_config t t'.
Proof.
  intros Hinv Hk Hne Hlen Hidx Habs Hsize Hgrow.
  pose proof (inv_capacity t Hinv) as Hcap.
  destruct (bucket_lookup t (Z.rem (hash s) (capacity t)) Hinv) as [chain Hb];
    [split; [assumption | apply rem_lt; lia] |].
  pose proof (absent_chain_find t s _ chain Hb Habs) as Hfind.
  exists (inserted (Z.rem (hash s) (capacity t)) chain (mkCarrier (Cstr s true) v) t).
  split.
  - unfold str. rewrite (put_body_insert put s v t e l chain) by assumption.
    unfold bind at 1. rewrite rehash_insert_eq.
    cbn [size capacity inserted with_size with_table]. rewrite Hgrow. reflexivity.
  - split; [apply table_inv_inserted; try assumption; apply placed_new; assumption |].
    split; [reflexivity |]. split; [reflexivity |].
    split; [apply (content_inserted t _ chain (mkCarrier (Cstr s true) v) Hb)
           | repeat split].
Qed.

(** The loop of [perform_rehash] over carriers whose hash codes are not
    negative, when no insertion makes the new table grow: every carrier
    arrives with its value, and the release routine sees [NULL] only. *)
Lemma rehash_chain_content fuel es : forall tn l,
  table_inv tn ->
  size tn + Z.of_nat (length es) <= INT_MAX ->
  Forall (fun x => key_ok (key x) = true) es ->
  Forall (fun x => 0 <= hash (chars (key x))) es ->
  NoDup (map (fun x => chars (key x)) es) ->
  (forall x, x ∈ keys tn -> x ∉ map (fun x => chars (key x)) es) ->
  (forall j, size tn < j <= size tn + Z.of_nat (length es) ->
             grows j (capacity tn) = false) ->
  exists t',
    rehash_chain (croquette_put_fuel (S fuel)) es (live tn D_No_Error l)
    = Ret tt (live t' D_No_Error (l ++ rehash_releases tn (length es))) /\
    table_inv t' /\ capacity t' = capacity tn /\ same_config tn t' /\
    content t' ≡ₚ content tn ++ map (fun x => (chars (key x), value x)) es /\
    size t' = size tn + Z.of_nat (length es).
Proof.
  induction es as [| x es IH]; intros tn l Hinv Hsize Hgood Hpos Hnd Hfresh Hload.
  - exists tn. split.
    + unfold rehash_releases. cbn [rehash_chain length replicate].
      destruct (do_free tn =? D_Do_Free); rewrite app_nil_r; reflexivity.
    + split; [assumption |]. split; [reflexivity |]. split; [apply same_config_refl |].
      cbn [map length]. split; [rewrite app_nil_r; reflexivity | lia].
  - inversion Hgood as [| ? ? Hkx Hges]; subst.
    inversion Hpos as [| ? ? Hhx Hpes]; subst.
    cbn [map] in Hnd. apply NoDup_cons in Hnd as [Hx Hnd].
    cbn [length] in Hsize, Hload.
    pose proof (inv_capacity tn Hinv) as Hcap.
    pose proof (key_ok_inv _ Hkx) as (Hterm & Hnul & Hlen).
    destruct x as [[s tm] vx]. cbn [key value chars terminated] in *. subst tm.
    assert (Hne : s <> EmptyString) by (intros ->; cbn in Hlen; lia).
    assert (Habs : s ∉ keys tn).
    { intros Hin. apply (Hfresh _ Hin). cbn [map key chars]. apply list_elem_of_here. }
    assert (Hidx : 0 <= Z.rem (hash s) (capacity tn)) by (apply Z.rem_nonneg; lia).
    cbn [rehash_chain map key value chars].
    change (croquette_put_fuel (S fuel)) with (put_body (croquette_put_fuel fuel)).
    destruct (put_body_new_content (croquette_put_fuel fuel) s vx tn D_No_Error l
                Hinv Hnul Hne (proj2 Hlen) Hidx Habs ltac:(lia)
                (Hload (size tn + 1) ltac:(lia)))
      as (t1 & Hrun & Hinv1 & Hsize1 & Hcap1 & Hcont1 & Hcfg1).
    unfold str in Hrun. erewrite bind_Ret by exact Hrun.
    erewrite bind_Ret by (apply free_entry_eq; apply (inv_free t1 Hinv1)).
    cbn [value].
    destruct (IH t1 (l ++ (if do_free t1 =? D_Do_Free then [NULL] else []))
                Hinv1 ltac:(lia) Hges Hpes Hnd) as (t2 & Hrun2 & Hinv2 & Hcap2 & Hcfg2
                                                   & Hcont2 & Hsize2).
    + intros y Hy. rewrite (content_keys _ _ _ Hcont1) in Hy. cbn [fst] in Hy.
      apply elem_of_cons in Hy as [-> | Hy]; [exact Hx |].
      intros Hin. apply (Hfresh y Hy). cbn [map]. apply list_elem_of_further. exact Hin.
    + intros j Hj. rewrite Hcap1. apply Hload. lia.
    + exists t2. split.
      * change (put_body (croquette_put_fuel fuel)) with (croquette_put_fuel (S fuel)).
        rewrite Hrun2. rewrite <- app_assoc, rehash_releases_S.
        rewrite (rehash_releases_config tn t1 _ Hcfg1). reflexivity.
      * split; [assumption |]. split; [lia |].
        split; [eapply same_config_trans; eassumption |].
        split; [| cbn [length]; lia].
        rewrite Hcont2, Hcont1. cbn [app]. apply Permutation_middle.
Qed.

(** ** Insertion of a new key *)

(** What [croquette_put] passes to the release routine when it inserts a
    new key into the table [t]. *)
Lemma put_new_content fuel s v t e l :
  table_inv t -> storable s = true -> s ∉ keys t ->
  nonneg_keys t = true ->
  size t < capacity t ->
  (grows (size t + 1) (capacity t) = true -> 2 * capacity t <= INT_MAX) ->
  exists t',
    croquette_put_fuel (S (S fuel)) (Some (str s)) v (live t e l)
    = Ret D_Success
        (live t' D_No_Error
           (l ++ if grows (size t + 1) (capacity t)
                 then rehash_releases t (S (length (entries t))) else [])) /\
    inserted_one s t t' /\ content t' ≡ₚ (s, v) :: content t.
Proof.
  intros Hinv Hst Habs Hnn Hload Hmax.
  pose proof (inv_capacity t Hinv) as Hcap.
  apply storable_inv in Hst as (Hk & Hne & Hlen & Hhash).
  assert (Hidx : 0 <= Z.rem (hash s) (capacity t)) by (apply Z.rem_nonneg; lia).
  change (croquette_put_fuel (S (S fuel)))
    with (put_body (croquette_put_fuel (S fuel))).
  destruct (grows (size t + 1) (capacity t)) eqn:Hgrow.
  2:{ destruct (put_body_new_content (croquette_put_fuel (S fuel)) s v t e l
                  Hinv Hk Hne Hlen Hidx Habs ltac:(lia) Hgrow)
        as (t' & Hrun & Hinv' & Hsize' & Hcap' & Hcont' & Hcfg').
      exists t'. rewrite app_nil_r. split; [exact Hrun |]. split; [| exact Hcont'].
      unfold inserted_one. rewrite Hgrow.
      split; [assumption |]. split; [assumption |]. split; [assumption |].
      split; [apply (content_keys t t' (s, v) Hcont') |]. split; [assumption |].
      apply no_growth_load in Hgrow. lia. }
  specialize (Hmax eq_refl).
  destruct (bucket_lookup t (Z.rem (hash s) (capacity t)) Hinv) as [chain Hb];
    [split; [assumption | apply rem_lt; lia] |].
  pose proof (absent_chain_find t s _ chain Hb Habs) as Hfind.
  set (t1 := inserted (Z.rem (hash s) (capacity t)) chain (mkCarrier (Cstr s true) v) t).
  assert (Hinv1 : table_inv t1).
  { apply table_inv_inserted; try assumption; [apply placed_new; assumption | lia]. }
  pose proof (content_inserted t _ chain (mkCarrier (Cstr s true) v) Hb) as Hcont1.
  fold t1 in Hcont1. cbn [key value chars] in Hcont1.
  pose proof (content_keys _ _ _ Hcont1) as Hkeys1. cbn [fst] in Hkeys1.
  assert (Hnc : to_int (Z.shiftl (capacity t) 1) = 2 * capacity t).
  { rewrite Z.shiftl_mul_pow2 by lia. change (2 ^ 1) with 2.
    rewrite to_int_small by (unfold INT_MAX in *; lia). lia. }
  assert (Hput : put_body (croquette_put_fuel (S fuel)) (Some (str s)) v (live t e l)
                 = bind (bind (bind (rehash_chain (croquette_put_fuel (S fuel)) (entries t1))
                                 (fun _ => ret D_Success)) propagate) propagate
                     (live (rehashed (2 * capacity t) t1) D_No_Error l)).
  { unfold str.
    rewrite (put_body_insert _ s v t e l chain) by (try assumption; lia).
    fold t1. unfold bind at 1. rewrite rehash_insert_eq.
    cbn [t1 size capacity inserted with_size with_table]. rewrite Hgrow.
    fold t1. rewrite Hnc. unfold bind at 1.
    rewrite perform_rehash_eq by (try lia; apply (inv_length t1 Hinv1)).
    reflexivity. }
  assert (Hlen1 : length (entries t1) = S (length (entries t))).
  { apply (Permutation_length (entries_inserted t _ chain
                                 (mkCarrier (Cstr s true) v) Hb)). }
  destruct (rehash_chain_content fuel (entries t1) (rehashed (2 * capacity t) t1) l)
    as (t2 & Hrun2 & Hinv2 & Hcap2 & Hcfg2 & Hcont2 & Hsize2).
  - apply table_inv_rehashed; [assumption | lia].
  - cbn [size rehashed with_size]. rewrite <- (inv_size t1 Hinv1).
    pose proof (inv_size_max t1 Hinv1). lia.
  - apply (entries_keys_ok t1 Hinv1).
  - apply Forall_forall. intros x Hx.
    assert (Hin : chars (key x) ∈ keys t1).
    { unfold keys. apply list_elem_of_fmap. exists x. split; [reflexivity | exact Hx]. }
    rewrite Hkeys1 in Hin. apply elem_of_cons in Hin as [-> | Hin]; [assumption |].
    apply (proj1 (nonneg_keys_spec t) Hnn). exact Hin.
  - apply (inv_distinct t1 Hinv1).
  - rewrite keys_rehashed. intros x Hx. apply elem_of_nil in Hx. contradiction.
  - cbn [size capacity rehashed with_size with_capacity with_table].
    rewrite <- (inv_size t1 Hinv1). cbn [t1 size inserted with_size].
    intros j Hj. apply (no_growth_after_doubling (size t) (capacity t)); lia.
  - cbn [size capacity rehashed with_size with_capacity with_table]
      in Hcap2, Hsize2.
    rewrite content_rehashed in Hcont2. cbn [app] in Hcont2.
    fold (content t1) in Hcont2.
    assert (Hcfg : same_config t t2).
    { eapply same_config_trans; [| exact Hcfg2]. repeat split. }
    exists t2. split.
    + rewrite Hput. rewrite !bind_assoc.
      erewrite bind_Ret by exact Hrun2.
      rewrite Hlen1.
      assert (Hrel : rehash_releases (rehashed (2 * capacity t) t1)
                       (S (length (entries t)))
                     = rehash_releases t (S (length (entries t)))) by reflexivity.
      rewrite Hrel. reflexivity.
    + assert (Hsz : size t2 = size t + 1).
      { rewrite Hsize2, Hlen1, (inv_size t Hinv). lia. }
      split; [| rewrite Hcont2; exact Hcont1].
      unfold inserted_one. rewrite Hgrow.
      split; [assumption |]. split; [assumption |]. split; [assumption |].
      split; [apply (content_keys t t2 (s, v)); rewrite Hcont2; exact Hcont1 |].
      split; [assumption | lia].
Qed.

Lemma rehash_releases_app t n m :
  rehash_releases t n ++ rehash_releases t m = rehash_releases t (n + m).
Proof.
  unfold rehash_releases. destruct (do_free t =? D_Do_Free); [| reflexivity].
  symmetry. apply replicate_add.
Qed.

Lemma nonneg_keys_content t t' s v :
  nonneg_keys t = true -> 0 <= hash s ->
  content t' ≡ₚ (s, v) :: content t -> nonneg_keys t' = true.
Proof.
  intros Hnn Hs Hc. apply nonneg_keys_spec. intros x Hx.
  rewrite (content_keys t t' (s, v) Hc) in Hx. cbn [fst] in Hx.
  apply elem_of_cons in Hx as [-> | Hx]; [assumption |].
  apply (proj1 (nonneg_keys_spec t) Hnn). exact Hx.
Qed.

(** The loop of [perform_rehash] in general: an insertion may make the new
    table grow in its turn.  [Cap] holds of the capacities that the new
    table can take. *)
Lemma rehash_chain_puts (Cap : Z -> Prop) fuel es : forall tn l,
  table_inv tn -> nonneg_keys tn = true ->
  size tn < capacity tn -> Cap (capacity tn) ->
  (forall c j, Cap c -> size tn < j <= size tn + Z.of_nat (length es) ->
               grows j c = true -> 2 * c <= INT_MAX /\ Cap (2 * c)) ->
  Forall (fun x => key_ok (key x) = true) es ->
  Forall (fun x => 0 <= hash (chars (key x))) es ->
  NoDup (map (fun x => chars (key x)) es) ->
  (forall x, x ∈ keys tn -> x ∉ map (fun x => chars (key x)) es) ->
  exists t' k,
    rehash_chain (croquette_put_fuel (S (S fuel))) es (live tn D_No_Error l)
    = Ret tt (live t' D_No_Error (l ++ rehash_releases tn k)) /\
    table_inv t' /\ nonneg_keys t' = true /\ size t' < capacity t' /\
    Cap (capacity t') /\ capacity tn <= capacity t' /\ same_config tn t' /\
    content t' ≡ₚ content tn ++ map (fun x => (chars (key x), value x)) es /\
    size t' = size tn + Z.of_nat (length es).
Proof.
  induction es as [| x es IH];
    intros tn l Hinv Hnn Hload Hc Hstep Hgood Hpos Hnd Hfresh.
  - exists tn, 0%nat. split.
    + unfold rehash_releases. cbn [rehash_chain replicate].
      destruct (do_free tn =? D_Do_Free); rewrite app_nil_r; reflexivity.
    + split; [assumption |]. split; [assumption |]. split; [assumption |].
      split; [assumption |]. split; [lia |]. split; [apply same_config_refl |].
      cbn [map length]. split; [rewrite app_nil_r; reflexivity | lia].
  - inversion Hgood as [| ? ? Hkx Hges]; subst.
    inversion Hpos as [| ? ? Hhx Hpes]; subst.
    cbn [map] in Hnd. apply NoDup_cons in Hnd as [Hx Hnd].
    cbn [length] in Hstep.
    pose proof (inv_capacity tn Hinv) as Hcap.
    pose proof (key_ok_inv _ Hkx) as (Hterm & Hnul & Hlen).
    destruct x as [[s tm] vx]. cbn [key value chars terminated] in *. subst tm.
    assert (Hne : s <> EmptyString) by (intros ->; cbn in Hlen; lia).
    assert (Habs : s ∉ keys tn).
    { intros Hin. apply (Hfresh _ Hin). cbn [map key chars]. apply list_elem_of_here. }
    assert (Hst : storable s = true).
    { unfold storable. rewrite Hnul. cbn [andb].
      rewrite (proj2 (Z.ltb_lt _ _) (proj1 Hlen)), (proj2 (Z.ltb_lt _ _) (proj2 Hlen)).
      cbn [andb]. apply Z.leb_le. assumption. }
    cbn [rehash_chain map key value chars].
    destruct (put_new_content fuel s vx tn D_No_Error l Hinv Hst Habs Hnn Hload)
      as (t1 & Hrun & Hone & Hcont1).
    { intros Hg. apply (Hstep (capacity tn) (size tn + 1) Hc ltac:(lia) Hg). }
    destruct Hone as (Hinv1 & Hsize1 & Hcap1 & Hkeys1 & Hcfg1 & Hload1).
    unfold str in Hrun. erewrite bind_Ret by exact Hrun.
    erewrite bind_Ret by (apply free_entry_eq; apply (inv_free t1 Hinv1)).
    cbn [value].
    assert (Hc1 : Cap (capacity t1) /\ capacity tn <= capacity t1).
    { rewrite Hcap1. destruct (grows (size tn + 1) (capacity tn)) eqn:Hg.
      - split; [| lia]. apply (Hstep (capacity tn) (size tn + 1) Hc ltac:(lia) Hg).
      - split; [assumption | lia]. }
    destruct (IH t1 ((l ++ (if grows (size tn + 1) (capacity tn)
                            then rehash_releases tn (S (length (entries tn)))
                            else []))
                     ++ (if do_free t1 =? D_Do_Free then [NULL] else []))
                Hinv1 (nonneg_keys_content tn t1 s vx Hnn Hhx Hcont1) Hload1
                (proj1 Hc1))
      as (t2 & k & Hrun2 & Hinv2 & Hnn2 & Hload2 & Hc2 & Hle2 & Hcfg2 & Hcont2 & Hsize2);
      try assumption.
    + intros c j Hcc Hj. apply Hstep; [assumption | lia].
    + intros y Hy. rewrite Hkeys1 in Hy.
      apply elem_of_cons in Hy as [-> | Hy]; [exact Hx |].
      intros Hin. apply (Hfresh y Hy). cbn [map]. apply list_elem_of_further. exact Hin.
    + exists t2, ((if grows (size tn + 1) (capacity tn)
                   then S (length (entries tn)) else 0) + 1 + k)%nat.
      split.
      * rewrite Hrun2. f_equal. f_equal.
        rewrite (rehash_releases_config tn t1 _ Hcfg1).
        rewrite <- !rehash_releases_app, <- !app_assoc. f_equal.
        destruct Hcfg1 as (Hd & _). rewrite Hd.
        unfold rehash_releases.
        destruct (grows (size tn + 1) (capacity tn));
          destruct (do_free tn =? D_Do_Free); reflexivity.
      * split; [assumption |]. split; [assumption |]. split; [assumption |].
        split; [assumption |]. split; [lia |].
        split; [eapply same_config_trans; eassumption |].
        split; [| cbn [length]; lia].
        rewrite Hcont2, Hcont1. cbn [app]. apply Permutation_middle.
Qed.

(** ** Removal *)

Lemma content_removed t b p chain e :
  table t !! b = Some chain -> chain !! p = Some e ->
  content t
  ≡ₚ (chars (key e), value e)
     :: content (with_size (size t - 1)
                   (with_table (<[b := take p chain ++ drop (S p) chain]> (table t)) t)).
Proof.
  intros Hb Hp. unfold content, entries at 1.
  rewrite (entries_removed (table t) b p chain e Hb Hp). reflexivity.
Qed.

(** The carrier of a stored key, as [croquette_find] finds it. *)
Lemma stored_found t s old :
  table_inv t -> stored t s = Some old ->
  nul_free s = true /\ s <> EmptyString /\
  Z.of_nat (String.length s) < MAX_KEY_SIZE /\
  0 <= Z.rem (hash s) (capacity t) /\
  exists chain p entry,
    table t !! Z.to_nat (Z.rem (hash s) (capacity t)) = Some chain /\
    chain_find s chain 0 = Some p /\ chain !! p = Some entry /\
    key entry = Cstr s true /\ value entry = old.
Proof.
  intros Hinv Hst.
  assert (Hin : s ∈ keys t) by (apply stored_is_Some; eexists; exact Hst).
  destruct (key_in_its_bucket t s Hinv Hin) as (chain & Hidx & Hb & Hc).
  destruct (chain_find s chain 0) as [p |] eqn:Hfind.
  2:{ exfalso. apply (proj1 (chain_find_None s chain 0) Hfind Hc). }
  destruct (present_in_bucket t s chain p Hb Hfind) as (entry & Hp & Hs & _).
  pose proof (list_elem_of_lookup_2 _ _ _ Hp) as He.
  pose proof (proj1 (Forall_forall _ _) (bucket_keys_ok t _ chain Hinv Hb) entry He) as Hok.
  cbv beta in Hok. apply key_ok_inv in Hok as (Hterm & Hnul & Hlen).
  pose proof (stored_entry t _ chain entry Hinv Hb He) as Hv.
  rewrite Hs, Hst in Hv. injection Hv as Hv.
  rewrite Hs in Hnul, Hlen.
  split; [assumption |]. split; [intros ->; cbn in Hlen; lia |].
  split; [lia |]. split; [assumption |].
  exists chain, p, entry. split; [assumption |]. split; [exact Hfind |].
  split; [assumption |]. split; [| congruence].
  destruct (key entry) as [cs tm]. cbn in Hs, Hterm. subst. reflexivity.
Qed.

Lemma shrink_capacities h n :
  1 <= h -> n < h ->
  forall c j, (c = h \/ c = 2 * h) -> 0 < j <= n ->
              grows j c = true -> 2 * c <= 2 * h /\ (2 * c = h \/ 2 * c = 2 * h).
Proof.
  intros Hh Hn c j [-> | ->] Hj Hg; [lia |].
  rewrite (no_growth_after_doubling n h j) in Hg by lia. discriminate.
Qed.

Lemma shiftr_1_bounds c : 0 <= c -> 2 * Z.shiftr c 1 <= c /\ 0 <= Z.shiftr c 1.
Proof.
  intros Hc. rewrite Z.shiftr_div_pow2 by lia. change (2 ^ 1) with 2.
  pose proof (Z.mul_div_le c 2 ltac:(lia)).
  pose proof (Z.div_pos c 2 Hc ltac:(lia)). lia.
Qed.

(** The removal of a stored key. *)
Lemma croquette_remove_content s t e l old :
  table_inv t -> nonneg_keys t = true -> stored t s = Some old ->
  exists t' k,
    croquette_remove (Some (str s)) (live t e l)
    = Ret D_Success
        (live t' D_No_Error
           (l ++ (if do_free t =? D_Do_Free then [old] else [])
              ++ rehash_releases t k)) /\
    table_inv t' /\ nonneg_keys t' = true /\ same_config t t' /\
    content t ≡ₚ (s, old) :: content t' /\ size t' = size t - 1 /\
    ((size t - 1 <? Z.shiftr (capacity t) 1) = false -> capacity t' = capacity t) /\
    ((size t - 1 <? Z.shiftr (capacity t) 1) = true ->
     capacity t' = Z.shiftr (capacity t) 1 \/
     capacity t' = 2 * Z.shiftr (capacity t) 1) /\
    (size t <= capacity t -> size t' < capacity t').
Proof.
  intros Hinv Hnn Hst. pose proof (inv_capacity t Hinv) as Hcap.
  destruct (stored_found t s old Hinv Hst)
    as (Hk & Hne & Hlen & Hidx & chain & p & entry & Hb & Hfind & Hp & Hkey & Hval).
  set (b := Z.to_nat (Z.rem (hash s) (capacity t))) in *.
  set (t1 := with_size (size t - 1)
               (with_table (<[b := take p chain ++ drop (S p) chain]> (table t)) t)).
  assert (Hinv1 : table_inv t1) by (apply (table_inv_removed t b p chain entry); assumption).
  pose proof (content_removed t b p chain entry Hb Hp) as Hcont1.
  fold t1 in Hcont1. rewrite Hkey, Hval in Hcont1. cbn [chars] in Hcont1.
  assert (Hnn1 : nonneg_keys t1 = true).
  { apply nonneg_keys_spec. intros x Hx.
    apply (proj1 (nonneg_keys_spec t) Hnn).
    rewrite (content_keys t1 t (s, old) Hcont1). apply list_elem_of_further. exact Hx. }
  assert (Hcfg1 : same_config t t1) by (repeat split).
  unfold str. rewrite croquette_remove_find by assumption.
  pose proof (croquette_find_eq t D_No_Error l s Hinv Hk Hne) as Hf.
  cbv zeta in Hf.
  assert (H1 : (Z.rem (hash s) (capacity t) =? D_Error) = false)
    by (apply Z.eqb_neq; unfold D_Error; lia).
  assert (H2 : (Z.rem (hash s) (capacity t) <? 0) = false) by (apply Z.ltb_ge; lia).
  rewrite H1, H2 in Hf. fold b in Hf. rewrite Hb, Hfind in Hf. cbn [option_map] in Hf.
  erewrite bind_Ret by exact Hf. cbv beta iota.
  erewrite bind_Ret by (apply (remove_entry_eq t D_No_Error l b p chain entry); assumption).
  fold t1. rewrite Hval.
  change (bind (rehash croquette_put D_Remove) _)
    with (bind (rehash croquette_put D_Remove) propagate).
  unfold bind at 1. rewrite rehash_remove_eq.
  change (size t1) with (size t - 1). change (capacity t1) with (capacity t).
  destruct (size t - 1 <? Z.shiftr (capacity t) 1) eqn:Hshrink.
  2:{ exists t1, 0%nat. split.
      - unfold rehash_releases. cbn [replicate].
        destruct (do_free t =? D_Do_Free); rewrite ?app_nil_r; reflexivity.
      - split; [assumption |]. split; [assumption |]. split; [assumption |].
        split; [assumption |]. split; [reflexivity |]. split; [reflexivity |].
        split; [discriminate |]. intros Hle. change (size t1) with (size t - 1).
        change (capacity t1) with (capacity t). lia. }
  apply Z.ltb_lt in Hshrink.
  pose proof (shiftr_1_bounds (capacity t) ltac:(lia)) as [Hh2 Hh0].
  set (h := Z.shiftr (capacity t) 1) in *.
  pose proof (inv_size t1 Hinv1) as Hsz1. change (size t1) with (size t - 1) in Hsz1.
  assert (Hh : 1 <= h) by lia.
  unfold bind at 1.
  rewrite perform_rehash_eq by (try lia; apply (inv_length t1 Hinv1)).
  change croquette_put with (croquette_put_fuel (S (S 30))).
  destruct (rehash_chain_puts (fun c => c = h \/ c = 2 * h) 30 (entries t1)
              (rehashed h t1)
              (l ++ (if do_free t =? D_Do_Free then [old] else [])))
    as (t2 & k & Hrun2 & Hinv2 & Hnn2 & Hload2 & Hc2 & Hle2 & Hcfg2 & Hcont2 & Hsize2).
  - apply table_inv_rehashed; [assumption | lia].
  - unfold nonneg_keys. rewrite keys_rehashed. reflexivity.
  - cbn [size capacity rehashed with_size with_capacity with_table]. lia.
  - left. reflexivity.
  - cbn [size capacity rehashed with_size with_capacity with_table].
    intros c j Hc Hj Hg.
    destruct (shrink_capacities h (size t - 1) Hh Hshrink c j Hc ltac:(lia) Hg)
      as [Hb2 Hc2].
    split; [lia | exact Hc2].
  - apply (entries_keys_ok t1 Hinv1).
  - apply Forall_forall. intros x Hx.
    apply (proj1 (nonneg_keys_spec t1) Hnn1).
    unfold keys. apply list_elem_of_fmap. exists x. split; [reflexivity | exact Hx].
  - apply (inv_distinct t1 Hinv1).
  - rewrite keys_rehashed. intros x Hx. apply elem_of_nil in Hx. contradiction.
  - cbn [size capacity rehashed with_size with_capacity with_table]
      in Hle2, Hsize2.
    rewrite content_rehashed in Hcont2. cbn [app] in Hcont2.
    fold (content t1) in Hcont2.
    exists t2, k. split.
    + erewrite bind_Ret by exact Hrun2.
      assert (Hrel : rehash_releases (rehashed h t1) k = rehash_releases t k)
        by reflexivity.
      rewrite Hrel, <- app_assoc. reflexivity.
    + split; [assumption |]. split; [assumption |].
      split; [eapply same_config_trans; [| exact Hcfg2]; repeat split |].
      split; [rewrite Hcont2; exact Hcont1 |].
      split; [lia |]. split; [discriminate |].
      split; [intros _; exact Hc2 |]. intros _. exact Hload2.
Qed.

(** The removal of a key that is not stored. *)
Lemma croquette_remove_absent s t e l :
  table_inv t -> nul_free s = true -> s <> EmptyString ->
  D_Error <= Z.rem (hash s) (capacity t) ->
  stored t s = None ->
  croquette_remove (Some (str s)) (live t e l) = Ret D_Success (live t D_No_Error l).
Proof.
  intros Hinv Hk Hne Hidx Hst. pose proof (inv_capacity t Hinv) as Hcap.
  apply stored_None in Hst.
  unfold str. rewrite croquette_remove_find by assumption.
  pose proof (croquette_find_eq t D_No_Error l s Hinv Hk Hne) as Hf.
  cbv zeta in Hf.
  destruct (Z.rem (hash s) (capacity t) =? D_Error) eqn:Herr.
  { erewrite bind_Ret by exact Hf. reflexivity. }
  apply Z.eqb_neq in Herr.
  assert (H2 : (Z.rem (hash s) (capacity t) <? 0) = false)
    by (apply Z.ltb_ge; unfold D_Error in *; lia).
  rewrite H2 in Hf. apply Z.ltb_ge in H2.
  destruct (bucket_lookup t (Z.rem (hash s) (capacity t)) Hinv) as [chain Hb];
    [split; [assumption | apply rem_lt; lia] |].
  rewrite Hb, (absent_chain_find t s _ chain Hb Hst) in Hf.
  erewrite bind_Ret by exact Hf. reflexivity.
Qed.

(** ** The stored values after a change *)

Lemma stored_cons t s v R :
  table_inv t -> content t ≡ₚ (s, v) :: R ->
  stored t s = Some v /\ forall x, x <> s -> stored t x = assoc x R.
Proof.
  intros Hinv Hc.
  assert (Hnd : NoDup (map fst (content t)))
    by (rewrite <- keys_content; apply (inv_distinct t Hinv)).
  split.
  - unfold stored. rewrite (assoc_perm s _ _ Hnd Hc). cbn [assoc].
    rewrite String.eqb_refl. reflexivity.
  - intros x Hx. unfold stored. rewrite (assoc_perm x _ _ Hnd Hc). cbn [assoc].
    destruct (String.eqb_spec s x) as [-> | _]; [congruence | reflexivity].
Qed.

Lemma stored_added t t' s v :
  table_inv t' -> content t' ≡ₚ (s, v) :: content t ->
  stored t' s = Some v /\ forall x, x <> s -> stored t' x = stored t x.
Proof. intros Hinv Hc. apply (stored_cons t' s v (content t) Hinv Hc). Qed.

Lemma stored_dropped t t' s v :
  table_inv t -> content t ≡ₚ (s, v) :: content t' ->
  stored t' s = None /\ forall x, x <> s -> stored t' x = stored t x.
Proof.
  intros Hinv Hc. split.
  - apply stored_None. intros Hin.
    pose proof (inv_distinct t Hinv) as Hnd.
    rewrite (content_keys t' t (s, v) Hc) in Hnd. cbn [fst] in Hnd.
    apply NoDup_cons in Hnd as [Hs _]. contradiction.
  - intros x Hx. symmetry. apply (stored_cons t s v (content t') Hinv Hc). exact Hx.
Qed.

(** ** Replacing the value of a stored key *)

Lemma content_with_size n t : content (with_size n t) = content t.
Proof. reflexivity. Qed.

Lemma content_updated t b p chain e v :
  table t !! b = Some chain -> chain !! p = Some e ->
  exists R,
    content t ≡ₚ (chars (key e), value e) :: R /\
    content (with_table (<[b := <[p := mkCarrier (key e) v]> chain]> (table t)) t)
    ≡ₚ (chars (key e), v) :: R.
Proof.
  intros Hb Hp.
  pose proof (lookup_lt_Some _ _ _ Hb) as Hlb.
  pose proof (lookup_lt_Some _ _ _ Hp) as Hlp.
  set (t' := with_table (<[b := <[p := mkCarrier (key e) v]> chain]> (table t)) t).
  exists (content (with_size (size t - 1)
                     (with_table (<[b := take p chain ++ drop (S p) chain]> (table t)) t))).
  split; [apply content_removed; assumption |].
  assert (Hb' : table t' !! b = Some (<[p := mkCarrier (key e) v]> chain)).
  { cbn [t' with_table table]. apply list_lookup_insert_eq. exact Hlb. }
  assert (Hp' : <[p := mkCarrier (key e) v]> chain !! p = Some (mkCarrier (key e) v)).
  { apply list_lookup_insert_eq. exact Hlp. }
  pose proof (content_removed t' b p _ _ Hb' Hp') as H.
  cbn [key value] in H. rewrite H. apply Permutation_cons; [reflexivity |].
  rewrite !content_with_size. unfold content, entries.
  cbn [t' with_table table].
  rewrite list_insert_insert_eq.
  rewrite take_insert_ge by lia. rewrite drop_insert_lt by lia. reflexivity.
Qed.

Lemma croquette_put_update s v t e l old f :
  table_inv t -> stored t s = Some old -> value_compare t = Some f ->
  (to_int (f old v) = 0 ->
   croquette_put (Some (str s)) v (live t e l) = Ret D_Success (live t D_No_Error l)) /\
  (to_int (f old v) <> 0 -> free_value t = false ->
   croquette_put (Some (str s)) v (live t e l) = Fault) /\
  (to_int (f old v) <> 0 -> free_value t = true ->
   exists t',
     croquette_put (Some (str s)) v (live t e l)
     = Ret D_Success (live t' D_No_Error (l ++ [old])) /\
     table_inv t' /\ keys t' = keys t /\ size t' = size t /\
     capacity t' = capacity t /\ same_config t t' /\
     stored t' s = Some v /\ forall x, x <> s -> stored t' x = stored t x).
Proof.
  intros Hinv Hst Hf. pose proof (inv_capacity t Hinv) as Hcap.
  destruct (stored_found t s old Hinv Hst)
    as (Hk & Hne & Hlen & Hidx & chain & p & entry & Hb & Hfind & Hp & Hkey & Hval).
  set (b := Z.to_nat (Z.rem (hash s) (capacity t))) in *.
  pose proof (croquette_find_eq t D_No_Error l s Hinv Hk Hne) as Hfd.
  cbv zeta in Hfd.
  assert (H1 : (Z.rem (hash s) (capacity t) =? D_Error) = false)
    by (apply Z.eqb_neq; unfold D_Error; lia).
  assert (H2 : (Z.rem (hash s) (capacity t) <? 0) = false) by (apply Z.ltb_ge; lia).
  rewrite H1, H2 in Hfd. fold b in Hfd. rewrite Hb, Hfind in Hfd.
  cbn [option_map] in Hfd.
  pose proof (put_body_update (croquette_put_fuel 31) s v t e l b p chain entry f
                Hinv Hk Hne Hfd Hb Hp Hf) as Hrun.
  change (put_body (croquette_put_fuel 31)) with croquette_put in Hrun.
  fold (str s) in Hrun. rewrite Hval in Hrun.
  split; [| split].
  - intros H0. rewrite Hrun, H0. reflexivity.
  - intros H0 Hfv. rewrite Hrun, (proj2 (Z.eqb_neq _ _) H0), Hfv. reflexivity.
  - intros H0 Hfv. rewrite Hrun, (proj2 (Z.eqb_neq _ _) H0), Hfv.
    eexists. split; [reflexivity |].
    pose proof (table_inv_updated t b p chain entry v Hinv Hb Hp) as Hinv'.
    split; [exact Hinv' |].
    split; [apply (keys_updated (table t) b p chain entry v Hb Hp) |].
    split; [reflexivity |]. split; [reflexivity |]. split; [repeat split |].
    destruct (content_updated t b p chain entry v Hb Hp) as (R & Hc & Hc').
    assert (Hks : chars (key entry) = s) by (rewrite Hkey; reflexivity).
    rewrite Hks in Hc, Hc'. rewrite Hval in Hc.
    destruct (stored_cons _ s v R Hinv' Hc') as [Hs' Hx'].
    destruct (stored_cons _ s old R Hinv Hc) as [_ Hx].
    split; [exact Hs' |]. intros x Hne'. rewrite Hx', Hx by assumption. reflexivity.
Qed.

(** ** The interface on well-formed tables *)

Lemma croquette_put_new s v t e l :
  table_inv t -> storable s = true -> stored t s = None ->
  nonneg_keys t = true ->
  size t < capacity t -> 2 * capacity t <= INT_MAX ->
  exists t',
    croquette_put (Some (str s)) v (live t e l)
    = Ret D_Success
        (live t' D_No_Error
           (l ++ if grows (size t + 1) (capacity t)
                 then rehash_releases t (S (length (entries t))) else [])) /\
    inserted_one s t t' /\ content t' ≡ₚ (s, v) :: content t.
Proof.
  intros Hinv Hst Habs Hnn Hload Hmax.
  change croquette_put with (croquette_put_fuel (S (S 30))).
  apply put_new_content; try assumption.
  - apply stored_None. assumption.
  - intros _. assumption.
Qed.

Lemma lookup_stored t e l s :
  table_inv t -> nul_free s = true -> s <> EmptyString ->
  0 <= Z.rem (hash s) (capacity t) ->
  croquette_get (Some (str s)) (live t e l)
  = Ret (default NULL (stored t s)) (live t D_No_Error l) /\
  croquette_containsKey (Some (str s)) (live t e l)
  = Ret (match stored t s with Some _ => 1 | None => 0 end) (live t D_No_Error l).
Proof.
  intros Hinv Hk Hne Hidx.
  assert (H1 : (Z.rem (hash s) (capacity t) =? D_Error) = false)
    by (apply Z.eqb_neq; unfold D_Error; lia).
  assert (H2 : (Z.rem (hash s) (capacity t) <? 0) = false) by (apply Z.ltb_ge; lia).
  split.
  - rewrite croquette_get_eq, H1, H2 by assumption. reflexivity.
  - rewrite croquette_containsKey_eq, H1, H2 by assumption.
    destruct (stored t s) as [x |] eqn:Hst.
    + assert (Hin : existsb (String.eqb s) (keys t) = true).
      { apply existsb_eqb_elem_of, stored_is_Some. eexists. exact Hst. }
      rewrite Hin. reflexivity.
    + destruct (existsb (String.eqb s) (keys t)) eqn:Hex; [| reflexivity].
      exfalso. apply existsb_eqb_elem_of in Hex.
      apply (proj1 (stored_None t s) Hst Hex).
Qed.

Lemma storable_index s c : storable s = true -> 1 <= c -> 0 <= Z.rem (hash s) c.
Proof.
  intros Hst Hc. apply storable_inv in Hst as (_ & _ & _ & Hh).
  apply Z.rem_nonneg; lia.
Qed.

(** X1: Lookups of a key whose bucket index is inside the array:
    [croquette_get] returns the value stored for the key, or [NULL] when
    there is none; [croquette_containsKey] tells whether there is one. Both
    leave the table and the released values as they are and reset the error
    slot. *)
Theorem lookup_returns_stored_value (t : Croquette_s) (e : Z) (l : list Z) (s : string) :
  table_ok t = true -> nul_free s = true -> s <> EmptyString ->
  0 <= Z.rem (hash s) (capacity t) ->
  croquette_get (Some (str s)) (live t e l)
  = Ret (default NULL (stored t s)) (live t D_No_Error l) /\
  croquette_containsKey (Some (str s)) (live t e l)
  = Ret (match stored t s with Some _ => 1 | None => 0 end) (live t D_No_Error l).
Proof.
  intros Hok Hk Hne Hidx. apply lookup_stored; try assumption.
  apply table_ok_inv. assumption.
Qed.

Lemma lookup_returns_stored_value_witness :
  croquette_get (Some (str "aaa")) (live small_table 7 [])
  = Ret 21 (live small_table D_No_Error []) /\
  croquette_containsKey (Some (str "aaa")) (live small_table 7 [])
  = Ret 1 (live small_table D_No_Error []).
Proof.
  apply (lookup_returns_stored_value small_table 7 [] "aaa").
  - reflexivity.
  - reflexivity.
  - discriminate.
  - vm_compute. discriminate.
Defined.

(** X2: Insertion and lookup: after [croquette_put] has inserted a new
    storable key with the value [v], [croquette_get] returns [v] for the
    key, [croquette_containsKey] returns 1 and the size is one more. *)
Theorem put_new_key_then_lookup
    (t : Croquette_s) (e : Z) (l : list Z) (s : string) (v : Z) :
  table_ok t = true -> nonneg_keys t = true ->
  size t < capacity t -> 2 * capacity t <= INT_MAX ->
  storable s = true -> stored t s = None ->
  exists t' l',
    croquette_put (Some (str s)) v (live t e l) = Ret D_Success (live t' D_No_Error l') /\
    croquette_get (Some (str s)) (live t' D_No_Error l')
    = Ret v (live t' D_No_Error l') /\
    croquette_containsKey (Some (str s)) (live t' D_No_Error l')
    = Ret 1 (live t' D_No_Error l') /\
    size t' = size t + 1.
Proof.
  intros Hok Hnn Hload Hmax Hst Habs. apply table_ok_inv in Hok.
  destruct (croquette_put_new s v t e l Hok Hst Habs Hnn Hload Hmax)
    as (t' & Hrun & (Hinv' & Hsize' & _) & Hcont).
  exists t'. eexists. split; [exact Hrun |].
  destruct (stored_added t t' s v Hinv' Hcont) as [Hs _].
  pose proof (storable_inv s Hst) as (Hk & Hne & _ & _).
  destruct (lookup_stored t' D_No_Error
              (l ++ if grows (size t + 1) (capacity t)
                    then rehash_releases t (S (length (entries t))) else [])
              s Hinv' Hk Hne) as [Hget Hhas].
  { apply storable_index; [assumption | apply (inv_capacity t' Hinv')]. }
  rewrite Hs in Hget, Hhas. split; [exact Hget |]. split; [exact Hhas | exact Hsize'].
Qed.

Lemma put_new_key_then_lookup_witness :
  exists t' l',
    croquette_put (Some (str "bee")) 22 (live small_table 0 [])
    = Ret D_Success (live t' D_No_Error l') /\
    croquette_get (Some (str "bee")) (live t' D_No_Error l')
    = Ret 22 (live t' D_No_Error l') /\
    croquette_containsKey (Some (str "bee")) (live t' D_No_Error l')
    = Ret 1 (live t' D_No_Error l') /\
    size t' = size small_table + 1.
Proof.
  apply (put_new_key_then_lookup small_table 0 [] "bee" 22).
  - reflexivity.
  - reflexivity.
  - reflexivity.
  - vm_compute. discriminate.
  - reflexivity.
  - reflexivity.
Defined.

(** X3: The insertion of a new key leaves the values of all other keys as
    they are, also when the table is rehashed. *)
Theorem put_new_key_keeps_other_values
    (t : Croquette_s) (e : Z) (l : list Z) (s : string) (v : Z) :
  table_ok t = true -> nonneg_keys t = true ->
  size t < capacity t -> 2 * capacity t <= INT_MAX ->
  storable s = true -> stored t s = None ->
  exists t' l',
    croquette_put (Some (str s)) v (live t e l) = Ret D_Success (live t' D_No_Error l') /\
    stored t' s = Some v /\
    (forall x, x <> s -> stored t' x = stored t x) /\
    content t' ≡ₚ (s, v) :: content t.
Proof.
  intros Hok Hnn Hload Hmax Hst Habs. apply table_ok_inv in Hok.
  destruct (croquette_put_new s v t e l Hok Hst Habs Hnn Hload Hmax)
    as (t' & Hrun & (Hinv' & _) & Hcont).
  exists t'. eexists. split; [exact Hrun |].
  destruct (stored_added t t' s v Hinv' Hcont) as [Hs Hx].
  split; [exact Hs |]. split; [exact Hx | exact Hcont].
Qed.

Lemma put_new_key_keeps_other_values_witness :
  exists t' l',
    croquette_put (Some (str "bee")) 22 (live small_table 0 [])
    = Ret D_Success (live t' D_No_Error l') /\
    stored t' "bee" = Some 22 /\
    (forall x, x <> "bee"%string -> stored t' x = stored small_table x) /\
    content t' ≡ₚ ("bee"%string, 22) :: content small_table.
Proof.
  apply (put_new_key_keeps_other_values small_table 0 [] "bee" 22).
  - reflexivity.
  - reflexivity.
  - reflexivity.
  - vm_compute. discriminate.
  - reflexivity.
  - reflexivity.
Defined.

(** X4: What the next insertion needs holds again after an insertion: the
    table satisfies the representation invariant, no stored key has a
    negative hash code and there are fewer entries than buckets. The
    configuration given at creation is unchanged and the capacity is the old
    one or twice the old one. *)
Theorem put_new_key_keeps_table_regular
    (t : Croquette_s) (e : Z) (l : list Z) (s : string) (v : Z) :
  table_ok t = true -> nonneg_keys t = true ->
  size t < capacity t -> 2 * capacity t <= INT_MAX ->
  storable s = true -> stored t s = None ->
  exists t' l',
    croquette_put (Some (str s)) v (live t e l) = Ret D_Success (live t' D_No_Error l') /\
    table_ok t' = true /\ nonneg_keys t' = true /\ size t' < capacity t' /\
    grows (size t') (capacity t') = false /\
    same_config t t' /\
    (capacity t' = capacity t \/ capacity t' = 2 * capacity t).
Proof.
  intros Hok Hnn Hload Hmax Hst Habs. apply table_ok_inv in Hok.
  pose proof (inv_capacity t Hok) as Hcap.
  destruct (croquette_put_new s v t e l Hok Hst Habs Hnn Hload Hmax)
    as (t' & Hrun & (Hinv' & Hsize' & Hcap' & _ & Hcfg' & Hload') & Hcont).
  exists t'. eexists. split; [exact Hrun |].
  split; [apply table_inv_ok; assumption |].
  split.
  { apply (nonneg_keys_content t t' s v Hnn); [| exact Hcont].
    apply storable_inv in Hst. tauto. }
  split; [assumption |]. split.
  { rewrite Hsize', Hcap'. destruct (grows (size t + 1) (capacity t)) eqn:Hg.
    - apply (no_growth_after_doubling (size t) (capacity t)); try lia.
      pose proof (inv_size t Hok). lia.
    - exact Hg. }
  split; [assumption |].
  rewrite Hcap'. destruct (grows (size t + 1) (capacity t)); [right | left]; reflexivity.
Qed.

Lemma put_new_key_keeps_table_regular_witness :
  exists t' l',
    croquette_put (Some (str "bee")) 22 (live small_table 0 [])
    = Ret D_Success (live t' D_No_Error l') /\
    table_ok t' = true /\ nonneg_keys t' = true /\ size t' < capacity t' /\
    grows (size t') (capacity t') = false /\
    same_config small_table t' /\
    (capacity t' = capacity small_table \/ capacity t' = 2 * capacity small_table).
Proof.
  apply (put_new_key_keeps_table_regular small_table 0 [] "bee" 22).
  - reflexivity.
  - reflexivity.
  - reflexivity.
  - vm_compute. discriminate.
  - reflexivity.
  - reflexivity.
Defined.

(** X5: An insertion never passes a stored value to the release routine.
    Without growth nothing is released; when the table grows and owns its
    values, the routine is called with [NULL] once for every carrier that is
    moved to the new table. *)
Theorem put_new_key_releases_no_value
    (t : Croquette_s) (e : Z) (l : list Z) (s : string) (v : Z) :
  table_ok t = true -> nonneg_keys t = true ->
  size t < capacity t -> 2 * capacity t <= INT_MAX ->
  storable s = true -> stored t s = None ->
  exists t',
    croquette_put (Some (str s)) v (live t e l)
    = Ret D_Success
        (live t' D_No_Error
           (l ++ if grows (size t + 1) (capacity t) && (do_free t =? D_Do_Free)
                 then replicate (Z.to_nat (size t + 1)) NULL else [])).
Proof.
  intros Hok Hnn Hload Hmax Hst Habs. apply table_ok_inv in Hok.
  destruct (croquette_put_new s v t e l Hok Hst Habs Hnn Hload Hmax)
    as (t' & Hrun & _).
  exists t'. rewrite Hrun. f_equal. f_equal. f_equal.
  unfold rehash_releases.
  destruct (grows (size t + 1) (capacity t)); [| reflexivity].
  destruct (do_free t =? D_Do_Free); [| reflexivity]. cbn [andb].
  f_equal. rewrite (inv_size t Hok). lia.
Qed.

Lemma put_new_key_releases_no_value_witness :
  exists t',
    croquette_put (Some (str "bee")) 22 (live small_table 0 [])
    = Ret D_Success (live t' D_No_Error ([] ++ [NULL; NULL])).
Proof.
  apply (put_new_key_releases_no_value small_table 0 [] "bee" 22).
  - reflexivity.
  - reflexivity.
  - reflexivity.
  - vm_compute. discriminate.
  - reflexivity.
  - reflexivity.
Defined.

(** X6: [croquette_put] on a stored key whose value compares different from
    the new one, in a table with a release routine: the new value takes the
    place of the old one; the keys, the size, the capacity and the values of
    the other keys are unchanged. *)
Theorem put_stored_key_replaces_value
    (t : Croquette_s) (e : Z) (l : list Z) (s : string) (v old : Z)
    (f : Z -> Z -> Z) :
  table_ok t = true -> stored t s = Some old ->
  value_compare t = Some f -> to_int (f old v) <> 0 -> free_value t = true ->
  exists t' l',
    croquette_put (Some (str s)) v (live t e l) = Ret D_Success (live t' D_No_Error l') /\
    table_ok t' = true /\
    stored t' s = Some v /\ (forall x, x <> s -> stored t' x = stored t x) /\
    keys t' = keys t /\ size t' = size t /\ capacity t' = capacity t.
Proof.
  intros Hok Hst Hf Hne Hfv. apply table_ok_inv in Hok.
  destruct (croquette_put_update s v t e l old f Hok Hst Hf) as (_ & _ & Hupd).
  destruct (Hupd Hne Hfv) as (t' & Hrun & Hinv' & Hkeys & Hsize & Hcap & _ & Hs & Hx).
  exists t'. eexists. split; [exact Hrun |].
  split; [apply table_inv_ok; assumption |]. tauto.
Qed.

Lemma put_stored_key_replaces_value_witness :
  exists t' l',
    croquette_put (Some (str "aaa")) 26 (live small_table 0 [])
    = Ret D_Success (live t' D_No_Error l') /\
    table_ok t' = true /\
    stored t' "aaa" = Some 26 /\
    (forall x, x <> "aaa"%string -> stored t' x = stored small_table x) /\
    keys t' = keys small_table /\ size t' = size small_table /\
    capacity t' = capacity small_table.
Proof.
  apply (put_stored_key_replaces_value small_table 0 [] "aaa" 26 21 compare_elem).
  - reflexivity.
  - reflexivity.
  - reflexivity.
  - vm_compute. discriminate.
  - reflexivity.
Defined.

(** X7: [croquette_put] on a stored key with a value that the comparison
    routine finds equal to the stored one returns [D_Success] and changes
    nothing: the stored value stays, the new one is not taken over, and
    nothing is released. *)
Theorem put_equal_value_changes_nothing
    (t : Croquette_s) (e : Z) (l : list Z) (s : string) (v old : Z)
    (f : Z -> Z -> Z) :
  table_ok t = true -> stored t s = Some old ->
  value_compare t = Some f -> to_int (f old v) = 0 ->
  croquette_put (Some (str s)) v (live t e l) = Ret D_Success (live t D_No_Error l).
Proof.
  intros Hok Hst Hf H0. apply table_ok_inv in Hok.
  destruct (croquette_put_update s v t e l old f Hok Hst Hf) as (Heq & _).
  apply Heq. exact H0.
Qed.

Lemma put_equal_value_changes_nothing_witness :
  croquette_put (Some (str "aaa")) 21 (live small_table 3 [])
  = Ret D_Success (live small_table D_No_Error []).
Proof.
  apply (put_equal_value_changes_nothing small_table 3 [] "aaa" 21 21 compare_elem).
  - reflexivity.
  - reflexivity.
  - reflexivity.
  - reflexivity.
Defined.

(** X8: Removal and lookup: [croquette_remove] of a stored key returns
    [D_Success]; afterwards the key is not found, the size is one less and
    the other keys have the values they had, also when the table is rehashed
    to a smaller capacity. *)
Theorem remove_stored_key_then_lookup
    (t : Croquette_s) (e : Z) (l : list Z) (s : string) (old : Z) :
  table_ok t = true -> nonneg_keys t = true -> stored t s = Some old ->
  exists t' l',
    croquette_remove (Some (str s)) (live t e l)
    = Ret D_Success (live t' D_No_Error l') /\
    table_ok t' = true /\
    croquette_containsKey (Some (str s)) (live t' D_No_Error l')
    = Ret 0 (live t' D_No_Error l') /\
    croquette_get (Some (str s)) (live t' D_No_Error l')
    = Ret NULL (live t' D_No_Error l') /\
    stored t' s = None /\ (forall x, x <> s -> stored t' x = stored t x) /\
    size t' = size t - 1.
Proof.
  intros Hok Hnn Hst. apply table_ok_inv in Hok.
  destruct (croquette_remove_content s t e l old Hok Hnn Hst)
    as (t' & k & Hrun & Hinv' & Hnn' & _ & Hcont & Hsize & _).
  exists t'. eexists. split; [exact Hrun |].
  split; [apply table_inv_ok; assumption |].
  destruct (stored_dropped t t' s old Hok Hcont) as [Hs Hx].
  destruct (stored_found t s old Hok Hst) as (Hk & Hne & _ & _).
  assert (Hh : 0 <= hash s).
  { apply (proj1 (nonneg_keys_spec t) Hnn). apply stored_is_Some. eexists. exact Hst. }
  destruct (lookup_stored t' D_No_Error
              (l ++ (if do_free t =? D_Do_Free then [old] else [])
                 ++ rehash_releases t k) s Hinv' Hk Hne) as [Hget Hhas].
  { pose proof (inv_capacity t' Hinv'). apply Z.rem_nonneg; lia. }
  rewrite Hs in Hget, Hhas.
  split; [exact Hhas |]. split; [exact Hget |]. tauto.
Qed.

Lemma remove_stored_key_then_lookup_witness :
  exists t' l',
    croquette_remove (Some (str "aaa")) (live small_table 0 [])
    = Ret D_Success (live t' D_No_Error l') /\
    table_ok t' = true /\
    croquette_containsKey (Some (str "aaa")) (live t' D_No_Error l')
    = Ret 0 (live t' D_No_Error l') /\
    croquette_get (Some (str "aaa")) (live t' D_No_Error l')
    = Ret NULL (live t' D_No_Error l') /\
    stored t' "aaa" = None /\
    (forall x, x <> "aaa"%string -> stored t' x = stored small_table x) /\
    size t' = size small_table - 1.
Proof.
  apply (remove_stored_key_then_lookup small_table 0 [] "aaa" 21).
  - reflexivity.
  - reflexivity.
  - reflexivity.
Defined.

(** X9: [croquette_remove] passes the value of the removed key to the
    release routine exactly when the table owns its values; apart from that
    the routine sees [NULL] only, once for every carrier that a rehash
    moves. A table that does not own its values releases nothing. *)
Theorem remove_releases_owned_value
    (t : Croquette_s) (e : Z) (l : list Z) (s : string) (old : Z) :
  table_ok t = true -> nonneg_keys t = true -> stored t s = Some old ->
  exists t' e' k,
    croquette_remove (Some (str s)) (live t e l)
    = Ret D_Success
        (live t' e'
           (l ++ if do_free t =? D_Do_Free then old :: replicate k NULL else [])).
Proof.
  intros Hok Hnn Hst. apply table_ok_inv in Hok.
  destruct (croquette_remove_content s t e l old Hok Hnn Hst)
    as (t' & k & Hrun & _).
  exists t', D_No_Error, k. rewrite Hrun. f_equal. f_equal. f_equal.
  unfold rehash_releases. destruct (do_free t =? D_Do_Free); reflexivity.
Qed.

Lemma remove_releases_owned_value_witness :
  exists t' e' k,
    croquette_remove (Some (str "aaa")) (live small_table 0 [])
    = Ret D_Success
        (live t' e'
           ([] ++ if do_free small_table =? D_Do_Free
                  then 21 :: replicate k NULL else [])).
Proof.
  apply (remove_releases_owned_value small_table 0 [] "aaa" 21).
  - reflexivity.
  - reflexivity.
  - reflexivity.
Defined.

(** X10: The capacity after a removal: it is unchanged when the new size is
    not below half of the capacity; otherwise it is half of the capacity, or
    twice that half when putting the entries back made the smaller table
    grow. A removal never makes the capacity larger, and what the next
    operation needs holds again. *)
Theorem remove_capacity
    (t : Croquette_s) (e : Z) (l : list Z) (s : string) (old : Z) :
  table_ok t = true -> nonneg_keys t = true -> stored t s = Some old ->
  size t <= capacity t ->
  exists t' e' l',
    croquette_remove (Some (str s)) (live t e l) = Ret D_Success (live t' e' l') /\
    ((size t - 1 <? Z.shiftr (capacity t) 1) = false -> capacity t' = capacity t) /\
    ((size t - 1 <? Z.shiftr (capacity t) 1) = true ->
     capacity t' = Z.shiftr (capacity t) 1 \/
     capacity t' = 2 * Z.shiftr (capacity t) 1) /\
    1 <= capacity t' <= capacity t /\
    size t' < capacity t' /\ nonneg_keys t' = true /\ same_config t t'.
Proof.
  intros Hok Hnn Hst Hle. apply table_ok_inv in Hok.
  pose proof (inv_capacity t Hok) as Hcap.
  destruct (croquette_remove_content s t e l old Hok Hnn Hst)
    as (t' & k & Hrun & Hinv' & Hnn' & Hcfg & _ & _ & Hsame & Hhalf & Hload).
  exists t'. do 2 eexists. split; [exact Hrun |].
  split; [exact Hsame |]. split; [exact Hhalf |].
  split.
  { split; [apply (inv_capacity t' Hinv') |].
    destruct (size t - 1 <? Z.shiftr (capacity t) 1) eqn:Hs.
    - pose proof (shiftr_1_bounds (capacity t) ltac:(lia)) as [Hb _].
      destruct (Hhalf eq_refl) as [-> | ->]; lia.
    - rewrite (Hsame eq_refl). lia. }
  split; [apply Hload; assumption |]. split; assumption.
Qed.

Lemma remove_capacity_witness :
  exists t' e' l',
    croquette_remove (Some (str "aaa")) (live small_table 0 [])
    = Ret D_Success (live t' e' l') /\
    ((size small_table - 1 <? Z.shiftr (capacity small_table) 1) = false ->
     capacity t' = capacity small_table) /\
    ((size small_table - 1 <? Z.shiftr (capacity small_table) 1) = true ->
     capacity t' = Z.shiftr (capacity small_table) 1 \/
     capacity t' = 2 * Z.shiftr (capacity small_table) 1) /\
    1 <= capacity t' <= capacity small_table /\
    size t' < capacity t' /\ nonneg_keys t' = true /\ same_config small_table t'.
Proof.
  apply (remove_capacity small_table 0 [] "aaa" 21).
  - reflexivity.
  - reflexivity.
  - reflexivity.
  - vm_compute. discriminate.
Defined.

(** X11: [croquette_remove] of a key that is not stored returns [D_Success]
    and changes nothing but the error slot. *)
Theorem remove_absent_key_changes_nothing
    (t : Croquette_s) (e : Z) (l : list Z) (s : string) :
  table_ok t = true -> nul_free s = true -> s <> EmptyString ->
  0 <= Z.rem (hash s) (capacity t) -> stored t s = None ->
  croquette_remove (Some (str s)) (live t e l) = Ret D_Success (live t D_No_Error l).
Proof.
  intros Hok Hk Hne Hidx Hst. apply table_ok_inv in Hok.
  apply croquette_remove_absent; try assumption. unfold D_Error. lia.
Qed.

Lemma remove_absent_key_changes_nothing_witness :
  croquette_remove (Some (str "bee")) (live small_table 4 [])
  = Ret D_Success (live small_table D_No_Error []).
Proof.
  apply (remove_absent_key_changes_nothing small_table 4 [] "bee").
  - reflexivity.
  - reflexivity.
  - discriminate.
  - vm_compute. discriminate.
  - reflexivity.
Defined.

(** X12: Insertion and removal compose: after a new key was inserted and
    removed again, the table holds the keys and values it held before, and
    its size is the old one. *)
Theorem put_then_remove_restores_content
    (t : Croquette_s) (e : Z) (l : list Z) (s : string) (v : Z) :
  table_ok t = true -> nonneg_keys t = true ->
  size t < capacity t -> 2 * capacity t <= INT_MAX ->
  storable s = true -> stored t s = None ->
  exists t' l',
    (croquette_put (Some (str s)) v;; croquette_remove (Some (str s))) (live t e l)
    = Ret D_Success (live t' D_No_Error l') /\
    table_ok t' = true /\ content t' ≡ₚ content t /\
    (forall x, stored t' x = stored t x) /\ size t' = size t.
Proof.
  intros Hok Hnn Hload Hmax Hst Habs. apply table_ok_inv in Hok.
  destruct (croquette_put_new s v t e l Hok Hst Habs Hnn Hload Hmax)
    as (t1 & Hrun1 & (Hinv1 & Hsize1 & _) & Hcont1).
  destruct (stored_added t t1 s v Hinv1 Hcont1) as [Hs1 _].
  assert (Hnn1 : nonneg_keys t1 = true).
  { apply (nonneg_keys_content t t1 s v Hnn); [| exact Hcont1].
    apply storable_inv in Hst. tauto. }
  destruct (croquette_remove_content s t1 D_No_Error
              (l ++ if grows (size t + 1) (capacity t)
                    then rehash_releases t (S (length (entries t))) else [])
              v Hinv1 Hnn1 Hs1)
    as (t2 & k & Hrun2 & Hinv2 & _ & _ & Hcont2 & Hsize2 & _).
  exists t2. eexists. split.
  { erewrite bind_Ret by exact Hrun1. exact Hrun2. }
  assert (Hc : content t2 ≡ₚ content t).
  { apply (Permutation_cons_inv (a := (s, v))). rewrite <- Hcont2. exact Hcont1. }
  split; [apply table_inv_ok; assumption |]. split; [exact Hc |].
  split; [intros x; apply stored_perm; assumption | lia].
Qed.

Lemma put_then_remove_restores_content_witness :
  exists t' l',
    (croquette_put (Some (str "bee")) 22;; croquette_remove (Some (str "bee")))
      (live small_table 0 [])
    = Ret D_Success (live t' D_No_Error l') /\
    table_ok t' = true /\ content t' ≡ₚ content small_table /\
    (forall x, stored t' x = stored small_table x) /\ size t' = size small_table.
Proof.
  apply (put_then_remove_restores_content small_table 0 [] "bee" 22).
  - reflexivity.
  - reflexivity.
  - reflexivity.
  - vm_compute. discriminate.
  - reflexivity.
  - reflexivity.
Defined.

(** ** Invalid keys *)

Lemma croquette_containsKey_null t e l :
  croquette_containsKey None (live t e l) = Ret D_Error (live t D_Invalid_Key l).
Proof. reflexivity. Qed.

Lemma croquette_get_invalid t e l :
  croquette_get None (live t e l) = Ret NULL (live t D_Invalid_Key l) /\
  croquette_get (Some (str EmptyString)) (live t e l)
  = Ret NULL (live t D_Invalid_Key l).
Proof. split; reflexivity. Qed.

(** X13: A [NULL] key and the empty key are rejected by every operation that
    takes a key: the result is [D_Error] ([NULL] for [croquette_get]), the
    error slot holds [D_Invalid_Key], and neither the table nor the released
    values change. *)
Theorem invalid_key_is_rejected (t : Croquette_s) (e : Z) (l : list Z) (v : Z) :
  (croquette_containsKey None (live t e l) = Ret D_Error (live t D_Invalid_Key l) /\
   croquette_get None (live t e l) = Ret NULL (live t D_Invalid_Key l) /\
   croquette_put None v (live t e l) = Ret D_Error (live t D_Invalid_Key l) /\
   croquette_remove None (live t e l) = Ret D_Error (live t D_Invalid_Key l)) /\
  (croquette_containsKey (Some (str EmptyString)) (live t e l)
   = Ret D_Error (live t D_Invalid_Key l) /\
   croquette_get (Some (str EmptyString)) (live t e l)
   = Ret NULL (live t D_Invalid_Key l) /\
   croquette_put (Some (str EmptyString)) v (live t e l)
   = Ret D_Error (live t D_Invalid_Key l) /\
   croquette_remove (Some (str EmptyString)) (live t e l)
   = Ret D_Error (live t D_Invalid_Key l)).
Proof.
  split.
  - split; [apply croquette_containsKey_null |].
    split; [apply croquette_get_invalid |].
    split; [apply (put_body_null (croquette_put_fuel 31)) |].
    apply croquette_remove_null.
  - split; [apply croquette_containsKey_empty |].
    split; [apply croquette_get_invalid |].
    split; [apply (put_body_empty (croquette_put_fuel 31)) |].
    apply croquette_remove_empty.
Qed.

(** ** Keys whose bucket index is -1 *)

(** X14: The remainder of a negative hash code can be -1, the value of
    [D_Error]. Such a key cannot be stored: [croquette_put] returns
    [D_Error] while the error slot says [D_No_Error], the lookups do not
    find the key, and the table is unchanged. *)
Theorem key_with_index_minus_one_is_not_stored
    (t : Croquette_s) (e : Z) (l : list Z) (s : string) (v : Z) :
  table_ok t = true -> nul_free s = true -> s <> EmptyString ->
  Z.of_nat (String.length s) < MAX_KEY_SIZE ->
  Z.rem (hash s) (capacity t) = -1 ->
  croquette_put (Some (str s)) v (live t e l) = Ret D_Error (live t D_No_Error l) /\
  croquette_containsKey (Some (str s)) (live t e l) = Ret 0 (live t D_No_Error l) /\
  croquette_get (Some (str s)) (live t e l) = Ret NULL (live t D_No_Error l) /\
  croquette_remove (Some (str s)) (live t e l) = Ret D_Success (live t D_No_Error l).
Proof.
  intros Hok Hk Hne Hlen Hidx. apply table_ok_inv in Hok.
  assert (Herr : (Z.rem (hash s) (capacity t) =? D_Error) = true)
    by (apply Z.eqb_eq; exact Hidx).
  split.
  { change croquette_put with (put_body (croquette_put_fuel 31)). unfold str.
    rewrite (put_body_error_index _ s v t e l Hok Hk Hne Hidx).
    rewrite (proj2 (Z.ltb_lt _ _) Hlen). reflexivity. }
  split; [rewrite croquette_containsKey_eq, Herr by assumption; reflexivity |].
  split; [rewrite croquette_get_eq, Herr by assumption; reflexivity |].
  apply croquette_remove_absent; try assumption.
  - rewrite Hidx. unfold D_Error. lia.
  - apply stored_None. intros Hin.
    destruct (key_in_its_bucket t s Hok Hin) as (_ & H0 & _). lia.
Qed.

Lemma key_with_index_minus_one_is_not_stored_witness :
  croquette_put (Some (str "aaaaaaaaaa")) 5 (live small_table 0 [])
  = Ret D_Error (live small_table D_No_Error []) /\
  croquette_containsKey (Some (str "aaaaaaaaaa")) (live small_table 0 [])
  = Ret 0 (live small_table D_No_Error []) /\
  croquette_get (Some (str "aaaaaaaaaa")) (live small_table 0 [])
  = Ret NULL (live small_table D_No_Error []) /\
  croquette_remove (Some (str "aaaaaaaaaa")) (live small_table 0 [])
  = Ret D_Success (live small_table D_No_Error []).
Proof.
  apply (key_with_index_minus_one_is_not_stored small_table 0 [] "aaaaaaaaaa" 5).
  - reflexivity.
  - reflexivity.
  - discriminate.
  - vm_compute. reflexivity.
  - vm_compute. reflexivity.
Defined.

(** ** Creation and destruction *)

Lemma croquette_create_world c df fv f w :
  croquette w = None -> implb (df =? D_Do_Free) fv = true ->
  croquette_create c df fv (Some f) w
  = Ret D_Success
      (mkWorld (Some (created (if c <=? 0 then CROQUETTE_DEFAULT_INITIAL_SIZE else c)
                        df fv f))
         D_No_Error (released w)).
Proof.
  intros Hw Himp. destruct w as [cr e l]. cbn in Hw. subst cr.
  unfold croquette_create. run.
  change Croquette_Free_Value with D_Do_Free.
  destruct (df =? D_Do_Free); destruct fv; try discriminate; reflexivity.
Qed.




(** X16: The ways in which [croquette_create] fails: a table exists already
    ([D_Exists], whatever the arguments are, and the table is untouched);
    the table is to own its values and there is no release routine
    ([D_FreeValue_Missing]); there is no comparison routine
    ([D_ValueCompare_Missing]). No table is made in the last two cases. *)
Theorem create_rejects
    (t : Croquette_s) (e : Z) (l : list Z) (c df : Z) (fv : bool)
    (cmp : option (Z -> Z -> Z)) :
  croquette_create c df fv cmp (live t e l) = Ret D_Error (live t D_Exists l) /\
  croquette_create c Croquette_Free_Value false cmp (mkWorld None e l)
  = Ret D_Error (mkWorld None D_FreeValue_Missing l) /\
  croquette_create c D_No_Free fv None (mkWorld None e l)
  = Ret D_Error (mkWorld None D_ValueCompare_Missing l) /\
  croquette_create c df true None (mkWorld None e l)
  = Ret D_Error (mkWorld None D_ValueCompare_Missing l).
Proof.
  split; [reflexivity |]. split; [reflexivity |]. split; [reflexivity |].
  unfold croquette_create. run. rewrite andb_false_r. reflexivity.
Qed.

Lemma croquette_destroy_eq t e l :
  table_inv t ->
  croquette_destroy (live t e l)
  = Ret tt (mkWorld None D_No_Error
              (l ++ if do_free t =? D_Do_Free then map value (entries t) else [])).
Proof.
  intros Hinv. unfold croquette_destroy. run.
  erewrite bind_Ret by (apply croquette_clear_eq; assumption).
  reflexivity.
Qed.

(** X17: [croquette_destroy] on a table that satisfies the representation
    invariant removes the table and, when the table owns its values, passes
    every stored value to the release routine, each one once and in the
    order of the buckets. Without a table it does nothing, so that it can be
    called twice, and [croquette_create] succeeds afterwards. *)
Theorem destroy_releases_and_removes_the_table
    (t : Croquette_s) (e : Z) (l : list Z) (c df : Z) (fv : bool)
    (f : Z -> Z -> Z) :
  table_ok t = true -> implb (df =? D_Do_Free) fv = true ->
  croquette_destroy (live t e l)
  = Ret tt (mkWorld None D_No_Error
              (l ++ if do_free t =? D_Do_Free then map snd (content t) else [])) /\
  (croquette_destroy;; croquette_destroy) (live t e l)
  = croquette_destroy (live t e l) /\
  croquette_destroy (mkWorld None e l) = Ret tt (mkWorld None e l) /\
  result ((croquette_destroy;; croquette_create c df fv (Some f)) (live t e l))
  = Some D_Success.
Proof.
  intros Hok Himp. apply table_ok_inv in Hok.
  assert (Hv : map snd (content t) = map value (entries t)).
  { unfold content. rewrite <- list_fmap_compose. reflexivity. }
  rewrite Hv. split; [apply croquette_destroy_eq; assumption |].
  split.
  { erewrite bind_Ret by (apply croquette_destroy_eq; assumption).
    rewrite croquette_destroy_eq by assumption. reflexivity. }
  split; [reflexivity |].
  erewrite bind_Ret by (apply croquette_destroy_eq; assumption).
  rewrite croquette_create_world by (try reflexivity; assumption).
  reflexivity.
Qed.

Lemma destroy_releases_and_removes_the_table_witness :
  croquette_destroy (live small_table 0 [])
  = Ret tt (mkWorld None D_No_Error
              ([] ++ if do_free small_table =? D_Do_Free
                     then map snd (content small_table) else [])) /\
  (croquette_destroy;; croquette_destroy) (live small_table 0 [])
  = croquette_destroy (live small_table 0 []) /\
  croquette_destroy (mkWorld None 0 []) = Ret tt (mkWorld None 0 []) /\
  result ((croquette_destroy;; croquette_create 4 D_No_Free false (Some compare_elem))
            (live small_table 0 []))
  = Some D_Success.
Proof.
  apply (destroy_releases_and_removes_the_table small_table 0 [] 4 D_No_Free false
           compare_elem).
  - reflexivity.
  - reflexivity.
Defined.

(** X18: [croquette_clear] leaves the table in the state in which
    [croquette_create] made it: empty, with the capacity and the
    configuration given at creation. A second [croquette_clear] changes
    nothing and releases nothing. *)
Theorem clear_restores_the_created_table
    (t : Croquette_s) (e : Z) (l : list Z) (f : Z -> Z -> Z) :
  table_ok t = true -> value_compare t = Some f ->
  croquette_clear (live t e l)
  = Ret D_Success
      (live (created (base_capacity t) (do_free t) (free_value t) f) D_No_Error
         (l ++ if do_free t =? D_Do_Free then map snd (content t) else [])) /\
  forall e' l',
    croquette_clear
      (live (created (base_capacity t) (do_free t) (free_value t) f) e' l')
    = Ret D_Success
        (live (created (base_capacity t) (do_free t) (free_value t) f) D_No_Error l').
Proof.
  intros Hok Hf. apply table_ok_inv in Hok.
  assert (Hv : map snd (content t) = map value (entries t)).
  { unfold content. rewrite <- list_fmap_compose. reflexivity. }
  assert (Heq : rehashed (base_capacity t) t
                = created (base_capacity t) (do_free t) (free_value t) f).
  { unfold rehashed, created, with_size, with_capacity, with_table.
    cbn [do_free size capacity base_capacity table free_value value_compare].
    rewrite Hf. reflexivity. }
  split.
  - rewrite croquette_clear_eq, Heq, Hv by assumption. reflexivity.
  - intros e' l'. rewrite croquette_clear_eq.
    + unfold entries. cbn [created table base_capacity do_free].
      rewrite concat_replicate_nil. cbn [map].
      destruct (do_free t =? D_Do_Free); rewrite app_nil_r; reflexivity.
    + apply table_inv_created; [apply (inv_base t Hok) |].
      destruct (Z.eqb_spec (do_free t) D_Do_Free) as [Hd | _]; [| reflexivity].
      cbn [implb]. apply (inv_free t Hok Hd).
Qed.

Lemma clear_restores_the_created_table_witness :
  croquette_clear (live small_table 0 [])
  = Ret D_Success (live (created 1 D_Do_Free true compare_elem) D_No_Error [21]) /\
  forall e' l',
    croquette_clear (live (created 1 D_Do_Free true compare_elem) e' l')
    = Ret D_Success (live (created 1 D_Do_Free true compare_elem) D_No_Error l').
Proof.
  apply (clear_restores_the_created_table small_table 0 [] compare_elem).
  - reflexivity.
  - reflexivity.
Defined.

(** ** The hash codes of short keys *)

Lemma to_long_small x : - 2 ^ 63 <= x < 2 ^ 63 -> to_long x = x.
Proof.
  intros H. unfold to_long, wrap.
  change (64 - 1) with 63. change (2 ^ 64) with (2 * 2 ^ 63).
  rewrite Z.mod_small; lia.
Qed.

Lemma plain_cons c r :
  plain (String c r) = true -> 0 < uchar c < 128 /\ plain r = true.
Proof.
  cbn [plain]. intros H. apply andb_true_iff in H as [H Hr].
  apply andb_true_iff in H as [H1 H2]. apply Z.ltb_lt in H1, H2. tauto.
Qed.

Lemma plain_char_value c : 0 < uchar c < 128 -> char_value c = uchar c.
Proof.
  intros H. unfold char_value, uchar in *.
  rewrite (proj2 (Z.ltb_lt _ _)) by lia. reflexivity.
Qed.

Lemma plain_nul_free s : plain s = true -> nul_free s = true.
Proof.
  induction s as [| c r IH]; [reflexivity |]. intros H.
  apply plain_cons in H as [Hc Hr]. cbn [nul_free]. rewrite (IH Hr), andb_true_r.
  destruct (Ascii.eqb_spec c Ascii.zero) as [-> | _]; [| reflexivity].
  destruct Hc as [Hc _]. vm_compute in Hc. discriminate.
Qed.

(** The accumulation does not overflow on keys of 7-bit characters that
    are short enough. *)
Lemma accumulate_bound cs : forall total,
  cs <> EmptyString -> plain cs = true -> 0 <= total ->
  total * 128 ^ (Z.of_nat (String.length cs) - 1)
  + 128 ^ Z.of_nat (String.length cs) <= 2 ^ 63 ->
  total * 128 ^ (Z.of_nat (String.length cs) - 1)
  + 128 ^ (Z.of_nat (String.length cs) - 1)
  <= accumulate total cs
  < total * 128 ^ (Z.of_nat (String.length cs) - 1)
    + 128 ^ Z.of_nat (String.length cs).
Proof.
  induction cs as [| c r IH]; intros total Hne Hp Ht Hb; [congruence |].
  apply plain_cons in Hp as [Hc Hr].
  destruct r as [| c' r'].
  - cbn [accumulate String.length] in *. change (Z.of_nat 1 - 1) with 0 in *.
    change (128 ^ 0) with 1 in *. change (128 ^ Z.of_nat 1) with 128 in *.
    rewrite plain_char_value by assumption.
    rewrite to_long_small by lia. lia.
  - set (r := String c' r') in *.
    assert (Hn : Z.of_nat (String.length (String c r))
                 = Z.of_nat (String.length r) + 1)
      by (cbn [String.length]; lia).
    assert (Hr1 : 1 <= Z.of_nat (String.length r))
      by (unfold r; cbn [String.length]; lia).
    rewrite Hn in *.
    replace (Z.of_nat (String.length r) + 1 - 1)
      with (Z.of_nat (String.length r) - 1 + 1) in * by lia.
    set (m := Z.of_nat (String.length r) - 1) in *.
    assert (Hm : 0 <= m) by lia.
    replace (Z.of_nat (String.length r)) with (m + 1) in * by lia.
    rewrite !Z.pow_add_r in * by lia. change (128 ^ 1) with 128 in *.
    pose proof (Z.pow_pos_nonneg 128 m ltac:(lia) Hm) as Hpow.
    set (P := 128 ^ m) in *.
    change (accumulate total (String c r))
      with (accumulate (to_long (Z.shiftl (to_long (total + char_value c)) 7)) r).
    rewrite plain_char_value by assumption.
    rewrite (to_long_small (total + uchar c)) by nia.
    rewrite Z.shiftl_mul_pow2 by lia. change (2 ^ 7) with 128.
    rewrite to_long_small by nia.
    specialize (IH ((total + uchar c) * 128) ltac:(discriminate) Hr ltac:(lia)).
    specialize (IH ltac:(nia)). nia.
Qed.

Lemma plain_hash_bounds s :
  plain s = true -> s <> EmptyString -> (String.length s <= 9)%nat ->
  0 <= hash s < 2 ^ 63.
Proof.
  intros Hp Hne Hlen.
  rewrite hash_spec_hash by (try assumption; unfold INT_MAX; lia).
  destruct s as [| c r]; [congruence |].
  destruct r as [| c' r'].
  - apply plain_cons in Hp as [Hc _]. unfold spec_hash.
    rewrite plain_char_value by assumption.
    rewrite (to_long_small (0 + uchar c)) by lia.
    rewrite Z.shiftl_mul_pow2 by lia. change (2 ^ 7) with 128.
    rewrite to_long_small by lia. lia.
  - set (s := String c (String c' r')) in *.
    change (spec_hash s) with (accumulate 0 s).
    assert (Hb : 128 ^ Z.of_nat (String.length s) <= 2 ^ 63).
    { change (2 ^ 63) with (128 ^ 9). apply Z.pow_le_mono_r; lia. }
    pose proof (accumulate_bound s 0 Hne Hp ltac:(lia) ltac:(lia)) as Hacc.
    assert (Hpos : 0 < 128 ^ (Z.of_nat (String.length s) - 1)).
    { apply Z.pow_pos_nonneg; [lia |]. unfold s. cbn [String.length]. lia. }
    lia.
Qed.

(** On these keys the code computes the hash of the specification. *)
Lemma accumulate_ordinal cs : forall total,
  cs <> EmptyString -> plain cs = true -> 0 <= total ->
  total * 128 ^ (Z.of_nat (String.length cs) - 1)
  + 128 ^ Z.of_nat (String.length cs) <= 2 ^ 63 ->
  accumulate total cs = ordinal_accumulate total cs.
Proof.
  induction cs as [| c r IH]; intros total Hne Hp Ht Hb; [congruence |].
  apply plain_cons in Hp as [Hc Hr].
  destruct r as [| c' r'].
  - cbn [accumulate ordinal_accumulate String.length] in *.
    change (Z.of_nat 1 - 1) with 0 in *.
    change (128 ^ 0) with 1 in *. change (128 ^ Z.of_nat 1) with 128 in *.
    rewrite plain_char_value by assumption.
    apply to_long_small. lia.
  - set (r := String c' r') in *.
    assert (Hn : Z.of_nat (String.length (String c r))
                 = Z.of_nat (String.length r) + 1)
      by (cbn [String.length]; lia).
    assert (Hr1 : 1 <= Z.of_nat (String.length r))
      by (unfold r; cbn [String.length]; lia).
    rewrite Hn in Hb.
    set (m := Z.of_nat (String.length r) - 1) in *.
    assert (Hm : 0 <= m) by lia.
    replace (Z.of_nat (String.length r) + 1 - 1) with (m + 1) in Hb by lia.
    replace (Z.of_nat (String.length r) + 1) with (m + 1 + 1) in Hb by lia.
    rewrite !Z.pow_add_r in Hb by lia. change (128 ^ 1) with 128 in Hb.
    pose proof (Z.pow_pos_nonneg 128 m ltac:(lia) Hm) as Hpow.
    change (accumulate total (String c r))
      with (accumulate (to_long (Z.shiftl (to_long (total + char_value c)) 7)) r).
    change (ordinal_accumulate total (String c r))
      with (ordinal_accumulate (Z.shiftl (total + uchar c) 7) r).
    rewrite plain_char_value by assumption.
    rewrite (to_long_small (total + uchar c)) by nia.
    rewrite Z.shiftl_mul_pow2 by lia. change (2 ^ 7) with 128.
    rewrite to_long_small by nia.
    apply IH; try assumption; try discriminate; try lia.
    fold m. replace (Z.of_nat (String.length r)) with (m + 1) by lia.
    rewrite Z.pow_add_r by lia. change (128 ^ 1) with 128. nia.
Qed.

Lemma short_ascii_keys_hash_as_claimed s c :
  plain s = true -> s <> EmptyString -> (String.length s <= 9)%nat -> 1 <= c ->
  hash s = claimed_hash s /\ Z.rem (hash s) c = claimed_index s c.
Proof.
  intros Hp Hne Hlen Hc.
  pose proof (plain_hash_bounds s Hp Hne Hlen) as Hh.
  assert (Heq : hash s = claimed_hash s).
  { rewrite hash_spec_hash by (try assumption; unfold INT_MAX; lia).
    destruct s as [| x r]; [congruence |].
    destruct r as [| y r'].
    - apply plain_cons in Hp as [Hx _]. unfold spec_hash, claimed_hash.
      rewrite plain_char_value by assumption.
      rewrite (to_long_small (0 + uchar x)) by lia.
      rewrite !Z.shiftl_mul_pow2 by lia. change (2 ^ 7) with 128.
      rewrite to_long_small by lia. lia.
    - set (s := String x (String y r')) in *.
      change (spec_hash s) with (accumulate 0 s).
      change (claimed_hash s) with (ordinal_accumulate 0 s).
      apply accumulate_ordinal; try assumption; try lia.
      assert (128 ^ Z.of_nat (String.length s) <= 2 ^ 63).
      { change (2 ^ 63) with (128 ^ 9). apply Z.pow_le_mono_r; lia. }
      lia. }
  split; [exact Heq |].
  unfold claimed_index. rewrite <- Heq. apply Z.rem_mod_nonneg; lia.
Qed.

(** X19: Every key of one to nine characters of 7-bit ASCII can be stored:
    its hash code does not overflow and is not negative, so that its bucket
    index is inside the array for every capacity. *)
Theorem short_ascii_keys_are_storable (s : string) (c : Z) :
  plain s = true -> s <> EmptyString -> (String.length s <= 9)%nat -> 1 <= c ->
  storable s = true /\ 0 <= Z.rem (hash s) c < c.
Proof.
  intros Hp Hne Hlen Hc.
  pose proof (plain_hash_bounds s Hp Hne Hlen) as Hh.
  split.
  - unfold storable. rewrite (plain_nul_free s Hp). cbn [andb].
    apply andb_true_iff. split; [apply andb_true_iff; split |].
    + apply Z.ltb_lt. destruct s; [congruence | cbn [String.length]; lia].
    + apply Z.ltb_lt. unfold MAX_KEY_SIZE. lia.
    + apply Z.leb_le. lia.
  - split; [apply Z.rem_nonneg; lia | apply rem_lt; lia].
Qed.

Lemma short_ascii_keys_are_storable_witness :
  storable "croquette" = true /\ 0 <= Z.rem (hash "croquette") 11 < 11.
Proof.
  apply (short_ascii_keys_are_storable "croquette" 11).
  - reflexivity.
  - discriminate.
  - vm_compute. lia.
  - lia.
Defined.

(** ** Collisions of hash codes *)

Lemma pow128_step m : 0 <= m -> 128 ^ (m + 1) = 128 * 128 ^ m.
Proof. intros H. rewrite Z.pow_add_r by lia. change (128 ^ 1) with 128. lia. Qed.

(** Keys of the same length: the accumulation determines the characters. *)
Lemma accumulate_inj cs : forall cs' total total',
  String.length cs = String.length cs' -> cs <> EmptyString ->
  plain cs = true -> plain cs' = true ->
  0 <= total -> 0 <= total' ->
  total * 128 ^ (Z.of_nat (String.length cs) - 1)
  + 128 ^ Z.of_nat (String.length cs) <= 2 ^ 63 ->
  total' * 128 ^ (Z.of_nat (String.length cs) - 1)
  + 128 ^ Z.of_nat (String.length cs) <= 2 ^ 63 ->
  total mod 128 = 0 -> total' mod 128 = 0 ->
  accumulate total cs = accumulate total' cs' ->
  total = total' /\ cs = cs'.
Proof.
  induction cs as [| c r IH];
    intros cs' total total' Hlen Hne Hp Hp' Ht Ht' Hb Hb' Hm Hm' Heq; [congruence |].
  destruct cs' as [| c' r']; [discriminate |].
  apply plain_cons in Hp as [Hc Hr]. apply plain_cons in Hp' as [Hc' Hr'].
  pose proof (Z.div_mod total 128 ltac:(lia)) as Hd.
  pose proof (Z.div_mod total' 128 ltac:(lia)) as Hd'.
  assert (Hfin : total + uchar c = total' + uchar c' -> total = total' /\ c = c').
  { intros H. assert (uchar c = uchar c') by lia.
    split; [lia | apply uchar_inj; assumption]. }
  destruct r as [| x r0], r' as [| x' r0']; try discriminate.
  - cbn [accumulate String.length] in *. change (Z.of_nat 1 - 1) with 0 in *.
    change (128 ^ 0) with 1 in *. change (128 ^ Z.of_nat 1) with 128 in *.
    rewrite !plain_char_value in Heq by assumption.
    rewrite !to_long_small in Heq by lia.
    destruct (Hfin Heq) as [-> ->]. split; reflexivity.
  - set (r := String x r0) in *. set (r' := String x' r0') in *.
    assert (Hlr : String.length r = String.length r')
      by (cbn [String.length] in Hlen; lia).
    assert (Hn : Z.of_nat (String.length (String c r))
                 = Z.of_nat (String.length r) + 1)
      by (cbn [String.length]; lia).
    assert (Hr1 : 1 <= Z.of_nat (String.length r))
      by (unfold r; cbn [String.length]; lia).
    rewrite Hn in Hb, Hb'.
    set (m := Z.of_nat (String.length r) - 1) in *.
    assert (Hm0 : 0 <= m) by lia.
    replace (Z.of_nat (String.length r) + 1 - 1) with (m + 1) in Hb, Hb' by lia.
    replace (Z.of_nat (String.length r) + 1) with (m + 1 + 1) in Hb, Hb' by lia.
    rewrite !pow128_step in Hb, Hb' by lia.
    pose proof (Z.pow_pos_nonneg 128 m ltac:(lia) Hm0) as Hpow.
    change (accumulate total (String c r))
      with (accumulate (to_long (Z.shiftl (to_long (total + char_value c)) 7)) r) in Heq.
    change (accumulate total' (String c' r'))
      with (accumulate (to_long (Z.shiftl (to_long (total' + char_value c')) 7)) r')
      in Heq.
    rewrite !plain_char_value in Heq by assumption.
    rewrite (to_long_small (total + uchar c)) in Heq by nia.
    rewrite (to_long_small (total' + uchar c')) in Heq by nia.
    rewrite !Z.shiftl_mul_pow2 in Heq by lia. change (2 ^ 7) with 128 in Heq.
    rewrite !to_long_small in Heq by nia.
    destruct (IH r' ((total + uchar c) * 128) ((total' + uchar c') * 128)) as [Hts Hrs];
      try assumption; try discriminate; try lia.
    + fold m. replace (Z.of_nat (String.length r)) with (m + 1) by lia.
      rewrite pow128_step by lia. nia.
    + fold m. replace (Z.of_nat (String.length r)) with (m + 1) by lia.
      rewrite pow128_step by lia. nia.
    + apply Z.mod_mul. lia.
    + apply Z.mod_mul. lia.
    + destruct (Hfin ltac:(lia)) as [-> ->]. rewrite Hrs. split; reflexivity.
Qed.

Lemma plain_accumulate_range s :
  plain s = true -> s <> EmptyString -> (String.length s <= 9)%nat ->
  128 ^ (Z.of_nat (String.length s) - 1) <= accumulate 0 s
  < 128 ^ Z.of_nat (String.length s).
Proof.
  intros Hp Hne Hlen.
  assert (Hb : 128 ^ Z.of_nat (String.length s) <= 2 ^ 63).
  { change (2 ^ 63) with (128 ^ 9). apply Z.pow_le_mono_r; lia. }
  pose proof (accumulate_bound s 0 Hne Hp ltac:(lia) ltac:(lia)). lia.
Qed.

Lemma plain_hash_accumulate c s :
  plain (String c s) = true -> s <> EmptyString -> (String.length (String c s) <= 9)%nat ->
  hash (String c s) = accumulate 0 (String c s).
Proof.
  intros Hp Hne Hlen.
  rewrite hash_spec_hash by (try discriminate; unfold INT_MAX; lia).
  destruct s; [congruence | reflexivity].
Qed.

Lemma plain_hash_single c :
  plain (String c EmptyString) = true -> hash (String c EmptyString) = 128 * uchar c.
Proof.
  intros Hp. apply plain_cons in Hp as [Hc _].
  rewrite hash_spec_hash by (try discriminate; unfold INT_MAX; cbn; lia).
  unfold spec_hash. rewrite plain_char_value by assumption.
  rewrite (to_long_small (0 + uchar c)) by lia.
  rewrite Z.shiftl_mul_pow2 by lia. change (2 ^ 7) with 128.
  rewrite to_long_small by lia. lia.
Qed.

(** The last character of a key of several characters is added without a
    shift: the hash code is not a multiple of 128. *)
Lemma accumulate_last cs : forall total,
  cs <> EmptyString -> plain cs = true -> 0 <= total ->
  total * 128 ^ (Z.of_nat (String.length cs) - 1)
  + 128 ^ Z.of_nat (String.length cs) <= 2 ^ 63 ->
  total mod 128 = 0 ->
  accumulate total cs mod 128 <> 0.
Proof.
  induction cs as [| c r IH]; intros total Hne Hp Ht Hb Hm; [congruence |].
  apply plain_cons in Hp as [Hc Hr].
  destruct r as [| x r0].
  - cbn [accumulate String.length] in *. change (Z.of_nat 1 - 1) with 0 in *.
    change (128 ^ 0) with 1 in *. change (128 ^ Z.of_nat 1) with 128 in *.
    rewrite plain_char_value by assumption.
    rewrite to_long_small by lia.
    rewrite Z.add_mod, Hm, Z.add_0_l, Z.mod_mod by lia.
    rewrite Z.mod_small by lia. lia.
  - set (r := String x r0) in *.
    assert (Hn : Z.of_nat (String.length (String c r))
                 = Z.of_nat (String.length r) + 1)
      by (cbn [String.length]; lia).
    assert (Hr1 : 1 <= Z.of_nat (String.length r))
      by (unfold r; cbn [String.length]; lia).
    rewrite Hn in Hb.
    set (m := Z.of_nat (String.length r) - 1) in *.
    assert (Hm0 : 0 <= m) by lia.
    replace (Z.of_nat (String.length r) + 1 - 1) with (m + 1) in Hb by lia.
    replace (Z.of_nat (String.length r) + 1) with (m + 1 + 1) in Hb by lia.
    rewrite !pow128_step in Hb by lia.
    pose proof (Z.pow_pos_nonneg 128 m ltac:(lia) Hm0) as Hpow.
    change (accumulate total (String c r))
      with (accumulate (to_long (Z.shiftl (to_long (total + char_value c)) 7)) r).
    rewrite plain_char_value by assumption.
    rewrite (to_long_small (total + uchar c)) by nia.
    rewrite Z.shiftl_mul_pow2 by lia. change (2 ^ 7) with 128.
    rewrite to_long_small by nia.
    apply IH; try assumption; try discriminate; try lia.
    + fold m. replace (Z.of_nat (String.length r)) with (m + 1) by lia.
      rewrite pow128_step by lia. nia.
    + apply Z.mod_mul. lia.
Qed.

Lemma plain_hash_inj a b :
  plain a = true -> plain b = true -> a <> EmptyString -> b <> EmptyString ->
  (String.length a <= 9)%nat -> (String.length b <= 9)%nat ->
  hash a = hash b -> a = b.
Proof.
  intros Ha Hb Hna Hnb Hla Hlb Heq.
  assert (Hsingle : forall c s,
            plain (String c EmptyString) = true -> plain s = true ->
            (String.length s <= 9)%nat -> (2 <= String.length s)%nat ->
            hash (String c EmptyString) <> hash s).
  { intros c s Hc Hs Hl H2 He.
    destruct s as [| y s']; [cbn in H2; lia |].
    destruct s' as [| z s'']; [cbn in H2; lia |].
    rewrite plain_hash_single in He by assumption.
    rewrite plain_hash_accumulate in He by (try assumption; discriminate).
    apply (accumulate_last (String y (String z s'')) 0); try assumption;
      try discriminate; try lia.
    - assert (H : 128 ^ Z.of_nat (String.length (String y (String z s''))) <= 2 ^ 63).
      { change (2 ^ 63) with (128 ^ 9). apply Z.pow_le_mono_r; lia. }
      lia.
    - reflexivity.
    - rewrite <- He. rewrite Z.mul_comm. apply Z.mod_mul. lia. }
  destruct a as [| x a']; [congruence |]. destruct b as [| y b']; [congruence |].
  destruct a' as [| x2 a''], b' as [| y2 b''].
  - rewrite !plain_hash_single in Heq by assumption.
    f_equal. apply uchar_inj. lia.
  - exfalso. apply (Hsingle x (String y (String y2 b'')) Ha Hb Hlb); [| exact Heq].
    cbn [String.length]. lia.
  - exfalso. apply (Hsingle y (String x (String x2 a'')) Hb Ha Hla); [| congruence].
    cbn [String.length]. lia.
  - set (a := String x (String x2 a'')) in *. set (b := String y (String y2 b'')) in *.
    unfold a at 1 in Heq. unfold b at 1 in Heq.
    rewrite !plain_hash_accumulate in Heq by (try assumption; discriminate).
    fold a b in Heq.
    pose proof (plain_accumulate_range a Ha Hna Hla) as Ra.
    pose proof (plain_accumulate_range b Hb Hnb Hlb) as Rb.
    assert (Hlen : String.length a = String.length b).
    { destruct (Nat.lt_trichotomy (String.length a) (String.length b))
        as [Hlt | [Heql | Hgt]]; [exfalso | exact Heql | exfalso].
      - assert (128 ^ Z.of_nat (String.length a)
                <= 128 ^ (Z.of_nat (String.length b) - 1))
          by (apply Z.pow_le_mono_r; lia).
        lia.
      - assert (128 ^ Z.of_nat (String.length b)
                <= 128 ^ (Z.of_nat (String.length a) - 1))
          by (apply Z.pow_le_mono_r; lia).
        lia. }
    assert (Hb63 : 128 ^ Z.of_nat (String.length a) <= 2 ^ 63).
    { change (2 ^ 63) with (128 ^ 9). apply Z.pow_le_mono_r; lia. }
    apply (accumulate_inj a b 0 0 Hlen Hna Ha Hb); try lia; reflexivity.
Qed.

(** X27: Different keys of one to nine characters of 7-bit ASCII have
    different hash codes: two such keys can share a bucket, but never
    because of the hash function alone. *)
Theorem short_ascii_keys_have_different_hash_codes (a b : string) :
  plain a = true -> plain b = true -> a <> EmptyString -> b <> EmptyString ->
  (String.length a <= 9)%nat -> (String.length b <= 9)%nat ->
  a <> b -> hash a <> hash b.
Proof.
  intros Ha Hb Hna Hnb Hla Hlb Hab Heq. apply Hab.
  apply plain_hash_inj; assumption.
Qed.

Lemma short_ascii_keys_have_different_hash_codes_witness :
  hash "a" <> hash "aa".
Proof.
  apply (short_ascii_keys_have_different_hash_codes "a" "aa").
  - reflexivity.
  - reflexivity.
  - discriminate.
  - discriminate.
  - vm_compute. lia.
  - vm_compute. lia.
  - discriminate.
Defined.

(** ** Sequences of insertions *)

(** A table that has to grow does not have more than two buckets per
    entry. *)
Lemma grows_capacity j c : 1 <= c -> 1 <= j -> grows j c = true -> c <= 2 * j.
Proof.
  intros Hc Hj Hg. unfold grows in Hg.
  rewrite !Z.shiftr_div_pow2 in Hg by lia.
  change (2 ^ 1) with 2 in Hg. change (2 ^ 2) with 4 in Hg.
  pose proof (Z.div_mod c 2 ltac:(lia)) as H2.
  pose proof (Z.mod_pos_bound c 2 ltac:(lia)) as B2.
  pose proof (Z.div_mod c 4 ltac:(lia)) as H4.
  pose proof (Z.mod_pos_bound c 4 ltac:(lia)) as B4.
  apply orb_true_iff in Hg as [Hg | Hg].
  - rewrite Z.gtb_ltb in Hg. apply Z.ltb_lt in Hg. lia.
  - rewrite Z.geb_leb in Hg. apply Z.leb_le in Hg. lia.
Qed.

Lemma put_all_content kvs : forall t e l,
  table_inv t -> nonneg_keys t = true -> size t < capacity t ->
  forallb storable (map fst kvs) = true ->
  NoDup (map fst kvs) ->
  (forall x, x ∈ keys t -> x ∉ map fst kvs) ->
  4 * (size t + Z.of_nat (length kvs)) <= INT_MAX ->
  exists t' e' k,
    put_all kvs (live t e l) = Ret tt (live t' e' (l ++ rehash_releases t k)) /\
    table_inv t' /\ nonneg_keys t' = true /\ size t' < capacity t' /\
    same_config t t' /\ content t' ≡ₚ content t ++ kvs /\
    size t' = size t + Z.of_nat (length kvs).
Proof.
  induction kvs as [| [s v] rest IH]; intros t e l Hinv Hnn Hload Hst Hnd Hfresh Hmax.
  - exists t, e, 0%nat. split.
    + unfold rehash_releases. cbn [put_all replicate].
      destruct (do_free t =? D_Do_Free); rewrite app_nil_r; reflexivity.
    + split; [assumption |]. split; [assumption |]. split; [assumption |].
      split; [apply same_config_refl |]. cbn [length].
      split; [rewrite app_nil_r; reflexivity | lia].
  - cbn [map fst forallb] in Hst. apply andb_true_iff in Hst as [Hs Hst].
    cbn [map fst] in Hnd. apply NoDup_cons in Hnd as [Hnew Hnd].
    cbn [length] in Hmax.
    pose proof (inv_capacity t Hinv) as Hcap.
    pose proof (inv_size t Hinv) as Hsz.
    assert (Habs : s ∉ keys t).
    { intros Hin. apply (Hfresh s Hin). cbn [map fst]. apply list_elem_of_here. }
    destruct (put_new_content 30 s v t e l Hinv Hs Habs Hnn Hload)
      as (t1 & Hrun & (Hinv1 & Hsize1 & Hcap1 & Hkeys1 & Hcfg1 & Hload1) & Hcont1).
    { intros Hg.
      pose proof (grows_capacity (size t + 1) (capacity t) ltac:(lia) ltac:(lia) Hg).
      lia. }
    change (croquette_put_fuel (S (S 30))) with croquette_put in Hrun.
    assert (Hnn1 : nonneg_keys t1 = true).
    { apply (nonneg_keys_content t t1 s v Hnn); [| exact Hcont1].
      apply storable_inv in Hs. tauto. }
    destruct (IH t1 D_No_Error
                (l ++ if grows (size t + 1) (capacity t)
                      then rehash_releases t (S (length (entries t))) else [])
                Hinv1 Hnn1 Hload1 Hst Hnd)
      as (t2 & e2 & k & Hrun2 & Hinv2 & Hnn2 & Hload2 & Hcfg2 & Hcont2 & Hsize2).
    + intros x Hx. rewrite Hkeys1 in Hx.
      apply elem_of_cons in Hx as [-> | Hx]; [exact Hnew |].
      intros Hin. apply (Hfresh x Hx). cbn [map fst].
      apply list_elem_of_further. exact Hin.
    + lia.
    + exists t2, e2,
        ((if grows (size t + 1) (capacity t) then S (length (entries t)) else 0)
         + k)%nat.
      split.
      * cbn [put_all fst snd]. erewrite bind_Ret by exact Hrun.
        rewrite Hrun2. f_equal. f_equal.
        rewrite (rehash_releases_config t t1 _ Hcfg1).
        rewrite <- rehash_releases_app, <- app_assoc. f_equal. f_equal.
        unfold rehash_releases.
        destruct (grows (size t + 1) (capacity t));
          destruct (do_free t =? D_Do_Free); reflexivity.
      * split; [assumption |]. split; [assumption |]. split; [assumption |].
        split; [eapply same_config_trans; eassumption |].
        split; [| cbn [length]; lia].
        rewrite Hcont2, Hcont1. cbn [app]. apply Permutation_middle.
Qed.

Lemma fresh_keys_spec t ks :
  fresh_keys t ks = true -> forall x, x ∈ keys t -> x ∉ ks.
Proof.
  unfold fresh_keys. intros H x Hx Hin.
  apply list_elem_of_In in Hin.
  pose proof (proj1 (forallb_forall _ _) H x Hin) as Hn. cbv beta in Hn.
  apply negb_true_iff in Hn.
  apply existsb_eqb_elem_of in Hx. congruence.
Qed.

(** X20: A sequence of insertions: after [croquette_put] of pairwise
    different storable keys that are not in the table, the table holds the
    pairs it held before and the pairs that were inserted, its size has
    grown by their number, [croquette_get] returns for each new key the
    value it was inserted with, and the release routine has seen [NULL]
    only. (The allocations are taken to succeed, as everywhere in the
    embedding.) *)
Theorem insertions_then_lookups
    (t : Croquette_s) (e : Z) (l : list Z) (kvs : list (string * Z)) :
  table_ok t = true -> nonneg_keys t = true -> size t < capacity t ->
  forallb storable (map fst kvs) = true -> distinct (map fst kvs) = true ->
  fresh_keys t (map fst kvs) = true ->
  4 * (size t + Z.of_nat (length kvs)) <= INT_MAX ->
  exists t' e' l',
    put_all kvs (live t e l) = Ret tt (live t' e' (l ++ l')) /\
    table_ok t' = true /\ size t' = size t + Z.of_nat (length kvs) /\
    content t' ≡ₚ content t ++ kvs /\
    (forall k v, (k, v) ∈ kvs ->
       croquette_get (Some (str k)) (live t' e' (l ++ l'))
       = Ret v (live t' D_No_Error (l ++ l'))) /\
    Forall (fun x => x = NULL) l'.
Proof.
  intros Hok Hnn Hload Hst Hdist Hfresh Hmax. apply table_ok_inv in Hok.
  destruct (put_all_content kvs t e l Hok Hnn Hload Hst)
    as (t' & e' & k & Hrun & Hinv & _ & _ & _ & Hcont & Hsize);
    [apply distinct_NoDup; assumption | apply fresh_keys_spec; assumption
    | assumption |].
  exists t', e', (rehash_releases t k). split; [exact Hrun |].
  split; [apply table_inv_ok; assumption |]. split; [exact Hsize |].
  split; [exact Hcont |]. split.
  - intros x v Hin.
    assert (Hs : storable x = true).
    { apply (proj1 (forallb_forall _ _) Hst). apply in_map_iff.
      exists (x, v). split; [reflexivity |]. apply list_elem_of_In. exact Hin. }
    pose proof (storable_inv x Hs) as (Hk & Hne & _ & _).
    destruct (lookup_stored t' e' (l ++ rehash_releases t k) x Hinv Hk Hne)
      as [Hget _].
    { apply storable_index; [assumption | apply (inv_capacity t' Hinv)]. }
    rewrite Hget.
    assert (Hsv : stored t' x = Some v).
    { apply stored_Some; [assumption |]. rewrite Hcont.
      apply elem_of_app. right. exact Hin. }
    rewrite Hsv. reflexivity.
  - unfold rehash_releases. destruct (_ =? _); [| constructor].
    apply Forall_forall. intros x Hx. apply elem_of_replicate in Hx as [-> _].
    reflexivity.
Qed.

Lemma insertions_then_lookups_witness :
  exists t' e' l',
    put_all (drop 1 test_keys) (live small_table 0 [])
    = Ret tt (live t' e' ([] ++ l')) /\
    table_ok t' = true /\
    size t' = size small_table + Z.of_nat (length (drop 1 test_keys)) /\
    content t' ≡ₚ content small_table ++ drop 1 test_keys /\
    (forall k v, (k, v) ∈ drop 1 test_keys ->
       croquette_get (Some (str k)) (live t' e' ([] ++ l'))
       = Ret v (live t' D_No_Error ([] ++ l'))) /\
    Forall (fun x => x = NULL) l'.
Proof.
  apply (insertions_then_lookups small_table 0 [] (drop 1 test_keys)).
  - reflexivity.
  - reflexivity.
  - reflexivity.
  - vm_compute. reflexivity.
  - vm_compute. reflexivity.
  - vm_compute. reflexivity.
  - vm_compute. discriminate.
Defined.

(** ** Rehashing *)




(** ** Size and emptiness *)

(** X22: On a table that satisfies the representation invariant
    [croquette_size] returns the number of stored keys, [croquette_isEmpty]
    returns 1 exactly when no key is stored, and [croquette_capacity]
    returns the number of buckets; none of them changes the table. *)
Theorem size_counts_the_stored_keys (t : Croquette_s) (e : Z) (l : list Z) :
  table_ok t = true ->
  croquette_size (live t e l)
  = Ret (Z.of_nat (length (content t))) (live t D_No_Error l) /\
  croquette_isEmpty (live t e l)
  = Ret (match content t with [] => 1 | _ :: _ => 0 end) (live t D_No_Error l) /\
  croquette_capacity (live t e l)
  = Ret (Z.of_nat (length (table t))) (live t D_No_Error l).
Proof.
  intros Hok. apply table_ok_inv in Hok.
  pose proof (content_length t Hok) as Hsz.
  split; [rewrite croquette_size_eq, Hsz; reflexivity |].
  split.
  - unfold croquette_isEmpty. run. rewrite Hsz.
    destruct (content t); reflexivity.
  - rewrite croquette_capacity_eq, (inv_length t Hok). reflexivity.
Qed.

Lemma size_counts_the_stored_keys_witness :
  croquette_size (live small_table 0 [])
  = Ret (Z.of_nat (length (content small_table))) (live small_table D_No_Error []) /\
  croquette_isEmpty (live small_table 0 [])
  = Ret (match content small_table with [] => 1 | _ :: _ => 0 end)
      (live small_table D_No_Error []) /\
  croquette_capacity (live small_table 0 [])
  = Ret (Z.of_nat (length (table small_table))) (live small_table D_No_Error []).
Proof.
  apply (size_counts_the_stored_keys small_table 0 []). reflexivity.
Defined.

(** ** The chain of a bucket *)

(** X23: [insert_at_index] with an index below 0 or above the capacity
    returns [D_Error], sets [D_Invalid_Index] and leaves the table as it is.
    With an index of a bucket the carrier is appended behind the last
    carrier of the chain, the other chains are untouched and the size is one
    more. *)
Theorem insert_at_index_appends_to_the_chain
    (t : Croquette_s) (e : Z) (l : list Z) (index : Z) (entry : Carrier_s) :
  table_ok t = true -> size t < INT_MAX ->
  (index < 0 \/ capacity t < index ->
   insert_at_index index entry (live t e l)
   = Ret D_Error (live t D_Invalid_Index l)) /\
  (0 <= index < capacity t ->
   exists chain t',
     table t !! Z.to_nat index = Some chain /\
     insert_at_index index entry (live t e l) = Ret D_Success (live t' D_No_Error l) /\
     table t' = <[Z.to_nat index := chain ++ [entry]]> (table t) /\
     size t' = size t + 1 /\ capacity t' = capacity t).
Proof.
  intros Hok Hsize. apply table_ok_inv in Hok.
  split; [apply insert_at_index_outside |].
  intros Hidx.
  destruct (bucket_lookup t index Hok Hidx) as [chain Hb].
  exists chain, (inserted index chain entry t).
  split; [exact Hb |]. split.
  - apply insert_at_index_eq; try assumption.
    + apply (inv_length t Hok).
    + pose proof (inv_size t Hok). lia.
  - split; [reflexivity |]. split; reflexivity.
Qed.

Lemma insert_at_index_appends_to_the_chain_witness :
  exists chain t',
    table small_table !! Z.to_nat 1 = Some chain /\
    insert_at_index 1 (mkCarrier (str "c") 23) (live small_table 0 [])
    = Ret D_Success (live t' D_No_Error []) /\
    table t' = <[Z.to_nat 1 := chain ++ [mkCarrier (str "c") 23]]> (table small_table) /\
    size t' = size small_table + 1 /\ capacity t' = capacity small_table.
Proof.
  destruct (insert_at_index_appends_to_the_chain small_table 0 [] 1
              (mkCarrier (str "c") 23) eq_refl eq_refl) as [_ Hin].
  apply Hin. vm_compute. split; [discriminate | reflexivity].
Defined.

(** ** Keys whose bucket index is below -1 *)

(** X24: The bucket index is the C remainder of the hash code, which is
    negative for some keys of ten characters and more. When it is below -1,
    [croquette_find] reads the bucket array in front of its first element:
    every operation that looks the key up is a memory fault. *)
Theorem key_with_negative_index_faults
    (t : Croquette_s) (e : Z) (l : list Z) (s : string) (v : Z) :
  table_ok t = true -> nul_free s = true -> s <> EmptyString ->
  Z.rem (hash s) (capacity t) < -1 ->
  croquette_containsKey (Some (str s)) (live t e l) = Fault /\
  croquette_get (Some (str s)) (live t e l) = Fault /\
  croquette_put (Some (str s)) v (live t e l) = Fault /\
  croquette_remove (Some (str s)) (live t e l) = Fault.
Proof.
  intros Hok Hk Hne Hidx. apply table_ok_inv in Hok.
  assert (H1 : (Z.rem (hash s) (capacity t) =? D_Error) = false)
    by (apply Z.eqb_neq; unfold D_Error; lia).
  assert (H2 : (Z.rem (hash s) (capacity t) <? 0) = true) by (apply Z.ltb_lt; lia).
  split; [rewrite croquette_containsKey_eq, H1, H2 by assumption; reflexivity |].
  split; [rewrite croquette_get_eq, H1, H2 by assumption; reflexivity |].
  split.
  - change croquette_put with (put_body (croquette_put_fuel 31)).
    apply put_body_negative_index; assumption.
  - unfold str. rewrite croquette_remove_find by assumption.
    apply bind_Fault.
    pose proof (croquette_find_eq t D_No_Error l s Hok Hk Hne) as Hf.
    cbv zeta in Hf. rewrite H1, H2 in Hf. exact Hf.
Qed.

Lemma key_with_negative_index_faults_witness :
  croquette_containsKey (Some (str "aaaaaaaaaa"))
    (live (created 4 D_No_Free false compare_elem) 0 []) = Fault /\
  croquette_get (Some (str "aaaaaaaaaa"))
    (live (created 4 D_No_Free false compare_elem) 0 []) = Fault /\
  croquette_put (Some (str "aaaaaaaaaa")) 5
    (live (created 4 D_No_Free false compare_elem) 0 []) = Fault /\
  croquette_remove (Some (str "aaaaaaaaaa"))
    (live (created 4 D_No_Free false compare_elem) 0 []) = Fault.
Proof.
  apply (key_with_negative_index_faults (created 4 D_No_Free false compare_elem)
           0 [] "aaaaaaaaaa" 5).
  - reflexivity.
  - reflexivity.
  - discriminate.
  - vm_compute. reflexivity.
Defined.

(** ** The copy and the comparison of keys *)

Lemma prefix_all n : forall s, (String.length s <= n)%nat -> prefix n s = s.
Proof.
  induction n as [| n IH]; intros [| c s] H; cbn [prefix String.length] in *;
    try reflexivity; [lia |].
  rewrite IH by lia. reflexivity.
Qed.

(** X25: [carrier_create] keeps at most 255 characters of the key. A key of
    fewer characters is copied as it is, with its terminator; of a longer
    key the first 255 characters are copied and no terminator follows them
    in the buffer. *)
Theorem carrier_create_copies_255_characters (s : string) (v : Z) (w : world) :
  carrier_create (str s) v w
  = Ret (mkCarrier (Cstr (prefix 255 s) (Z.of_nat (String.length s) <? 255)) v)
      (with_error D_No_Error w) /\
  ((String.length s < 255)%nat -> prefix 255 s = s).
Proof.
  split; [| intros H; apply prefix_all; lia].
  unfold carrier_create, str. run. unfold MAX_KEY_SIZE.
  unfold bind, strlen, valid, ret. cbn [terminated chars].
  unfold with_error. cbn [croquette croquette_error released]. f_equal. f_equal.
  destruct (Z.ltb_spec (Z.of_nat (String.length s)) 255) as [Hlt | Hge].
  - rewrite Z.min_r by lia.
    rewrite to_int_small by (unfold INT_MAX; lia).
    unfold strncpy. rewrite (proj2 (Z.ltb_lt _ _)) by lia.
    rewrite !prefix_all by lia. reflexivity.
  - rewrite Z.min_l by lia.
    rewrite to_int_small by (unfold INT_MAX; lia).
    unfold strncpy. rewrite (proj2 (Z.ltb_ge _ _)) by lia. reflexivity.
Qed.

Lemma strncmp_chars_prefix n : forall a b,
  nul_free a = true -> nul_free b = true ->
  exists r, strncmp_chars n a true b true = Some r /\
            (r =? 0) = String.eqb (prefix n a) (prefix n b).
Proof.
  induction n as [| n IH]; intros a b Ha Hb.
  - exists 0. split; [reflexivity |]. destruct a, b; reflexivity.
  - destruct a as [| x a], b as [| y b]; cbn [strncmp_chars prefix String.eqb andb].
    + exists 0. split; reflexivity.
    + apply nul_free_cons in Hb as [Hy _].
      exists (0 - uchar y). split; [reflexivity |]. apply Z.eqb_neq. lia.
    + apply nul_free_cons in Ha as [Hx _].
      exists (uchar x). split; [reflexivity |]. apply Z.eqb_neq. lia.
    + apply nul_free_cons in Ha as [_ Ha]. apply nul_free_cons in Hb as [_ Hb].
      destruct (Ascii.eqb x y) eqn:Hxy.
      * apply IH; assumption.
      * exists (uchar x - uchar y). split; [reflexivity |].
        apply Z.eqb_neq. intros Hz. apply Ascii.eqb_neq in Hxy.
        apply Hxy, uchar_inj. lia.
Qed.

(** X26: [is_key] compares the first 255 characters only: a carrier matches
    a key exactly when the two agree on them, whatever follows. *)
Theorem is_key_compares_255_characters (a b : string) (v : Z) (w : world) :
  nul_free a = true -> nul_free b = true ->
  is_key (mkCarrier (str a) v) (str b) w
  = Ret (String.eqb (prefix 255 a) (prefix 255 b)) w.
Proof.
  intros Ha Hb. unfold is_key, strncmp, str. cbn [key chars terminated].
  destruct (strncmp_chars_prefix (Z.to_nat MAX_KEY_SIZE) a b Ha Hb) as (r & Hr & Heq).
  rewrite Hr. unfold bind. cbn [valid]. unfold ret. rewrite Heq. reflexivity.
Qed.

Lemma is_key_compares_255_characters_witness :
  is_key (mkCarrier (str long_key) 1) (str longer_key) no_croquette
  = Ret (String.eqb (prefix 255 long_key) (prefix 255 longer_key)) no_croquette.
Proof.
  apply (is_key_compares_255_characters long_key longer_key 1 no_croquette).
  - vm_compute. reflexivity.
  - vm_compute. reflexivity.
Defined.

(** ** The printed text *)

Lemma has_message_cases code :
  has_message code = true ->
  code = 0 \/ code = 1 \/ code = 2 \/ code = 3 \/ code = 4 \/ code = 6 \/ code = 7 \/
  code = 8 \/ code = 9 \/ code = 10 \/ code = 11 \/ code = 12 \/ code = 13 \/
  code = 14 \/ code = 15.
Proof.
  unfold has_message, D_Num_Errors, D_Invalid_Value. intros H.
  apply andb_true_iff in H as [H H5]. apply andb_true_iff in H as [H0 H15].
  apply Z.leb_le in H0, H15. apply negb_true_iff, Z.eqb_neq in H5. lia.
Qed.

Lemma has_message_error_str code :
  has_message code = true -> exists msg, error_str code = Some msg.
Proof.
  intros H. apply has_message_cases in H.
  repeat (destruct H as [-> | H]; [eexists; reflexivity |]).
  subst. eexists. reflexivity.
Qed.

Lemma croquette_print_error_eq w :
  croquette_print_error w
  = if (croquette_error w <=? D_Num_Errors) && (croquette_error w >=? 0) then
      Ret ("[Croquette Error " ++ print_2d (croquette_error w) ++ "] "
           ++ default "(null)" (error_str (croquette_error w)) ++ newline)%string w
    else Ret ("[Croquette] No Such Error" ++ newline)%string w.
Proof.
  unfold croquette_print_error, bind, get_world.
  destruct ((croquette_error w <=? D_Num_Errors) && (croquette_error w >=? 0));
    [| reflexivity].
  destruct (error_str (croquette_error w)); reflexivity.
Qed.

(** X28: [croquette_print_error] after [croquette_set_error]: for a code of
    the enumeration that has a string in [error_str] the line with the code
    and that string is written; for a code below 0 or above [D_Num_Errors],
    which [croquette_set_error] stores as it is, the line [No Such Error] is
    written. Printing leaves the error slot and the table as they are. *)
Theorem print_error_after_set_error (e : Z) (w : world) :
  (has_message e = true ->
   exists msg,
     error_str e = Some msg /\
     (croquette_set_error e;; croquette_print_error) w
     = Ret ("[Croquette Error " ++ print_2d e ++ "] " ++ msg ++ newline)%string
         (with_error e w)) /\
  (e < 0 \/ D_Num_Errors < e ->
   (croquette_set_error e;; croquette_print_error) w
   = Ret ("[Croquette] No Such Error" ++ newline)%string (with_error e w)).
Proof.
  assert (Hrun : (croquette_set_error e;; croquette_print_error) w
                 = croquette_print_error (with_error e w)).
  { rewrite set_error_bind. reflexivity. }
  split.
  - intros Hm. destruct (has_message_error_str e Hm) as [msg Hmsg].
    exists msg. split; [exact Hmsg |].
    rewrite Hrun, croquette_print_error_eq. cbn [with_error croquette_error].
    rewrite Hmsg.
    unfold has_message in Hm. apply andb_true_iff in Hm as [Hm _].
    apply andb_true_iff in Hm as [H0 H15].
    rewrite H15. rewrite Z.geb_leb, H0. reflexivity.
  - intros Hout. rewrite Hrun, croquette_print_error_eq.
    cbn [with_error croquette_error].
    assert (Hb : (e <=? D_Num_Errors) && (e >=? 0) = false).
    { apply andb_false_iff. rewrite Z.geb_leb.
      destruct Hout; [right | left]; apply Z.leb_gt; lia. }
    rewrite Hb. reflexivity.
Qed.

Lemma print_error_after_set_error_witness :
  exists msg,
    error_str D_Invalid_Key = Some msg /\
    (croquette_set_error D_Invalid_Key;; croquette_print_error) no_croquette
    = Ret ("[Croquette Error " ++ print_2d D_Invalid_Key ++ "] " ++ msg ++ newline)%string
        (with_error D_Invalid_Key no_croquette).
Proof.
  destruct (print_error_after_set_error D_Invalid_Key no_croquette) as [Hmsg _].
  apply Hmsg. reflexivity.
Defined.

Lemma string_app_assoc (a b c : string) : ((a ++ b) ++ c = a ++ (b ++ c))%string.
Proof.
  induction a as [| x a IH]; [reflexivity |].
  cbn [String.append]. rewrite IH. reflexivity.
Qed.

Lemma key_lines_app a b : key_lines (a ++ b) = (key_lines a ++ key_lines b)%string.
Proof.
  induction a as [| [i k] a IH]; [reflexivity |].
  cbn [key_lines app]. rewrite IH.
  rewrite !string_app_assoc. reflexivity.
Qed.

Lemma print_chain_eq (i : Z) chain w :
  Forall (fun e => key_ok (key e) = true) chain ->
  print_chain i chain w
  = Ret (key_lines (map (fun e => (i, chars (key e))) chain)) w.
Proof.
  induction 1 as [| x chain Hx _ IH]; [reflexivity |].
  apply key_ok_inv in Hx as (Hterm & _).
  cbn [print_chain map key_lines]. unfold bind at 1. unfold print_string.
  rewrite Hterm. unfold ret at 1. unfold bind at 1. rewrite IH. reflexivity.
Qed.

Lemma print_buckets_eq n : forall i t e l,
  table_inv t -> (i + n = length (table t))%nat ->
  print_buckets i n (live t e l)
  = Ret (key_lines
           (map (fun k => (Z.rem (hash k) (capacity t), k))
              (map (fun e => chars (key e)) (concat (drop i (table t))))))
      (live t e l).
Proof.
  induction n as [| n IH]; intros i t e l Hinv Hlen.
  - rewrite drop_ge by lia. reflexivity.
  - assert (Hlt : (i < length (table t))%nat) by lia.
    destruct (lookup_lt_is_Some_2 _ _ Hlt) as [chain Hb].
    rewrite (drop_S _ _ _ Hb). cbn [concat]. rewrite !map_app, key_lines_app.
    cbn [print_buckets]. unfold bind at 1, deref_croquette, bind at 1, get_croquette.
    cbn [croquette valid]. unfold ret at 1. unfold bind at 1, bucket_at.
    assert (Hneg : (Z.of_nat i <? 0) = false) by (apply Z.ltb_ge; lia).
    rewrite Hneg, Nat2Z.id, Hb. cbn [valid]. unfold ret at 1.
    unfold bind at 1.
    rewrite (print_chain_eq (Z.of_nat i) chain _ (bucket_keys_ok t i chain Hinv Hb)).
    unfold bind at 1. rewrite (IH (S i) t e l Hinv ltac:(lia)). unfold ret.
    f_equal. f_equal. f_equal.
    rewrite map_map. apply map_ext_in. intros x Hx.
    apply list_elem_of_In in Hx.
    pose proof (inv_placed t Hinv i chain x Hb Hx) as Hp.
    unfold placed in Hp. apply andb_true_iff in Hp as [_ Hp].
    apply Z.eqb_eq in Hp. rewrite Hp. reflexivity.
Qed.

(** X29: [croquette_print_keys] writes the headline and then one line for
    every stored key, in the order of the buckets and of the chains; the
    number in front of a key is the remainder of its hash code by the
    capacity. Without a table only the headline is written. Nothing but the
    output changes. *)
Theorem print_keys_lists_every_key (t : Croquette_s) (e : Z) (l : list Z) :
  table_ok t = true ->
  croquette_print_keys (live t e l)
  = Ret ("Keys: " ++ newline
         ++ key_lines (map (fun k => (Z.rem (hash k) (capacity t), k)) (keys t)))%string
      (live t e l) /\
  croquette_print_keys (mkWorld None e l)
  = Ret ("Keys: " ++ newline)%string (mkWorld None e l).
Proof.
  intros Hok. apply table_ok_inv in Hok. split; [| reflexivity].
  unfold croquette_print_keys, bind at 1, get_croquette. cbn [croquette].
  unfold bind.
  rewrite (print_buckets_eq (Z.to_nat (capacity t)) 0 t e l Hok).
  - rewrite drop_0. reflexivity.
  - rewrite <- (inv_length t Hok), Nat2Z.id. reflexivity.
Qed.

Lemma print_keys_lists_every_key_witness :
  croquette_print_keys (live small_table 0 [])
  = Ret ("Keys: " ++ newline ++ "[ 1] aaa" ++ newline)%string (live small_table 0 []) /\
  croquette_print_keys (mkWorld None 0 [])
  = Ret ("Keys: " ++ newline)%string (mkWorld None 0 []).
Proof.
  apply (print_keys_lists_every_key small_table 0 []). reflexivity.
Defined.

(** ** The growth of the capacity *)

Lemma put_observed_new s v t e l :
  table_inv t -> storable s = true -> s ∉ keys t ->
  nonneg_keys t = true -> size t < capacity t ->
  (grows (size t + 1) (capacity t) = true -> 2 * capacity t <= INT_MAX) ->
  exists t' l',
    put_observed (s, v) (live t e l)
    = Ret (Some (size t', capacity t')) (live t' D_No_Error l') /\
    inserted_one s t t' /\ content t' ≡ₚ (s, v) :: content t.
Proof.
  intros Hinv Hst Habs Hnn Hload Hmax.
  pose proof (inv_capacity t Hinv) as Hcap.
  pose proof (storable_inv s Hst) as (Hk & Hne & _ & Hhash).
  destruct (put_new_content 30 s v t D_No_Error l Hinv Hst Habs Hnn Hload Hmax)
    as (t' & Hrun & Hone & Hcont).
  change (croquette_put_fuel (S (S 30))) with croquette_put in Hrun.
  exists t'. eexists. split; [| split; assumption].
  unfold put_observed. cbn [fst snd].
  erewrite bind_Ret.
  2:{ rewrite croquette_containsKey_eq by assumption.
      assert (H1 : (Z.rem (hash s) (capacity t) =? D_Error) = false).
      { apply Z.eqb_neq.
        pose proof (Z.rem_nonneg (hash s) (capacity t) ltac:(lia) Hhash).
        unfold D_Error. lia. }
      assert (H2 : (Z.rem (hash s) (capacity t) <? 0) = false)
        by (apply Z.ltb_ge; apply Z.rem_nonneg; lia).
      rewrite H1, H2.
      destruct (existsb (String.eqb s) (keys t)) eqn:Hex; [| reflexivity].
      exfalso. apply Habs. apply existsb_eqb_elem_of. exact Hex. }
  erewrite bind_Ret by exact Hrun.
  reflexivity.
Qed.

Lemma observe_insertions_growth kvs : forall t e l,
  table_inv t -> nonneg_keys t = true -> size t < capacity t ->
  forallb storable (map fst kvs) = true ->
  NoDup (map fst kvs) ->
  (forall x, x ∈ keys t -> x ∉ map fst kvs) ->
  4 * (size t + Z.of_nat (length kvs)) <= INT_MAX ->
  exists w',
    observe_insertions kvs (live t e l)
    = Ret (Some (growth_sizes (size t) (capacity t) (length kvs))) w'.
Proof.
  induction kvs as [| [s v] rest IH]; intros t e l Hinv Hnn Hload Hst Hnd Hfresh Hmax.
  - eexists. reflexivity.
  - cbn [map fst forallb] in Hst. apply andb_true_iff in Hst as [Hs Hst].
    cbn [map fst] in Hnd. apply NoDup_cons in Hnd as [Hnew Hnd].
    cbn [length] in Hmax.
    pose proof (inv_capacity t Hinv) as Hcap.
    pose proof (inv_size t Hinv) as Hsz.
    assert (Habs : s ∉ keys t).
    { intros Hin. apply (Hfresh s Hin). cbn [map fst]. apply list_elem_of_here. }
    destruct (put_observed_new s v t e l Hinv Hs Habs Hnn Hload)
      as (t1 & l1 & Hrun & (Hinv1 & Hsize1 & Hcap1 & Hkeys1 & _ & Hload1) & Hcont1).
    { intros Hg.
      pose proof (grows_capacity (size t + 1) (capacity t) ltac:(lia) ltac:(lia) Hg).
      lia. }
    assert (Hnn1 : nonneg_keys t1 = true).
    { apply (nonneg_keys_content t t1 s v Hnn); [| exact Hcont1].
      apply storable_inv in Hs. tauto. }
    destruct (IH t1 D_No_Error l1 Hinv1 Hnn1 Hload1 Hst Hnd) as [w' Hrest].
    + intros x Hx. rewrite Hkeys1 in Hx.
      apply elem_of_cons in Hx as [-> | Hx]; [exact Hnew |].
      intros Hin. apply (Hfresh x Hx). cbn [map fst].
      apply list_elem_of_further. exact Hin.
    + lia.
    + exists w'. cbn [observe_insertions growth_sizes length].
      erewrite bind_Ret by exact Hrun. cbv beta iota.
      erewrite bind_Ret by exact Hrest.
      unfold ret. cbn [option_map]. rewrite Hsize1, Hcap1. reflexivity.
Qed.

(** X30: The sizes and capacities that are observed after successive
    insertions of new storable keys follow the growth rule of [rehash]
    alone: each insertion is the successful [croquette_put] of an absent
    key, the size grows by one, and the capacity doubles exactly when the
    new size is above (capacity >> 1) + (capacity >> 2) or not below the
    capacity. From a table of one bucket seven insertions give (1,2), (2,4),
    (3,4), (4,8), (5,8), (6,8), (7,16). *)
Theorem insertions_follow_the_growth_rule
    (t : Croquette_s) (e : Z) (l : list Z) (kvs : list (string * Z)) :
  table_ok t = true -> nonneg_keys t = true -> size t < capacity t ->
  forallb storable (map fst kvs) = true -> distinct (map fst kvs) = true ->
  fresh_keys t (map fst kvs) = true ->
  4 * (size t + Z.of_nat (length kvs)) <= INT_MAX ->
  result (observe_insertions kvs (live t e l))
  = Some (Some (growth_sizes (size t) (capacity t) (length kvs))).
Proof.
  intros Hok Hnn Hload Hst Hdist Hfresh Hmax. apply table_ok_inv in Hok.
  destruct (observe_insertions_growth kvs t e l Hok Hnn Hload Hst) as [w' Hrun];
    [apply distinct_NoDup; assumption | apply fresh_keys_spec; assumption
    | assumption |].
  rewrite Hrun. reflexivity.
Qed.

Lemma insertions_follow_the_growth_rule_witness :
  result (observe_insertions (take 7 test_keys)
            (live (created 1 D_Do_Free true compare_elem) 0 []))
  = Some (Some [(1, 2); (2, 4); (3, 4); (4, 8); (5, 8); (6, 8); (7, 16)]).
Proof.
  apply (insertions_follow_the_growth_rule (created 1 D_Do_Free true compare_elem)
           0 [] (take 7 test_keys)).
  - reflexivity.
  - reflexivity.
  - reflexivity.
  - vm_compute. reflexivity.
  - vm_compute. reflexivity.
  - vm_compute. reflexivity.
  - vm_compute. discriminate.
Defined.
